(** * csv-chef: the recipe execution engine of package [csv]

    A shallow embedding of the Go package [csv] (values, argument
    resolution, parsers, operations and the operation pipeline of
    [ReadCsv]) together with the properties of its specification.

    Conventions of the embedding.
    - A Go [string] is a [string] (a sequence of bytes); [<] on strings is
      the bytewise order [String.ltb].
    - A Go [int] is a [Z] kept inside the 64-bit range by the functions
      that produce one.
    - A Go [map[string]T] is a [gmap string T]; the order in which [range]
      visits a map is not fixed by the language and is an oracle of the
      run-time interface [GoLib].
    - A row ([Row], a Go map) is a reference: rows live in a store and a
      slice of rows is a backing array of row references, so that in-place
      updates are seen by every holder of the slice.
    - A call returns a [res]: a value, an [error], or a run-time panic. *)

From Stdlib Require Import ZArith Lia List String Ascii Bool Permutation.
From stdpp Require Import gmap strings list fin_maps.

Local Open Scope string_scope.
Local Open Scope list_scope.
Local Open Scope Z_scope.

(** ** Results of fallible calls *)

Inductive res (A : Type) : Type :=
| Ok (a : A)
| Err (msg : string)
| Panic (msg : string).
Arguments Ok {A} a.
Arguments Err {A} msg.
Arguments Panic {A} msg.

Global Instance res_ret : MRet res := fun A a => Ok a.
Global Instance res_bind : MBind res := fun A B k r =>
  match r with
  | Ok a => k a
  | Err m => Err m
  | Panic m => Panic m
  end.

Definition is_Ok {A : Type} (r : res A) : Prop := ∃ a, r = Ok a.

(** [errors.Wrapf(err, msg)]: the message, a colon, the cause. *)
Definition Wrapf {A : Type} (msg : string) (r : res A) : res A :=
  match r with
  | Err m => Err (msg +:+ ": " +:+ m)
  | _ => r
  end.

(** ** 64-bit integers and binary floating point numbers *)

Definition min_int : Z := - 2 ^ 63.
Definition max_int : Z := 2 ^ 63 - 1.
Definition in_int (v : Z) : bool := (min_int <=? v) && (v <=? max_int).

(** A [float64]: not-a-number, an infinity, or the finite value
    [m * 2 ^ e]. *)
Inductive float64 : Type :=
| FNaN
| FInf (neg : bool)
| FFin (m e : Z).

Definition float_cmp (x y : float64) : option comparison :=
  match x, y with
  | FNaN, _ | _, FNaN => None
  | FInf a, FInf b =>
      Some (if a then (if b then Eq else Lt) else (if b then Gt else Eq))
  | FInf a, FFin _ _ => Some (if a then Lt else Gt)
  | FFin _ _, FInf b => Some (if b then Gt else Lt)
  | FFin m1 e1, FFin m2 e2 =>
      let e := Z.min e1 e2 in
      Some (Z.compare (m1 * 2 ^ (e1 - e)) (m2 * 2 ^ (e2 - e)))
  end.

Definition float_ltb (x y : float64) : bool :=
  match float_cmp x y with Some Lt => true | _ => false end.
Definition float_gtb (x y : float64) : bool :=
  match float_cmp x y with Some Gt => true | _ => false end.
Definition float_leb (x y : float64) : bool :=
  match float_cmp x y with Some Lt | Some Eq => true | _ => false end.

Definition float_zero : float64 := FFin 0 0.

(** The conversion [float64(v)] of an integer: exact up to 53 significant
    bits, rounded to the nearest 53-bit significand (ties to even) above. *)
Definition float64_of_int (v : Z) : float64 :=
  let a := Z.abs v in
  let n := Z.log2 a + 1 in
  if n <=? 53 then FFin v 0
  else
    let sh := n - 53 in
    let q := a / 2 ^ sh in
    let r := a mod 2 ^ sh in
    let half := 2 ^ (sh - 1) in
    let q' := if (half <? r) || ((r =? half) && Z.odd q) then q + 1 else q in
    FFin (Z.sgn v * q') sh.

(** The conversion [int(f)]: truncation toward zero; the result for a value
    that does not fit (or is not finite) is left to the implementation by
    the language, and is given by [ovf]. *)
Definition int_of_float64 (ovf : float64 → Z) (f : float64) : Z :=
  match f with
  | FFin m e =>
      let t := if 0 <=? e then m * 2 ^ e else Z.quot m (2 ^ (- e)) in
      if in_int t then t else ovf f
  | _ => ovf f
  end.

(** ** [strconv.Atoi] and [strconv.Itoa] *)

Definition digit_val (c : ascii) : option Z :=
  let n := Z.of_N (N_of_ascii c) in
  if (48 <=? n) && (n <=? 57) then Some (n - 48) else None.

Fixpoint parse_digits (s : string) (acc : Z) : option Z :=
  match s with
  | EmptyString => Some acc
  | String c s' =>
      match digit_val c with
      | Some d => parse_digits s' (acc * 10 + d)
      | None => None
      end
  end.

(** Base 10, an optional sign, at least one digit, and a value that fits
    the 64-bit [int]. *)
Definition Atoi (s : string) : option Z :=
  let '(neg, body) :=
    match s with
    | String "-" r => (true, r)
    | String "+" r => (false, r)
    | _ => (false, s)
    end in
  match body with
  | EmptyString => None
  | _ =>
      match parse_digits body 0 with
      | Some n => let v := if neg then - n else n in
                  if in_int v then Some v else None
      | None => None
      end
  end.

Definition digit_char (d : Z) : ascii := ascii_of_N (Z.to_N (48 + d)).

Fixpoint digits_aux (fuel : nat) (n : Z) (acc : string) : string :=
  match fuel with
  | O => acc
  | S f =>
      let acc' := String (digit_char (n mod 10)) acc in
      if n <? 10 then acc' else digits_aux f (n / 10) acc'
  end.

Definition Itoa (n : Z) : string :=
  if n <? 0 then String "-" (digits_aux (S (Z.to_nat (- n))) (- n) "")
  else digits_aux (S (Z.to_nat n)) n "".

(** ** The run-time interface

    What the package takes from the Go standard library and run time and
    what this development assumes of it. *)

Definition graphic (c : ascii) : Prop :=
  (33 <= Z.of_N (N_of_ascii c) <= 126)%Z.

Class GoLib : Type := {
  (** [strings.TrimSpace] *)
  TrimSpace : string → string;
  TrimSpace_empty : TrimSpace "" = "";
  TrimSpace_idemp : ∀ s, TrimSpace (TrimSpace s) = TrimSpace s;
  TrimSpace_graphic :
    ∀ s, Forall graphic (list_ascii_of_string s) → TrimSpace s = s;
  (** [strings.ToLower], [strings.ToUpper] *)
  ToLower : string → string;
  ToUpper : string → string;
  (** [strconv.ParseFloat(s, 64)]; [None] when it returns an error *)
  ParseFloat : string → option float64;
  (** [int(f)] where the language leaves the result to the implementation *)
  int_overflow : float64 → Z;
  (** [fmt.Sprintf("%f", f)] *)
  Sprintf_f : float64 → string;
  (** [md5.Sum] *)
  md5_Sum : list ascii → list ascii;
  md5_Sum_length : ∀ b, length (md5_Sum b) = 16%nat;
  (** the order in which [range] visits the entries of a map *)
  range_order : ∀ A : Type, list A → list A;
  range_order_perm : ∀ (A : Type) (l : list A), Permutation l (range_order A l);
}.
Arguments range_order {_ A} _.

(** ** The data model (args.go, the value model of the package) *)

Definition TypStr : string := "string".
Definition TypInt : string := "int".
Definition TypFloat : string := "float".
Definition TypBool : string := "bool".

(** [strBool]: the tokens of a boolean cell. *)
Definition strBool : gmap string bool :=
  list_to_map
    [("no", false); ("yes", true); ("n/a", false); ("false", false);
     ("true", true); ("0", false); ("1", true); ("", false)].

(** [ParserArg]: a literal, a list of arguments, a column, or columns. *)
#[warnings="-register-all"]
Inductive ParserArg : Type :=
  MkParserArg (Value : string) (Values : list ParserArg)
              (Col : string) (Cols : list string).

Definition pa_Value (a : ParserArg) : string :=
  let 'MkParserArg v _ _ _ := a in v.
Definition pa_Values (a : ParserArg) : list ParserArg :=
  let 'MkParserArg _ vs _ _ := a in vs.
Definition pa_Col (a : ParserArg) : string :=
  let 'MkParserArg _ _ c _ := a in c.
Definition pa_Cols (a : ParserArg) : list string :=
  let 'MkParserArg _ _ _ cs := a in cs.

Record ColParser : Type := MkColParser {
  cp_Name : string;
  cp_Args : gmap string ParserArg;
}.

Record ColDef : Type := MkColDef {
  cd_Name : string;
  cd_Type : string;
  cd_Default : string;
  cd_NotEmpty : bool;
  cd_Parsers : list ColParser;
  cd_Dynamic : bool;
}.

(** The unexported field [index] of [ColDef] is written once by
    [NewHeader] and read nowhere; it is left out. *)

(** [Value]: the cell; [def] is the column definition it points to. *)
Record Value : Type := MkValue {
  valInt : option Z;
  valFloat : option float64;
  valBool : option bool;
  def : ColDef;
  valStr : string;
}.

(** A row is a map from column name to value; [ValueDefs] maps a column
    name to its definition and [Header] an input position to one. *)
Abbreviation Row := (gmap string Value).
Abbreviation ValueDefs := (gmap string ColDef).
Abbreviation Header := (gmap nat (option ColDef)).

Definition ValStr (v : Value) : string := valStr v.

Definition ValInt (v : Value) : option Z :=
  if negb (cd_Type (def v) =? TypFloat)%string
     && negb (cd_Type (def v) =? TypInt)%string
     && negb (cd_Type (def v) =? TypBool)%string
  then None else valInt v.

Definition ValFloat (v : Value) : option float64 :=
  if negb (cd_Type (def v) =? TypFloat)%string
     && negb (cd_Type (def v) =? TypInt)%string
  then None else valFloat v.

Definition ValBool (v : Value) : option bool :=
  if negb (cd_Type (def v) =? TypBool)%string
     && negb (cd_Type (def v) =? TypFloat)%string
     && negb (cd_Type (def v) =? TypInt)%string
  then None else valBool v.

Section ValueModel.
Context `{L : GoLib}.

(** [(cd *ColDef) parseValStr] *)
Definition parseValStr (cd : ColDef) (val : string) : res string :=
  let val := TrimSpace val in
  if (TrimSpace val =? "")%string then
    if negb (cd_Default cd =? "")%string then Ok (cd_Default cd)
    else if negb (cd_Type cd =? TypStr)%string then Ok "0"
    else if cd_NotEmpty cd
         then Err "required value is empty and no default configured"
         else Ok ""
  else Ok val.

(** [NewValue] *)
Definition NewValue (d : ColDef) (vStr : string) : res Value :=
  vStr ← parseValStr d vStr;
  if (cd_Type d =? TypStr)%string then
    Ok (MkValue None None None d vStr)
  else if (cd_Type d =? TypInt)%string then
    match Atoi vStr with
    | None => Err ("not a number. vStr: '" +:+ vStr)
    | Some vInt =>
        let vFloat := float64_of_int vInt in
        let vBool := vInt <=? 0 in
        Ok (MkValue (Some vInt) (Some vFloat) (Some vBool) d vStr)
    end
  else if (cd_Type d =? TypBool)%string then
    let bStr := TrimSpace (ToLower vStr) in
    let vBool := match strBool !! bStr with
                 | Some b => b
                 | None => true
                 end in
    Ok (MkValue None None (Some vBool) d vStr)
  else if (cd_Type d =? TypFloat)%string then
    match ParseFloat vStr with
    | None => Err ("not a float. vStr: '" +:+ vStr +:+ "'")
    | Some vFloat =>
        let vInt := int_of_float64 int_overflow vFloat in
        let vBool := vInt <=? 0 in
        Ok (MkValue (Some vInt) (Some vFloat) (Some vBool) d vStr)
    end
  else
    Err ("unsupported type " +:+ cd_Type d +:+ " for col '"
         +:+ cd_Name d +:+ "'").

End ValueModel.

(** ** Resolved arguments (args.go)

    [FuncArgs] maps an argument name to an [interface{}]; the dynamic types
    the package produces or inspects are listed here. *)

#[warnings="-register-all"]
Inductive argval : Type :=
| AStr (s : string)            (* string *)
| AList (l : list argval)      (* []interface{} *)
| AStrs (l : list string)      (* []string *)
| AInt (n : Z)                 (* int *)
| ABool (b : bool)             (* bool *)
| AFloat (f : float64).        (* float64 *)

Abbreviation FuncArgs := (gmap string argval).

(** [reflect.Type] of the declared arguments, as far as [ArgDef]s use it. *)
Inductive gotype : Type :=
| TString | TSliceIface | TSliceString | TMapIface | TBool | TInt.

Definition is_Slice (t : gotype) : bool :=
  match t with TSliceIface | TSliceString => true | _ => false end.

Abbreviation ArgDef := (gmap string gotype).

(** [reflect.Type.String] of a dynamic value. *)
Definition type_name (v : argval) : string :=
  match v with
  | AStr _ => "string"
  | AList _ => "[]interface {}"
  | AStrs _ => "[]string"
  | AInt _ => "int"
  | ABool _ => "bool"
  | AFloat _ => "float64"
  end.

(** ** Argument resolution: [parseArgs] *)

Fixpoint parseArgs (cell : Value) (row : Row) (arg : ParserArg) : res argval :=
  match arg with
  | MkParserArg value values col cols =>
      if negb (value =? "")%string then Ok (AStr value)
      else if (0 <? length values)%nat then
        vals ← (fix loop (ival : nat) (l : list ParserArg) (vals : list argval)
                  : res (list argval) :=
                  match l with
                  | [] => Ok vals
                  | val :: l' =>
                      match parseArgs cell row val with
                      | Ok v => loop (S ival) l' (vals ++ [v])%list
                      | Err m =>
                          Err ("argument at index " +:+ Itoa (Z.of_nat ival)
                               +:+ ": " +:+ m)
                      | Panic m => Panic m
                      end
                  end) 0%nat values [];
        Ok (AList vals)
      else if negb (col =? "")%string then
        match row !! col with
        | None => Err ("column '" +:+ value +:+ "' not found")
        | Some val => Ok (AStr (ValStr val))
        end
      else
        match cols with
        | col :: _ =>
            match row !! col with
            | None => Err ("column '" +:+ col +:+ "' not found")
            | Some val => Ok (AStr (ValStr val))
            end
        | [] => Ok (AStr (ValStr cell))   (* default to self *)
        end
  end.

(** ** The file system seen by the parsers and operations *)

Inductive stat_result : Type := StatOk | StatNotExist | StatOtherErr.

Record World : Type := MkWorld {
  os_Stat : string → stat_result;
  ReadFile : string → option (list ascii);   (* [None]: a read error *)
}.

(** [hex.EncodeToString] *)
Definition hex_digit (n : N) : ascii :=
  ascii_of_N (if (n <? 10)%N then 48 + n else 87 + n)%N.

Definition hex_byte (b : ascii) : list ascii :=
  let n := N_of_ascii b in [hex_digit (n / 16)%N; hex_digit (n mod 16)%N].

Definition EncodeToString (bs : list ascii) : string :=
  string_of_list_ascii (concat (map hex_byte bs)).

(** [filepath.Ext] (with [/] as the path separator): the suffix that starts
    at the last dot of the last path element. *)
Fixpoint has_sep (s : string) : bool :=
  match s with
  | EmptyString => false
  | String c r => (Ascii.eqb c "/") || has_sep r
  end.

Fixpoint Ext (path : string) : string :=
  match path with
  | EmptyString => ""
  | String c r =>
      match Ext r with
      | EmptyString =>
          if Ascii.eqb c "." && negb (has_sep r) then path else ""
      | e => e
      end
  end.

(** [strings.Contains] *)
Fixpoint is_prefix (p s : string) : bool :=
  match p, s with
  | EmptyString, _ => true
  | String a p', String b s' => Ascii.eqb a b && is_prefix p' s'
  | String _ _, EmptyString => false
  end.

Fixpoint Contains (s substr : string) : bool :=
  is_prefix substr s ||
  match s with
  | EmptyString => false
  | String _ s' => Contains s' substr
  end.

(** [strings.Join] *)
Fixpoint Join (l : list string) (sep : string) : string :=
  match l with
  | [] => ""
  | [x] => x
  | x :: r => x +:+ sep +:+ Join r sep
  end.

(** ** Parsers (the parser interface and the built-in parsers) *)

Record Parser : Type := MkParser {
  p_name : string;
  p_parser : FuncArgs → res string;
  p_args : ArgDef;
}.

Definition Parse (p : Parser) (args : FuncArgs) : res string := p_parser p args.

Definition argString (args : FuncArgs) (argName : string) : res string :=
  match args !! argName with
  | None => Err ("'" +:+ argName +:+ "' argument not provided")
  | Some (AStr vS) => Ok vS
  | Some _ => Err ("'" +:+ argName +:+ "' must be a string")
  end.

Definition argInt (args : FuncArgs) (argName : string) : res Z :=
  match args !! argName with
  | None => Err ("'" +:+ argName +:+ "' argument not provided")
  | Some (AInt vInt) => Ok vInt
  | Some (AStr vS) =>
      match Atoi vS with
      | Some vInt => Ok vInt
      | None => Err ("'" +:+ argName +:+ "' must be an integer")
      end
  | Some _ => Err ("'" +:+ argName +:+ "' must be an integer")
  end.

Definition argBool (args : FuncArgs) (argName : string) : res bool :=
  match args !! argName with
  | None => Err ("'" +:+ argName +:+ "' argument not provided")
  | Some (ABool vBool) => Ok vBool
  | Some (AStr vS) =>
      Ok (match strBool !! vS with Some b => b | None => false end)
  | Some _ => Err ("'" +:+ argName +:+ "' must be a boolean")
  end.

Definition argSliceString (args : FuncArgs) (argName : string)
  : res (list string) :=
  match args !! argName with
  | None => Err ("'" +:+ argName +:+ "' argument not provided")
  | Some (AStrs vS) => Ok vS
  | Some _ => Err ("'" +:+ argName +:+ "' must be a slice of strings")
  end.

Section Parsers.
Context `{L : GoLib} (W : World).

Definition changeCase (upper : bool) (args : FuncArgs) : res string :=
  match args !! "value" with
  | None => Err "val argument not provided"
  | Some (AStr val) => Ok (if upper then ToUpper val else ToLower val)
  | Some v => Err ("val isn't a string. " +:+ type_name v +:+ " given")
  end.

Definition tolowercaseParser : Parser :=
  MkParser "lowercase" (changeCase false) {[ "value" := TString ]}.

Definition toUppercaseParser : Parser :=
  MkParser "uppercase" (changeCase true) {[ "value" := TString ]}.

Definition concat_fn (args : FuncArgs) : res string :=
  match args !! "values" with
  | None => Err "values argument not provided"
  | Some (AList vall) =>
      let valuesStr :=
        fold_left (fun acc val =>
                     match val with
                     | AStr s => (acc ++ [s])%list
                     | AFloat f => (acc ++ [Sprintf_f f])%list
                     | AInt n => (acc ++ [Itoa n])%list
                     | _ => acc
                     end) vall [] in
      Ok (Join valuesStr "")
  | Some v =>
      Panic ("interface conversion: interface {} is " +:+ type_name v
             +:+ ", not []interface {}")
  end.

Definition concatParser : Parser :=
  MkParser "concat" concat_fn {[ "values" := TSliceIface ]}.

(** [extParser]: reads the argument [filename]. *)
Definition extParser (args : FuncArgs) : res string :=
  match args !! "filename" with
  | None => Err "filename argument not provided"
  | Some (AStr fileName) =>
      let ext := Ext fileName in
      match ext with
      | String "." rest => Ok rest
      | _ => Ok ext
      end
  | Some v =>
      Panic ("interface conversion: interface {} is " +:+ type_name v
             +:+ ", not string")
  end.

(** The registered parser [ext]: declares the argument [value]. *)
Definition fileExtParser : Parser :=
  MkParser "ext" extParser {[ "value" := TString ]}.

Definition fileExists (args : FuncArgs) : res string :=
  match args !! "filename" with
  | None => Err "filename argument not provided"
  | Some (AStr val) =>
      match os_Stat W val with
      | StatNotExist => Ok "false"
      | _ => Ok "true"
      end
  | Some v =>
      Panic ("interface conversion: interface {} is " +:+ type_name v
             +:+ ", not string")
  end.

Definition fileExistsParser : Parser :=
  MkParser "fileExists" fileExists {[ "value" := TString ]}.

Definition fileMd5 (args : FuncArgs) : res string :=
  match args !! "filename" with
  | None => Err "filename argument not provided"
  | Some (AStr fileName) =>
      match os_Stat W fileName with
      | StatNotExist => Ok ""
      | _ =>
          match ReadFile W fileName with
          | None => Err ("open " +:+ fileName)
          | Some cnt => Ok (EncodeToString (md5_Sum cnt))
          end
      end
  | Some v =>
      Panic ("interface conversion: interface {} is " +:+ type_name v
             +:+ ", not string")
  end.

Definition fileMd5Parser : Parser :=
  MkParser "fileMd5" fileMd5 {[ "filename" := TString ]}.

Definition contains (args : FuncArgs) : res string :=
  val ← argString args "value";
  term ← argString args "term";
  trueVal ← argString args "trueValue";
  falseVal ← argString args "falseValue";
  if Contains val term then Ok trueVal else Ok falseVal.

Definition containsParser : Parser :=
  MkParser "contains" contains
    {[ "value" := TString; "term" := TString;
       "trueValue" := TString; "falseValue" := TString ]}.

(** [AddParsers] on the registry [parsers]. *)
Fixpoint AddParsers (parsersList : list Parser) (parsers : gmap string Parser)
  : res (gmap string Parser) :=
  match parsersList with
  | [] => Ok parsers
  | parser :: rest =>
      let name := TrimSpace (p_name parser) in
      if (name =? "")%string then Err "parser's name cannot be empty"
      else match parsers !! name with
           | Some _ =>
               Err ("parser with name '" +:+ name +:+ "' already exists")
           | None => AddParsers rest (<[p_name parser := parser]> parsers)
           end
  end.

(** The registry after [init]. *)
Definition builtin_parsers : gmap string Parser :=
  list_to_map
    (map (fun p => (p_name p, p))
       [concatParser; tolowercaseParser; toUppercaseParser; fileExtParser;
        fileExistsParser; fileMd5Parser; containsParser]).

(** [validateParserArgType] *)
Definition validateParserArgType (defType : gotype) (arg : ParserArg)
  : res unit :=
  if (0 <? length (pa_Values arg))%nat && negb (is_Slice defType) then
    Err "type must either be 'self', 'col', or 'val', not 'array'"
  else if (length (pa_Values arg) =? 0)%nat && is_Slice defType then
    Err "type must be 'array'"
  else Ok tt.

(** [validateParser] against a registry. *)
Definition validateParser (parsers : gmap string Parser)
    (colParser : ColParser) : res unit :=
  let name := cp_Name colParser in
  match parsers !! name with
  | None => Err ("parser '" +:+ name +:+ "' does not exist")
  | Some parser =>
      foldr (fun '(arg, val) k =>
               match p_args parser !! arg with
               | None =>
                   Err ("parser '" +:+ name
                        +:+ "' does not take argument '" +:+ arg +:+ "'")
               | Some parserArg =>
                   _ ← Wrapf ("invalid type for argument '" +:+ arg
                              +:+ "' in parser '" +:+ name +:+ "'")
                         (validateParserArgType parserArg val);
                   k
               end)
            (Ok tt)
            (range_order (map_to_list (cp_Args colParser)))
  end.

(** [(cd *ColDef) validateParsers] *)
Definition validateParsers (parsers : gmap string Parser) (cd : ColDef)
  : res unit :=
  foldr (fun parser k => _ ← validateParser parsers parser; k)
        (Ok tt) (cd_Parsers cd).

End Parsers.

(** ** Headers and rows *)

Section Rows.
Context `{L : GoLib}.

(** [NewHeader] with the parser registry it validates against. *)
Definition NewHeader (parsers : gmap string Parser) (defs : ValueDefs)
    (header : list string) : res Header :=
  foldl (fun acc '(hi, h) =>
           headerDefs ← acc;
           match defs !! TrimSpace h with
           | None => Ok headerDefs
           | Some d =>
               _ ← validateParsers parsers d;
               Ok (<[hi := Some d]> headerDefs)
           end)
        (Ok ∅) (imap (fun hi h => (hi, h)) header).

(** [NewRow]; a [nil] entry of the header makes [NewValue] dereference
    a nil pointer. *)
Definition NewRow (header : Header) (rowStr : list string) : res Row :=
  foldl (fun acc '(i, cell) =>
           row ← acc;
           match header !! i with
           | None => Ok row
           | Some None =>
               Panic "invalid memory address or nil pointer dereference"
           | Some (Some h) =>
               val ← NewValue h cell;
               Ok (<[cd_Name h := val]> row)
           end)
        (Ok ∅) (imap (fun i cell => (i, cell)) rowStr).

End Rows.

(** ** The store: rows and slices of rows are references *)

Abbreviation loc := nat.

Record Store : Type := MkStore {
  st_rows : list Row;          (* the row maps, by address *)
  st_arrays : list (list loc); (* the backing arrays of the row slices *)
}.

(** A [[]Row]: [None] is the nil slice, [Some a] the slice over the whole
    backing array [a]. *)
Definition slice : Type := option loc.

Definition slice_locs (σ : Store) (s : slice) : list loc :=
  match s with
  | None => []
  | Some a => default [] (st_arrays σ !! a)
  end.

Definition row_at (σ : Store) (r : loc) : Row := default ∅ (st_rows σ !! r).

(** The rows a slice holds, read through the store. *)
Definition slice_rows (σ : Store) (s : slice) : list Row :=
  map (row_at σ) (slice_locs σ s).

Definition set_array (σ : Store) (s : slice) (arr : list loc) : Store :=
  match s with
  | None => σ
  | Some a => MkStore (st_rows σ) (<[a := arr]> (st_arrays σ))
  end.

Definition set_row (σ : Store) (r : loc) (row : Row) : Store :=
  MkStore (<[r := row]> (st_rows σ)) (st_arrays σ).

(** Allocation of fresh rows and of a slice holding them ([append] from a
    nil slice); no row gives the nil slice. *)
Definition alloc_rows (σ : Store) (rows : list Row) : slice * Store :=
  match rows with
  | [] => (None, σ)
  | _ =>
      let base := length (st_rows σ) in
      let locs := seq base (length rows) in
      (Some (length (st_arrays σ)),
       MkStore (st_rows σ ++ rows) (st_arrays σ ++ [locs]))
  end.

(** ** What the run writes *)

Inductive event : Type :=
| EvStdout (record : list string)
| EvFile (name : string) (record : list string).

(** The environment: the file system as it answers after the events so
    far, and whether a file can be opened for writing. *)
Record Env : Type := MkEnv {
  env_fs : list event → World;
  env_OpenFile : list event → string → bool;
  env_open_csv : string → res (list (list string) * option string);
}.

Record pstate : Type := MkPState {
  ps_store : Store;
  ps_out : list event;
}.

(** [sort.Slice]: the sorting procedure works on positions of the slice
    through [less]; [less] may change the state it closes over and may
    panic. *)
Definition less_fn (A S : Type) : Type :=
  S → list A → nat → nat → res (bool * S).

Class GoSort : Type := {
  sort_Slice : ∀ A S : Type, less_fn A S → S → list A → res (list A * S);
  sort_Slice_perm :
    ∀ (A S : Type) (less : less_fn A S) (s s' : S) (l l' : list A),
      sort_Slice A S less s l = Ok (l', s') → Permutation l l';
}.
Arguments sort_Slice {_ A S} _ _ _.

(** [data.Swap(i, j)] *)
Definition swap {A : Type} (l : list A) (i j : nat) : list A :=
  match l !! i, l !! j with
  | Some x, Some y => <[j := x]> (<[i := y]> l)
  | _, _ => l
  end.

(** [insertionSort_func(data, a, b)] of package [sort] with [a = 0]:
    the inner loop moves the element at [j] down while it is less than
    its predecessor. *)
Fixpoint insert_down {A S : Type} (less : less_fn A S) (j : nat)
    (l : list A) (s : S) : res (list A * S) :=
  match j with
  | O => Ok (l, s)
  | S j' =>
      '(b, s') ← less s l j j';
      if b : bool then insert_down less j' (swap l j j') s' else Ok (l, s')
  end.

Definition insertionSort {A S : Type} (less : less_fn A S) (s : S)
    (l : list A) : res (list A * S) :=
  foldl (fun acc i => '(l, s) ← acc; insert_down less i l s)
        (Ok (l, s)) (seq 1 (length l - 1)).

(** The pass of [quickSort_func] (Go up to 1.18) over a range of at most
    12 elements: when it has more than 6, one pass that compares the
    elements 6 apart, then insertion sort. *)
Definition shell_pass {A S : Type} (less : less_fn A S) (s : S)
    (l : list A) : res (list A * S) :=
  foldl (fun acc i =>
           '(l, s) ← acc;
           '(b, s') ← less s l i (i - 6)%nat;
           Ok (if b : bool then swap l i (i - 6)%nat else l, s'))
        (Ok (l, s)) (seq 6 (length l - 6)).

Definition quickSort_small {A S : Type} (less : less_fn A S) (s : S)
    (l : list A) : res (list A * S) :=
  if (1 <? length l)%nat then
    '(l, s) ← shell_pass less s l;
    insertionSort less s l
  else Ok (l, s).

(** ** Operations (ops_builtin.go) *)

(** The value of a column in a row, [row[col]]: calling a method on the
    nil interface of a missing key panics. *)
Definition row_col (row : Row) (col : string) : res Value :=
  match row !! col with
  | Some v => Ok v
  | None => Panic "invalid memory address or nil pointer dereference"
  end.

(** The type assertion [v.([]string)]. *)
Definition as_strs (v : argval) : res (list string) :=
  match v with
  | AStrs l => Ok l
  | _ => Panic ("interface conversion: interface {} is " +:+ type_name v
                +:+ ", not []string")
  end.

(** The type assertion [v.(string)]. *)
Definition as_str (v : argval) : res string :=
  match v with
  | AStr s => Ok s
  | _ => Panic ("interface conversion: interface {} is " +:+ type_name v
                +:+ ", not string")
  end.

(** [out = append(out, f(x))] over a list, stopping at the first failure. *)
Fixpoint mapM {A B : Type} (f : A → res B) (l : list A) : res (list B) :=
  match l with
  | [] => Ok []
  | x :: r => y ← f x; ys ← mapM f r; Ok (y :: ys)
  end.

Record Operation : Type := MkOperation {
  op_Name : string;
  op_OpFunc : pstate → slice → ValueDefs → FuncArgs
              → res (slice * ValueDefs * pstate);
  op_ArgDef : ArgDef;
}.

(** The records a sink writes: the header and one record per row. *)
Definition sink_records (rows : list Row) (cols : list string)
  : res (list (list string)) :=
  body ← mapM (fun r => mapM (fun col => v ← row_col r col; Ok (ValStr v)) cols)
         rows;
  Ok (cols :: body).

(** The comparison of one sort column under the direction [o]: [Some b]
    when the closure returns [b], [None] when it goes on to the next
    column. *)
Definition cmp_dir (o : string) (lt gt : bool) : option bool :=
  if (o =? "asc")%string then
    if lt then Some true else if gt then Some false else None
  else if (o =? "desc")%string then
    if gt then Some true else if lt then Some false else None
  else None.

(** [order[i]] *)
Definition index_str (l : list string) (i : nat) : res string :=
  match l !! i with
  | Some x => Ok x
  | None => Panic "index out of range"
  end.

(** [*v.ValFloat()] *)
Definition deref_ValFloat (v : Value) : res float64 :=
  match ValFloat v with
  | Some f => Ok f
  | None => Panic "invalid memory address or nil pointer dereference"
  end.

Section Operations.
Context `{L : GoLib} `{GS : GoSort} (E : Env).

Definition opPrint (st : pstate) (rows : slice) (defs : ValueDefs)
    (args : FuncArgs) : res (slice * ValueDefs * pstate) :=
  match args !! "cols" with
  | None => Err "cols argument not provided"
  | Some colsI =>
      cols ← as_strs colsI;
      recs ← sink_records (slice_rows (ps_store st) rows) cols;
      Ok (None, ∅,
          MkPState (ps_store st) (ps_out st ++ map EvStdout recs))
  end.

Definition printOperation : Operation :=
  MkOperation "print" opPrint {[ "cols" := TSliceString ]}.

Definition opToFile (st : pstate) (rows : slice) (defs : ValueDefs)
    (args : FuncArgs) : res (slice * ValueDefs * pstate) :=
  match args !! "cols" with
  | None => Err "cols argument not provided"
  | Some colsI =>
      cols ← as_strs colsI;
      match args !! "filename" with
      | None => Err "filename argument not provided"
      | Some val =>
          fileName ← as_str val;
          if env_OpenFile E (ps_out st) fileName then
            recs ← sink_records (slice_rows (ps_store st) rows) cols;
            Ok (None, ∅,
                MkPState (ps_store st)
                  (ps_out st ++ map (EvFile fileName) recs))
          else Err ("open " +:+ fileName)
      end
  end.

Definition toFileOperation : Operation :=
  MkOperation "toFile" opToFile
    {[ "filename" := TString; "cols" := TSliceString ]}.

(** The closure given to [sort.Slice] by [opSort]. It closes over the
    rows (read at the positions [i] and [j] of the slice as it is when
    called), the definitions, the columns, and the slice [order], which
    it updates. It reads the direction at [order[i]], where [i] is the
    position of the row. *)
Fixpoint sort_less_loop (rowsσ : list Row) (defs : ValueDefs)
    (arr : list loc) (i j : nat) (colI : nat) (cols : list string)
    (order : list string) : res (bool * list string) :=
  match cols with
  | [] => Ok (false, order)
  | col :: cols' =>
      o ← index_str order colI;
      let order :=
        if negb (o =? "desc")%string && negb (o =? "asc")%string
        then <[colI := "asc"]> order else order in
      let ri := default ∅ (ri ← arr !! i; rowsσ !! ri) in
      let rj := default ∅ (rj ← arr !! j; rowsσ !! rj) in
      match defs !! col with
      | None => Panic "invalid memory address or nil pointer dereference"
      | Some colDef =>
          r ← (if (cd_Type colDef =? TypStr)%string then
                 oi ← index_str order i;
                 if (oi =? "asc")%string || (oi =? "desc")%string then
                   vi ← row_col ri col;
                   vj ← row_col rj col;
                   Ok (cmp_dir oi (String.ltb (ValStr vi) (ValStr vj))
                                  (String.ltb (ValStr vj) (ValStr vi)))
                 else Ok None
               else if (cd_Type colDef =? TypFloat)%string
                       || (cd_Type colDef =? TypInt)%string then
                 oi ← index_str order i;
                 if (oi =? "asc")%string || (oi =? "desc")%string then
                   vi ← row_col ri col;
                   fi ← deref_ValFloat vi;
                   vj ← row_col rj col;
                   fj ← deref_ValFloat vj;
                   Ok (cmp_dir oi (float_ltb fi fj) (float_gtb fi fj))
                 else Ok None
               else Ok None);
          match r with
          | Some b => Ok (b, order)
          | None =>
              sort_less_loop rowsσ defs arr i j (S colI) cols' order
          end
      end
  end.

Definition sort_less (rowsσ : list Row) (defs : ValueDefs)
    (cols : list string) : less_fn loc (list string) :=
  fun order arr i j => sort_less_loop rowsσ defs arr i j 0 cols order.

(** [opSort]: sorts the slice it is given in place and returns no rows. *)
Definition opSort (st : pstate) (rows : slice) (defs : ValueDefs)
    (args : FuncArgs) : res (slice * ValueDefs * pstate) :=
  match args !! "cols" with
  | None => Err "cols argument not provided"
  | Some colsI =>
      cols ← as_strs colsI;
      match args !! "order" with
      | None => Err "order argument not provided"
      | Some orderI =>
          order ← as_strs orderI;
          if negb (length order =? length cols)%nat then
            Err "number of items in 'order' must be equal to number of items in 'cols'"
          else
            let σ := ps_store st in
            '(arr, _) ← sort_Slice (sort_less (st_rows σ) defs cols)
                          order (slice_locs σ rows);
            Ok (None, ∅, MkPState (set_array σ rows arr) (ps_out st))
      end
  end.

Definition sortOperation : Operation :=
  MkOperation "sort" opSort
    {[ "cols" := TSliceString; "order" := TSliceString ]}.

(** The group key of a row: the string forms of the index columns, one
    after the other. *)
Definition group_index (cols : list string) (row : Row) : res string :=
  foldl (fun acc col => index ← acc; v ← row_col row col;
                        Ok (index +:+ ValStr v))
        (Ok "") cols.

(** [m[index] = append(m[index], row)] for every row, in order. *)
Definition build_groups (cols : list string) (rows : list Row)
  : res (gmap string (list Row)) :=
  foldl (fun acc row =>
           m ← acc;
           index ← group_index cols row;
           Ok (<[index := (default [] (m !! index) ++ [row])%list]> m))
        (Ok ∅) rows.

(** [header[i] = defs[col]] for the output columns. *)
Definition out_header (defs : ValueDefs) (outCols : list string) : Header :=
  foldl (fun header '(i, col) => <[i := defs !! col]> header)
        ∅ (imap (fun i col => (i, col)) outCols).

(** [header[len(header)] = d] *)
Definition header_push (header : Header) (d : ColDef) : Header :=
  <[size header := Some d]> header.

(** [outDefs[h.Name] = h] for every entry of the header. *)
Definition out_defs (header : Header) : res ValueDefs :=
  foldl (fun acc '(_, h) =>
           outDefs ← acc;
           match h with
           | None =>
               Panic "invalid memory address or nil pointer dereference"
           | Some h => Ok (<[cd_Name h := h]> outDefs)
           end)
        (Ok ∅) (range_order (map_to_list header)).

(** The groups in the order [range] visits them. *)
Definition range_groups (m : gmap string (list Row)) : list (list Row) :=
  map snd (range_order (map_to_list m)).

(** [x ← f g] for the groups that are kept, in order. *)
Fixpoint filter_mapM {A B : Type} (f : A → res (option B)) (l : list A)
  : res (list B) :=
  match l with
  | [] => Ok []
  | x :: r =>
      y ← f x;
      ys ← filter_mapM f r;
      Ok (match y with Some y => y :: ys | None => ys end)
  end.

(** [grp[0][col].ValStr()] *)
Definition first_col (grp : list Row) (col : string) : res string :=
  match grp with
  | [] => Panic "index out of range"
  | r :: _ => v ← row_col r col; Ok (ValStr v)
  end.

Definition dupesCount_rows (defs : ValueDefs) (cols outCols : list string)
    (countColName : string) (gt : Z) (rows : list Row)
  : res (list Row * ValueDefs) :=
  m ← build_groups cols rows;
  let header :=
    header_push (out_header defs outCols)
      (MkColDef countColName TypInt "" false [] true) in
  outRows ← filter_mapM (fun grp =>
      if Z.of_nat (length grp) <=? gt then Ok None
      else
        rec ← mapM (first_col grp) outCols;
        let rec := (rec ++ [Itoa (Z.of_nat (length grp))])%list in
        grpRow ← NewRow header rec;
        Ok (Some grpRow)) (range_groups m);
  outDefs ← out_defs header;
  Ok (outRows, outDefs).

(** [opDupesCount] *)
Definition opDupesCount (st : pstate) (rows : slice) (defs : ValueDefs)
    (args : FuncArgs) : res (slice * ValueDefs * pstate) :=
  match args !! "indexCols" with
  | None => Err "indexCols argument not provided"
  | Some colsI =>
  cols ← as_strs colsI;
  match args !! "outCols" with
  | None => Err "outCols argument not provided"
  | Some outColsI =>
  outCols ← as_strs outColsI;
  match args !! "countCol" with
  | None => Err "countCol argument not provided"
  | Some countColI =>
  countColName ← as_str countColI;
  match args !! "gt" with
  | None => Err "gt argument not provided"
  | Some gtI =>
  gtS ← as_str gtI;
  match Atoi gtS with
  | None => Err ("strconv.Atoi: parsing " +:+ gtS)
  | Some gt =>
      '(outRows, outDefs) ←
        dupesCount_rows defs cols outCols countColName gt
          (slice_rows (ps_store st) rows);
      let '(out, σ) := alloc_rows (ps_store st) outRows in
      Ok (out, outDefs, MkPState σ (ps_out st))
  end end end end end.

Definition dupesCountOp : Operation :=
  MkOperation "dupesCount" opDupesCount
    {[ "indexCols" := TSliceString; "outCols" := TSliceString;
       "countCol" := TString; "gt" := TInt ]}.

Definition findDuplicates_rows (defs : ValueDefs) (cols outCols : list string)
    (idCol dupeIdsCol sep : string) (rows : list Row)
  : res (list Row * ValueDefs) :=
  m ← build_groups cols rows;
  let header :=
    header_push (out_header defs outCols)
      (MkColDef dupeIdsCol TypStr "" false [] true) in
  outRows ← filter_mapM (fun grp =>
      if (length grp =? 1)%nat then Ok None
      else
        rec ← mapM (first_col grp) outCols;
        revs ← mapM (fun grpItem => v ← row_col grpItem idCol;
                                    Ok (ValStr v)) (tail grp);
        let rec := (rec ++ [Join revs sep])%list in
        grpRow ← NewRow header rec;
        Ok (Some grpRow)) (range_groups m);
  outDefs ← out_defs header;
  Ok (outRows, outDefs).

(** [opFindDuplicates] *)
Definition opFindDuplicates (st : pstate) (rows : slice) (defs : ValueDefs)
    (args : FuncArgs) : res (slice * ValueDefs * pstate) :=
  cols ← argSliceString args "indexCols";
  outCols ← argSliceString args "outCols";
  idCol ← argString args "idCol";
  dupeIdsCol ← argString args "dupeIdsCol";
  sep ← argString args "sep";
  '(outRows, outDefs) ←
    findDuplicates_rows defs cols outCols idCol dupeIdsCol sep
      (slice_rows (ps_store st) rows);
  let '(out, σ) := alloc_rows (ps_store st) outRows in
  Ok (out, outDefs, MkPState σ (ps_out st)).

Definition findDupesOp : Operation :=
  MkOperation "findDuplicates" opFindDuplicates
    {[ "indexCols" := TSliceString; "outCols" := TSliceString;
       "idCol" := TString; "dupeIdsCol" := TString; "sep" := TString ]}.

(** The inner loop of [opMergeDupes] over the members of a group for one
    output column: [n] is [len(grp)] and [gi] the position of the head of
    [grp]. [None]: the loop ends without a value (an empty group). *)
Fixpoint merge_scan (mergeValues : bool) (col : string) (n gi : nat)
    (grp : list Row) : res (option string) :=
  match grp with
  | [] => Ok None
  | grpItem :: rest =>
      v ← row_col grpItem col;
      let val := ValStr v in
      if mergeValues && (val =? "")%string && (gi <? n - 1)%nat
      then merge_scan mergeValues col n (S gi) rest
      else Ok (Some val)
  end.

(** [rec] of a group: one value per output column. *)
Definition merge_rec (mergeValues : bool) (outCols : list string)
    (grp : list Row) : res (list string) :=
  vals ← mapM (fun col => merge_scan mergeValues col (length grp) 0 grp)
         outCols;
  Ok (omap id (vals : list (option string))).

Definition mergeDupes_rows (defs : ValueDefs) (cols outCols : list string)
    (mergeValues : bool) (rows : list Row) : res (list Row * ValueDefs) :=
  m ← build_groups cols rows;
  let header := out_header defs outCols in
  outRows ← mapM (fun grp =>
      rec ← merge_rec mergeValues outCols grp;
      NewRow header rec) (range_groups m);
  outDefs ← out_defs header;
  Ok (outRows, outDefs).

(** [opMergeDupes] *)
Definition opMergeDupes (st : pstate) (rows : slice) (defs : ValueDefs)
    (args : FuncArgs) : res (slice * ValueDefs * pstate) :=
  cols ← argSliceString args "indexCols";
  outCols ← argSliceString args "outCols";
  mergeValues ← argBool args "mergeValues";
  '(outRows, outDefs) ←
    mergeDupes_rows defs cols outCols mergeValues
      (slice_rows (ps_store st) rows);
  let '(out, σ) := alloc_rows (ps_store st) outRows in
  Ok (out, outDefs, MkPState σ (ps_out st)).

Definition mergeDupesOp : Operation :=
  MkOperation "mergeDupes" opMergeDupes
    {[ "indexCols" := TSliceString; "outCols" := TSliceString;
       "mergeValues" := TBool ]}.

(** The hash column definition of [opMd5File]. *)
Definition md5ColDef (md5Col : string) : ColDef :=
  MkColDef md5Col TypStr "" false [] true.

(** The task of [opMd5File] for one row [r]: the value it stores in the
    hash column. A failing [NewValue] would store a nil value; with the
    string definition [md5ColDef] it does not fail. *)
Definition md5_task (W : World) (filenameCol md5Col : string)
    (σ : Store) (r : loc) : res Store :=
  let row := row_at σ r in
  v ← row_col row filenameCol;
  let filename := ValStr v in
  let hash :=
    match os_Stat W filename with
    | StatNotExist => ""
    | _ =>
        match ReadFile W filename with
        | None => ""
        | Some cnt => EncodeToString (md5_Sum cnt)
        end
    end in
  match NewValue (md5ColDef md5Col) hash with
  | Ok val => Ok (set_row σ r (<[md5Col := val]> row))
  | _ => Ok σ
  end.

(** [opMd5File]. One task per row writes the hash into its own row; the
    tasks are admitted through a channel of capacity [threads] and
    joined before the function returns. The tasks are run here one
    after the other in slice order. A negative capacity makes [make]
    panic; with capacity 0 and at least one row every task blocks on
    its send and the run time stops the program. *)
Definition opMd5File (st : pstate) (rows : slice) (defs : ValueDefs)
    (args : FuncArgs) : res (slice * ValueDefs * pstate) :=
  filenameCol ← argString args "filenameCol";
  md5Col ← argString args "md5Col";
  outCols ← argSliceString args "outCols";
  threads ← argInt args "threads";
  let header := header_push (out_header defs outCols) (md5ColDef md5Col) in
  let cpRows := slice_locs (ps_store st) rows in
  let tot := Z.of_nat (length cpRows) in
  let threads := if tot <? threads then tot else threads in
  if threads <? 0 then Panic "makechan: size out of range"
  else if (threads =? 0) && (0 <? tot) then
    Panic "all goroutines are asleep - deadlock!"
  else
    σ ← foldl (fun acc r =>
                 σ ← acc;
                 md5_task (env_fs E (ps_out st)) filenameCol md5Col σ r)
              (Ok (ps_store st)) cpRows;
    outDefs ← out_defs header;
    Ok (rows, outDefs, MkPState σ (ps_out st)).

Definition md5FileOp : Operation :=
  MkOperation "filesMd5" opMd5File
    {[ "filenameCol" := TString; "md5Col" := TString;
       "outCols" := TSliceString; "threads" := TInt ]}.

(** [AddOperations] on the registry [operations]. *)
Fixpoint AddOperations (newOps : list Operation)
    (operations : gmap string Operation) : res (gmap string Operation) :=
  match newOps with
  | [] => Ok operations
  | op :: rest =>
      match operations !! op_Name op with
      | Some _ => Err ("operation '" +:+ op_Name op +:+ "' already exists")
      | None => AddOperations rest (<[op_Name op := op]> operations)
      end
  end.

(** The registry after [init]. *)
Definition operations : gmap string Operation :=
  list_to_map
    (map (fun op => (op_Name op, op))
       [printOperation; toFileOperation; sortOperation; dupesCountOp;
        findDupesOp; mergeDupesOp; md5FileOp]).

End Operations.

(** ** The pipeline ([ReadCsv]) *)

Record OpArg : Type := MkOpArg {
  oa_Value : string;
  oa_Values : list string;
}.

Record OperationConf : Type := MkOperationConf {
  oc_Name : string;
  oc_Operation : string;
  oc_NewState : bool;
  oc_KeepState : bool;
  oc_FromState : string;
  oc_Args : gmap string OpArg;
}.

Record OpState : Type := MkOpState {
  os_Rows : slice;
  os_Defs : ValueDefs;
}.

(** [parseOpArgs] *)
Definition parseOpArgs (opArgDef : gotype) (arg : OpArg) : res argval :=
  if is_Slice opArgDef then Ok (AStrs (oa_Values arg))
  else Ok (AStr (oa_Value arg)).

(** One call of [operation.Execute] as the pipeline makes it: the
    invocation, the state it is given, and the rows that state holds at
    the time of the call. The record is kept for the properties below; the
    program keeps none. *)
Record invocation : Type := MkInvocation {
  inv_op : OperationConf;
  inv_state : OpState;
  inv_rows : list Row;
}.

Section Pipeline.
Context `{L : GoLib} `{GS : GoSort} (E : Env).
Variable parsers : gmap string Parser.

(** [funcArgs[argName] = parseArgs(cell, row, arg)] for every argument
    of a parser invocation. *)
Definition parser_args (cell : Value) (row : Row) (parser : ColParser)
    (colName : string) (rowIndex : nat) : res FuncArgs :=
  foldl (fun acc '(argName, arg) =>
           funcArgs ← acc;
           argVal ← Wrapf ("error parsing argument '" +:+ argName
                           +:+ "' in column '" +:+ colName +:+ "' in row "
                           +:+ Itoa (Z.of_nat rowIndex))
                      (parseArgs cell row arg);
           Ok (<[argName := argVal]> funcArgs))
        (Ok ∅) (range_order (map_to_list (cp_Args parser))).

(** The parser chain of one column of one row. *)
Definition run_chain (defs : ValueDefs) (colName : string) (rowIndex : nat)
    (chain : list ColParser) (cell : Value) (row : Row) : res Row :=
  r ← foldl (fun acc parser =>
               '(cell, row) ← acc;
               funcArgs ← parser_args cell row parser colName rowIndex;
               match parsers !! cp_Name parser with
               | None =>
                   Panic "invalid memory address or nil pointer dereference"
               | Some p =>
                   outputVal ←
                     Wrapf ("error running parser '" +:+ cp_Name parser
                            +:+ "' in column '" +:+ colName +:+ "' in row "
                            +:+ Itoa (Z.of_nat rowIndex))
                       (Parse p funcArgs);
                   match defs !! colName with
                   | None =>
                       Panic "invalid memory address or nil pointer dereference"
                   | Some d =>
                       cell ←
                         Wrapf ("error replacing value from parser '"
                                +:+ cp_Name parser +:+ "' in column '"
                                +:+ colName +:+ "' in row "
                                +:+ Itoa (Z.of_nat rowIndex))
                           (NewValue d outputVal);
                       Ok (cell, <[colName := cell]> row)
                   end
               end)
            (Ok (cell, row)) chain;
  Ok r.2.

(** One record of the input becomes one row. *)
Definition build_row (defs : ValueDefs) (header : Header) (rowIndex : nat)
    (rec : list string) : res Row :=
  row ← NewRow header rec;
  (* Run parsers for each column in row *)
  row ← foldl (fun acc '(i, cell) =>
                 row ← acc;
                 match defs !! i with
                 | None =>
                     Panic "invalid memory address or nil pointer dereference"
                 | Some d => run_chain defs i rowIndex (cd_Parsers d) cell row
                 end)
              (Ok row) (range_order (map_to_list row));
  (* Go through dynamic fields *)
  foldl (fun acc '(colName, d) =>
           row ← acc;
           if negb (cd_Dynamic d) then Ok row
           else
             match NewValue d "" with
             | Ok cell => run_chain defs colName rowIndex (cd_Parsers d)
                            cell row
             | Err _ => Err "error creating empty value"
             | Panic m => Panic m
             end)
        (Ok row) (range_order (map_to_list defs)).

(** The row-build pass over the records of the input. *)
Definition build_rows (defs : ValueDefs) (records : list (list string))
  : res (list Row) :=
  match records with
  | [] => Ok []
  | rec0 :: recs =>
      header ← NewHeader parsers defs rec0;
      mapM (fun '(k, rec) => build_row defs header (S k) rec)
           (imap (fun k rec => (k, rec)) recs)
  end.

(** [opFuncArgs] of an invocation. *)
Definition op_args (operation : Operation) (op : OperationConf)
  : res FuncArgs :=
  foldl (fun acc '(argName, arg) =>
           opFuncArgs ← acc;
           match op_ArgDef operation !! argName with
           | None =>
               Err ("unexpected argument '" +:+ argName
                    +:+ "' in operation '" +:+ oc_Operation op
                    +:+ "' named '" +:+ oc_Name op +:+ "'")
           | Some argDef =>
               argVal ← Wrapf ("error parsing argument '" +:+ argName
                               +:+ "' in operation '" +:+ oc_Operation op
                               +:+ "' named '" +:+ oc_Name op +:+ "'")
                          (parseOpArgs argDef arg);
               Ok (<[argName := argVal]> opFuncArgs)
           end)
        (Ok ∅) (range_order (map_to_list (oc_Args op))).

(** The state an invocation runs on. *)
Definition select_state (originalState : OpState)
    (states : gmap string OpState) (op : OperationConf) : res OpState :=
  if negb (oc_FromState op =? "")%string then
    match states !! oc_FromState op with
    | Some state => Ok state
    | None => Err ("state '" +:+ oc_FromState op
                   +:+ "' does not exist or was never kept")
    end
  else Ok originalState.

(** The loop over the operations. *)
Fixpoint run_ops (originalState : OpState) (opi : nat)
    (ops : list OperationConf) (states : gmap string OpState)
    (st : pstate) (trace : list invocation)
  : res (pstate * list invocation) :=
  match ops with
  | [] => Ok (st, trace)
  | op :: rest =>
      let states :=
        if (opi =? 0)%nat then <[oc_Name op := originalState]> states
        else states in
      match operations E !! oc_Operation op with
      | None => Err ("operation '" +:+ oc_Operation op
                     +:+ "' does not exist for '" +:+ oc_Name op +:+ "'")
      | Some operation =>
          opFuncArgs ← op_args operation op;
          state ← select_state originalState states op;
          let inv := MkInvocation op state
                       (slice_rows (ps_store st) (os_Rows state)) in
          '(outRows, outDefs, st') ←
            op_OpFunc operation st (os_Rows state) (os_Defs state)
              opFuncArgs;
          let states :=
            if oc_KeepState op
            then <[oc_Name op := MkOpState outRows outDefs]> states
            else states in
          run_ops originalState (S opi) rest states st'
            (trace ++ [inv])%list
      end
  end.

Definition empty_store : Store := MkStore [] [].

(** The base dataset: the rows of the row-build pass in a fresh slice. *)
Definition base_state (defs : ValueDefs) (rows : list Row)
  : OpState * pstate :=
  let '(sl, σ) := alloc_rows empty_store rows in
  (MkOpState sl defs, MkPState σ []).

(** [ReadCsv]: the returned slice, with the final state of the run and
    the calls it made. *)
Definition ReadCsv (filePath : string) (defs : ValueDefs)
    (ops : list OperationConf) : res (slice * pstate * list invocation) :=
  '(records, rerr) ← env_open_csv E filePath;
  rows ← build_rows defs records;
  match rerr with
  | Some e => Err e
  | None =>
      let '(originalState, st) := base_state defs rows in
      '(st', trace) ← run_ops originalState 0 ops ∅ st [];
      Ok (os_Rows originalState, st', trace)
  end.

End Pipeline.

(** * Reference instances of the run-time interface

    An ASCII instance of [GoLib] and the small-slice path of [sort.Slice]
    as an instance of [GoSort]. They fix concrete inputs on which the
    embedding can be run. *)

Definition is_space (c : ascii) : bool :=
  let n := N_of_ascii c in ((9 <=? n) && (n <=? 13) || (n =? 32))%N.

Fixpoint trim_left (s : string) : string :=
  match s with
  | EmptyString => ""
  | String c r => if is_space c then trim_left r else s
  end.

Fixpoint trim_right (s : string) : string :=
  match s with
  | EmptyString => ""
  | String c r =>
      match trim_right r with
      | EmptyString => if is_space c then "" else String c ""
      | r' => String c r'
      end
  end.

Definition ascii_TrimSpace (s : string) : string := trim_right (trim_left s).

Definition lower_char (c : ascii) : ascii :=
  let n := N_of_ascii c in
  if ((65 <=? n) && (n <=? 90))%N then ascii_of_N (n + 32) else c.

Definition upper_char (c : ascii) : ascii :=
  let n := N_of_ascii c in
  if ((97 <=? n) && (n <=? 122))%N then ascii_of_N (n - 32) else c.

Fixpoint map_string (f : ascii → ascii) (s : string) : string :=
  match s with
  | EmptyString => ""
  | String c r => String (f c) (map_string f r)
  end.

(** Decimal numerals [d], [d.0] and [d.5] with an optional sign and
    [d < 2 ^ 52]: on these [strconv.ParseFloat] is exact. Other strings are
    not accepted by this instance. *)
Fixpoint split_dot (s : string) : string * option string :=
  match s with
  | EmptyString => ("", None)
  | String c r =>
      if Ascii.eqb c "." then ("", Some r)
      else let '(a, b) := split_dot r in (String c a, b)
  end.

Definition small_ParseFloat (s : string) : option float64 :=
  let '(neg, body) :=
    match s with
    | String "-" r => (true, r)
    | String "+" r => (false, r)
    | _ => (false, s)
    end in
  let '(ip, fp) := split_dot body in
  match ip with
  | EmptyString => None
  | _ =>
      match parse_digits ip 0 with
      | None => None
      | Some d =>
          if 2 ^ 52 <=? d then None
          else
            let sg := if neg : bool then -1 else 1 in
            match fp with
            | None => Some (FFin (sg * d) 0)
            | Some "0"%string => Some (FFin (sg * d) 0)
            | Some "5"%string => Some (FFin (sg * (2 * d + 1)) (-1))
            | Some _ => None
            end
      end
  end.

(** A stand-in with the shape of [md5.Sum] (16 bytes that depend on the
    input); it is not the MD5 function. *)
Definition checksum16 (b : list ascii) : list ascii :=
  let n := fold_left (fun acc c => (acc * 31 + N_of_ascii c) mod 256)%N b 7%N in
  map (fun k => ascii_of_N ((n + N.of_nat k * 17) mod 256)%N) (seq 0 16).

Lemma trim_right_idemp (s : string) : trim_right (trim_right s) = trim_right s.
Proof.
  induction s as [|c r IH]; simpl; [reflexivity|].
  destruct (trim_right r) as [|c' r'] eqn:Hr.
  - destruct (is_space c) eqn:Hc; simpl; [reflexivity|]. now rewrite Hc.
  - simpl in *. now rewrite IH.
Qed.

Lemma trim_left_head (s : string) :
  match trim_left s with
  | EmptyString => True
  | String c _ => is_space c = false
  end.
Proof.
  induction s as [|c r IH]; simpl; [exact I|].
  destruct (is_space c) eqn:Hc; [exact IH|exact Hc].
Qed.

Lemma trim_left_right (s : string) :
  match s with EmptyString => True | String c _ => is_space c = false end →
  trim_left (trim_right s) = trim_right s.
Proof.
  destruct s as [|c r]; simpl; [reflexivity|]. intros Hc.
  destruct (trim_right r); rewrite ?Hc; simpl; now rewrite Hc.
Qed.

Lemma ascii_TrimSpace_idemp (s : string) :
  ascii_TrimSpace (ascii_TrimSpace s) = ascii_TrimSpace s.
Proof.
  unfold ascii_TrimSpace.
  rewrite trim_left_right by apply trim_left_head.
  apply trim_right_idemp.
Qed.

Lemma graphic_not_space (c : ascii) : graphic c → is_space c = false.
Proof.
  unfold graphic, is_space. intros H.
  destruct (N.leb_spec 9 (N_of_ascii c)), (N.leb_spec (N_of_ascii c) 13),
    (N.eqb_spec (N_of_ascii c) 32); simpl; try reflexivity; lia.
Qed.

Lemma ascii_TrimSpace_graphic (s : string) :
  Forall graphic (list_ascii_of_string s) → ascii_TrimSpace s = s.
Proof.
  unfold ascii_TrimSpace. induction s as [|c r IH]; simpl; [reflexivity|].
  intros H. inversion H as [|? ? Hc Hr]; subst.
  rewrite (graphic_not_space c Hc). simpl.
  specialize (IH Hr). destruct r as [|c' r'].
  - simpl. now rewrite (graphic_not_space c Hc).
  - inversion Hr as [|? ? Hc' _]; subst.
    simpl in IH. rewrite (graphic_not_space c' Hc') in IH.
    simpl in IH. simpl. now rewrite IH.
Qed.

Lemma checksum16_length (b : list ascii) : length (checksum16 b) = 16%nat.
Proof. unfold checksum16. now rewrite length_map, length_seq. Qed.

#[export] Instance ascii_lib : GoLib := {|
  TrimSpace := ascii_TrimSpace;
  TrimSpace_empty := eq_refl;
  TrimSpace_idemp := ascii_TrimSpace_idemp;
  TrimSpace_graphic := ascii_TrimSpace_graphic;
  ToLower := map_string lower_char;
  ToUpper := map_string upper_char;
  ParseFloat := small_ParseFloat;
  int_overflow := fun _ => min_int;
  Sprintf_f := fun _ => "";
  md5_Sum := checksum16;
  md5_Sum_length := checksum16_length;
  range_order := fun _ l => l;
  range_order_perm := fun _ l => Permutation_refl l;
|}.

(** [swap] permutes. *)
Lemma swap_perm {A : Type} (l : list A) (i j : nat) : Permutation l (swap l i j).
Proof.
  unfold swap.
  destruct (l !! i) as [x|] eqn:Hi; [|reflexivity].
  destruct (l !! j) as [y|] eqn:Hj; [|reflexivity].
  destruct (decide (i = j)) as [->|Hne].
  { replace y with x by congruence.
    rewrite list_insert_id; [|by rewrite list_lookup_insert_eq
                                  by (by eapply lookup_lt_Some)].
    by rewrite list_insert_id. }
  apply Permutation_inj. split; [by rewrite !length_insert|].
  exists (fun k => if decide (k = i) then j else if decide (k = j) then i else k).
  split.
  - intros a b. repeat case_decide; intros; subst; congruence.
  - intros k. repeat case_decide; subst.
    + rewrite list_lookup_insert_eq; [done|].
      rewrite length_insert. by eapply lookup_lt_Some.
    + rewrite list_lookup_insert_ne by done.
      rewrite list_lookup_insert_eq; [done|by eapply lookup_lt_Some].
    + by rewrite !list_lookup_insert_ne by done.
Qed.

Lemma insert_down_perm {A S : Type} (less : less_fn A S) (j : nat) :
  ∀ l s l' s', insert_down less j l s = Ok (l', s') → Permutation l l'.
Proof.
  induction j as [|j IH]; simpl; intros l s l' s' H.
  - by inversion H.
  - destruct (less s l (Datatypes.S j) j) as [[b s1]| |] eqn:Hl;
      simpl in H; try discriminate.
    destruct b.
    + etrans; [apply (swap_perm l (Datatypes.S j) j)|by eapply IH].
    + by inversion H.
Qed.

Lemma foldl_res_perm {A S B : Type}
    (step : B → list A → S → res (list A * S)) (ks : list B) :
  (∀ i l s l' s', step i l s = Ok (l', s') → Permutation l l') →
  ∀ l s l' s',
    foldl (fun acc i => '(l, s) ← acc; step i l s) (Ok (l, s)) ks = Ok (l', s') →
    Permutation l l'.
Proof.
  intros Hstep. induction ks as [|i ks IH] using rev_ind; intros l s l' s' H.
  - simpl in H. by inversion H.
  - rewrite foldl_app in H. simpl in H.
    destruct (foldl _ _ ks) as [[l1 s1]| |] eqn:Hf; simpl in H; try discriminate.
    etrans; [by eapply IH|by eapply Hstep].
Qed.

Lemma insertionSort_perm {A S : Type} (less : less_fn A S) s l l' s' :
  insertionSort less s l = Ok (l', s') → Permutation l l'.
Proof.
  unfold insertionSort.
  apply (foldl_res_perm (fun i l s => insert_down less i l s)).
  intros; by eapply insert_down_perm.
Qed.

Lemma shell_pass_perm {A S : Type} (less : less_fn A S) s l l' s' :
  shell_pass less s l = Ok (l', s') → Permutation l l'.
Proof.
  unfold shell_pass. generalize (seq 6 (length l - 6)). intros ks.
  revert l' s'. induction ks as [|i ks IH] using rev_ind; intros l' s' H.
  - simpl in H. by inversion H.
  - rewrite foldl_app in H. simpl in H.
    destruct (foldl _ _ ks) as [[l1 s1]| |] eqn:Hf; simpl in H; try discriminate.
    destruct (less s1 l1 i (i - 6)%nat) as [[b s2]| |]; simpl in H;
      try discriminate.
    inversion H; subst. etrans; [by eapply IH|].
    destruct b; [apply swap_perm|done].
Qed.

Lemma quickSort_small_perm {A S : Type} (less : less_fn A S) s s' l l' :
  quickSort_small less s l = Ok (l', s') → Permutation l l'.
Proof.
  unfold quickSort_small. destruct (1 <? length l)%nat.
  - destruct (shell_pass less s l) as [[l1 s1]| |] eqn:Hs; simpl;
      try discriminate.
    intros H. etrans; [by eapply shell_pass_perm|by eapply insertionSort_perm].
  - intros H. by inversion H.
Qed.

(** [sort.Slice] as the Go releases up to 1.18 run it on a slice of at most
    12 elements (on at most 6 elements every release runs the same
    insertion sort). *)
#[export] Instance legacy_sort : GoSort := {|
  sort_Slice := fun A S less s l => quickSort_small less s l;
  sort_Slice_perm := fun A S less s s' l l' => quickSort_small_perm less s s' l l';
|}.

(** * Properties *)

(** ** The value model *)

Lemma float64_of_int_sign (v : Z) :
  float_leb (float64_of_int v) float_zero = (v <=? 0).
Proof.
  unfold float64_of_int, float_leb, float_zero, float_cmp.
  destruct (Z.log2 (Z.abs v) + 1 <=? 53) eqn:Hn.
  - rewrite Z.min_id, Z.sub_diag, !Z.mul_1_r. simpl.
    destruct (Z.compare_spec v 0); destruct (Z.leb_spec v 0); auto; lia.
  - apply Z.leb_gt in Hn.
    set (sh := Z.log2 (Z.abs v) + 1 - 53) in *.
    assert (Hsh : 0 < sh) by (unfold sh; lia).
    assert (Ha : 0 < Z.abs v).
    { destruct (Z.eq_dec (Z.abs v) 0) as [E|E]; [|lia].
      rewrite E in Hn. simpl in Hn. lia. }
    assert (Hq : 1 <= Z.abs v / 2 ^ sh).
    { apply Z.div_le_lower_bound; [apply Z.pow_pos_nonneg; lia|].
      rewrite Z.mul_1_r.
      transitivity (2 ^ Z.log2 (Z.abs v)).
      - apply Z.pow_le_mono_r; unfold sh; lia.
      - apply Z.log2_spec; lia. }
    set (q := Z.abs v / 2 ^ sh) in *.
    set (q' := if (orb _ _) then q + 1 else q).
    assert (Hq' : 0 < q') by (unfold q'; destruct (orb _ _); lia).
    rewrite (Z.min_r sh 0) by lia.
    rewrite Z.sub_0_r, Z.sub_diag.
    assert (Hp : 0 < 2 ^ sh) by (apply Z.pow_pos_nonneg; lia).
    assert (Hm : 0 < q' * 2 ^ sh) by nia.
    rewrite <- Z.mul_assoc. change (0 * 2 ^ 0) with 0.
    destruct (Z.sgn_spec v) as [[Hv Es]|[[Hv Es]|[Hv Es]]]; rewrite Es;
      match goal with |- context [?a ?= 0] =>
        destruct (Z.compare_spec a 0) as [E|E|E] end;
      destruct (Z.leb_spec v 0); auto; exfalso; lia.
Qed.

Section ValueFacts.
Context `{L : GoLib}.

Lemma parseValStr_Ok_inv (d : ColDef) (s s' : string) :
  parseValStr d s = Ok s' →
  s' = cd_Default d ∨ s' = "0" ∨ s' = "" ∨ s' = TrimSpace s.
Proof.
  unfold parseValStr. intros Hp. repeat case_match; inversion Hp; auto.
Qed.

(** The shape of a value built for an [int] column. *)
Lemma NewValue_int (d : ColDef) (s : string) (v : Value) :
  cd_Type d = TypInt → NewValue d s = Ok v →
  ∃ i, valInt v = Some i ∧ valFloat v = Some (float64_of_int i)
       ∧ valBool v = Some (i <=? 0) ∧ def v = d.
Proof.
  intros Ht. unfold NewValue.
  destruct (parseValStr d s) as [s'| |]; simpl; try discriminate.
  rewrite Ht. simpl.
  destruct (Atoi s') as [i|]; [|discriminate].
  intros H; inversion H; subst; simpl. eauto.
Qed.

(** The shape of a value built for a [float] column. *)
Lemma NewValue_float (d : ColDef) (s : string) (v : Value) :
  cd_Type d = TypFloat → NewValue d s = Ok v →
  ∃ f, valFloat v = Some f
       ∧ valInt v = Some (int_of_float64 int_overflow f)
       ∧ valBool v = Some (int_of_float64 int_overflow f <=? 0) ∧ def v = d.
Proof.
  intros Ht. unfold NewValue.
  destruct (parseValStr d s) as [s'| |]; simpl; try discriminate.
  rewrite Ht. simpl.
  destruct (ParseFloat s') as [f|]; [|discriminate].
  intros H; inversion H; subst; simpl. eauto.
Qed.

End ValueFacts.

(** C3 (as amended). For a value built by [NewValue] for an [int] or a
    [float] column, the integer projection is at most zero exactly when
    the boolean projection is [true]; for an [int] column the float
    projection is the converted integer and is at most zero exactly when
    the boolean projection is [true]. *)
Theorem NewValue_bool_follows_int `{L : GoLib} (d : ColDef) (s : string)
    (v : Value) :
  cd_Type d = TypInt ∨ cd_Type d = TypFloat →
  NewValue d s = Ok v →
  ∃ (i : Z) (b : bool),
    ValInt v = Some i ∧ ValBool v = Some b ∧ (i <= 0 ↔ b = true) ∧
    (cd_Type d = TypInt →
     ValFloat v = Some (float64_of_int i) ∧
     (float_leb (float64_of_int i) float_zero = true ↔ b = true)).
Proof.
  intros [Ht|Ht] Hv.
  - destruct (NewValue_int d s v Ht Hv) as (i & Hi & Hf & Hb & Hd).
    exists i, (i <=? 0). unfold ValInt, ValBool, ValFloat.
    rewrite Hd, Ht, Hi, Hb, Hf. simpl.
    split; [reflexivity|]. split; [reflexivity|].
    split; [symmetry; apply Z.leb_le|].
    intros _. split; [reflexivity|]. now rewrite float64_of_int_sign.
  - destruct (NewValue_float d s v Ht Hv) as (f & Hf & Hi & Hb & Hd).
    exists (int_of_float64 int_overflow f), (int_of_float64 int_overflow f <=? 0).
    unfold ValInt, ValBool. rewrite Hd, Ht, Hi, Hb. simpl.
    split; [reflexivity|]. split; [reflexivity|].
    split; [symmetry; apply Z.leb_le|].
    intros Hx; discriminate Hx.
Qed.

Definition int_col (name : string) : ColDef :=
  MkColDef name TypInt "" false [] false.
Definition float_col (name : string) : ColDef :=
  MkColDef name TypFloat "" false [] false.
Definition str_col (name : string) : ColDef :=
  MkColDef name TypStr "" false [] false.

Lemma NewValue_bool_follows_int_witness :
  ∃ v, NewValue (L := ascii_lib) (int_col "n") " -3 " = Ok v ∧
  ∃ (i : Z) (b : bool),
    ValInt v = Some i ∧ ValBool v = Some b ∧ (i <= 0 ↔ b = true) ∧
    (cd_Type (int_col "n") = TypInt →
     ValFloat v = Some (float64_of_int i) ∧
     (float_leb (float64_of_int i) float_zero = true ↔ b = true)).
Proof.
  eexists. split; [reflexivity|].
  apply (NewValue_bool_follows_int (L := ascii_lib) (int_col "n") " -3 ");
    [left; reflexivity|reflexivity].
Defined.

(** C3 as stated fails on the float projection of a [float] column: the
    cell [0.5] has the float projection [1 * 2 ^ -1], which is above
    zero, and the boolean projection [true]. *)
Lemma NewValue_float_half_counterexample :
  ¬ (∀ (L : GoLib) (d : ColDef) (s : string) (v : Value) (f : float64)
       (b : bool),
       cd_Type d = TypInt ∨ cd_Type d = TypFloat →
       NewValue d s = Ok v →
       ValFloat v = Some f → ValBool v = Some b →
       (float_leb f float_zero = true ↔ b = true)).
Proof.
  intros H.
  specialize (H ascii_lib (float_col "x") "0.5" _ (FFin 1 (-1)) true
                (or_intror eq_refl) eq_refl eq_refl eq_refl).
  destruct H as [_ H]. specialize (H eq_refl). discriminate H.
Qed.

(** ** Argument resolution *)

(** C8. An argument with no literal, no list and no column reference
    resolves to the string form of the value in focus, and the resolution
    does not fail. *)
Theorem parseArgs_self (cell : Value) (row : Row) (arg : ParserArg) :
  pa_Value arg = "" → pa_Values arg = [] →
  pa_Col arg = "" → pa_Cols arg = [] →
  parseArgs cell row arg = Ok (AStr (ValStr cell)).
Proof.
  destruct arg as [value values col cols]. simpl.
  intros -> -> -> ->. reflexivity.
Qed.

Lemma parseArgs_self_witness :
  parseArgs (MkValue None None None (str_col "code") "aaaa-1/b")
    {[ "code" := MkValue None None None (str_col "code") "aaaa-1/b";
       "id" := MkValue None None None (str_col "id") "7" ]}
    (MkParserArg "" [] "" []) = Ok (AStr "aaaa-1/b").
Proof.
  apply (parseArgs_self (MkValue None None None (str_col "code") "aaaa-1/b")
           _ (MkParserArg "" [] "" [])); reflexivity.
Defined.

(** ** Parsers *)

Section ParserFacts.
Context `{L : GoLib} (W : World).

Lemma range_order_singleton {A : Type} (x : A) : range_order [x] = [x].
Proof.
  symmetry. apply Permutation_singleton_l. apply range_order_perm.
Qed.

Lemma builtin_ext : builtin_parsers W !! "ext" = Some (fileExtParser).
Proof. reflexivity. Qed.

(** [extParser] on the argument it reads. *)
Lemma extParser_filename (s : string) :
  extParser {[ "filename" := AStr s ]}
  = Ok (match Ext s with String "." rest => rest | e => e end).
Proof.
  unfold extParser. rewrite lookup_singleton_eq.
  destruct (Ext s) as [|c r]; [reflexivity|].
  destruct c as [[] [] [] [] [] [] [] []]; reflexivity.
Qed.

End ParserFacts.

(** C9 (the code departs from the claim). The registered parser [ext]
    declares the single argument [value], and [extParser] reads the
    argument [filename]: a configuration that passes [validateParser]
    supplies no [filename], and every argument map whose names are among
    the declared ones makes [extParser] fail; the argument name
    [filename] is refused by [validateParser]. *)
Theorem ext_declared_contract_fails `{L : GoLib} (W : World) :
  (∀ arg : ParserArg, pa_Values arg = [] →
     validateParser (builtin_parsers W)
       (MkColParser "ext" {[ "value" := arg ]}) = Ok tt) ∧
  (∀ args : FuncArgs,
     (∀ k, is_Some (args !! k) → is_Some (p_args fileExtParser !! k)) →
     extParser args = Err "filename argument not provided") ∧
  (∀ arg : ParserArg,
     validateParser (builtin_parsers W)
       (MkColParser "ext" {[ "filename" := arg ]})
     = Err "parser 'ext' does not take argument 'filename'").
Proof.
  split; [|split].
  - intros arg Hv. unfold validateParser. simpl cp_Name. rewrite builtin_ext.
    simpl cp_Args. rewrite map_to_list_singleton, range_order_singleton.
    simpl. unfold validateParserArgType. rewrite Hv. reflexivity.
  - intros args Hk. unfold extParser.
    destruct (args !! "filename") as [v|] eqn:Hf; [|reflexivity].
    destruct (Hk "filename") as [t Ht]; [by eexists|].
    simpl in Ht. rewrite lookup_singleton_ne in Ht by discriminate.
    discriminate Ht.
  - intros arg. unfold validateParser. simpl cp_Name. rewrite builtin_ext.
    simpl cp_Args. rewrite map_to_list_singleton, range_order_singleton.
    reflexivity.
Qed.

(** On the configuration of the README ([filename] from the column
    [filename]) and on the declared one ([value]). *)
Example ext_on_readme_config :
  extParser {[ "filename" := AStr "/data/report.final.pdf" ]} = Ok "pdf" ∧
  extParser {[ "filename" := AStr "/data.d/report" ]} = Ok "" ∧
  extParser {[ "value" := AStr "/data/report.final.pdf" ]}
  = Err "filename argument not provided".
Proof. repeat split; reflexivity. Qed.

(** ** [Itoa] and [Atoi] *)

Lemma append_cons (c : ascii) (r s : string) :
  String c r +:+ s = String c (r +:+ s).
Proof. reflexivity. Qed.



Lemma append_assoc (s1 s2 s3 : string) :
  (s1 +:+ s2) +:+ s3 = s1 +:+ (s2 +:+ s3).
Proof.
  induction s1 as [|c r IH]; [reflexivity|].
  rewrite !append_cons. f_equal. exact IH.
Qed.











(** ** Monadic list traversals *)

Lemma mapM_app {A B : Type} (f : A → res B) (l1 l2 : list A) :
  mapM f (l1 ++ l2)%list
  = ys1 ← mapM f l1; ys2 ← mapM f l2; Ok (ys1 ++ ys2)%list.
Proof.
  induction l1 as [|x l1 IH]; simpl.
  - destruct (mapM f l2); reflexivity.
  - destruct (f x); simpl; try reflexivity. rewrite IH.
    destruct (mapM f l1); simpl; try reflexivity.
    destruct (mapM f l2); reflexivity.
Qed.


Lemma mapM_map {A B : Type} (f : A → res B) (g : A → B) (l : list A) :
  Forall (fun x => f x = Ok (g x)) l → mapM f l = Ok (map g l).
Proof.
  induction 1 as [|x l Hx _ IH]; simpl; [reflexivity|].
  now rewrite Hx, IH.
Qed.


(** ** Rebuilding a value from its string form *)

Section Stability.
Context `{L : GoLib}.

Lemma TrimSpace_zero : TrimSpace "0" = "0".
Proof.
  apply TrimSpace_graphic. repeat constructor; unfold graphic; simpl; lia.
Qed.

Lemma parseValStr_stable (d : ColDef) (s s' : string) :
  TrimSpace (cd_Default d) = cd_Default d →
  parseValStr d s = Ok s' → parseValStr d s' = Ok s'.
Proof.
  intros Hd. unfold parseValStr. rewrite !TrimSpace_idemp.
  destruct (String.eqb_spec (TrimSpace s) "") as [He|Hne].
  - destruct (String.eqb_spec (cd_Default d) "") as [Hd0|Hd0]; simpl.
    + destruct (String.eqb_spec (cd_Type d) TypStr) as [Ht|Ht]; simpl.
      * destruct (cd_NotEmpty d) eqn:Hn; [discriminate|].
        intros H; inversion H; subst.
        rewrite !TrimSpace_empty. reflexivity.
      * intros H; inversion H; subst. rewrite TrimSpace_zero. reflexivity.
    + intros H; inversion H; subst. rewrite Hd.
      destruct (String.eqb_spec (cd_Default d) ""); [contradiction|].
      reflexivity.
  - intros H; inversion H; subst. rewrite TrimSpace_idemp.
    destruct (String.eqb_spec (TrimSpace s) ""); [contradiction|].
    reflexivity.
Qed.

Lemma NewValue_valStr (d : ColDef) (s : string) (v : Value) :
  NewValue d s = Ok v → parseValStr d s = Ok (valStr v) ∧ def v = d.
Proof.
  unfold NewValue.
  destruct (parseValStr d s) as [s'| |]; simpl; try discriminate.
  intros Hv. repeat case_match; inversion Hv; subst; simpl; auto.
Qed.

(** A value is rebuilt from its string form. *)
Lemma NewValue_stable (d : ColDef) (s : string) (v : Value) :
  TrimSpace (cd_Default d) = cd_Default d →
  NewValue d s = Ok v → NewValue d (valStr v) = Ok v.
Proof.
  intros Hd Hv. destruct (NewValue_valStr d s v Hv) as [Hp _].
  pose proof (parseValStr_stable d s _ Hd Hp) as Hp'.
  revert Hv. unfold NewValue. rewrite Hp, Hp'. simpl. auto.
Qed.


(** The hash column of [opMd5File] takes every string without white
    space at its ends. *)
Lemma NewValue_md5Col (name s : string) :
  TrimSpace s = s →
  NewValue (md5ColDef name) s = Ok (MkValue None None None (md5ColDef name) s).
Proof.
  intros Hs. unfold NewValue, parseValStr. rewrite !Hs.
  destruct (String.eqb_spec s "") as [->|_]; reflexivity.
Qed.

End Stability.

(** ** Groups *)

Definition has_cols (cs : list string) (r : Row) : Prop :=
  ∀ c, c ∈ cs → is_Some (r !! c).

(** The string form of a column of a row. *)
Definition col_str (col : string) (r : Row) : string :=
  match r !! col with Some v => ValStr v | None => "" end.






Lemma append_nil_r (s : string) : s +:+ "" = s.
Proof.
  induction s as [|c r IH]; [reflexivity|]. rewrite append_cons. now f_equal.
Qed.

Section GroupFacts.
Context `{L : GoLib}.




Lemma range_groups_NoDup_keys (m : gmap string (list Row)) :
  Permutation (range_order (map_to_list m)) (map_to_list m).
Proof. symmetry. apply range_order_perm. Qed.

End GroupFacts.

(** ** Output headers and rows *)

Section OutputFacts.
Context `{L : GoLib}.

Lemma out_header_snoc (defs : ValueDefs) (outCols : list string) (col : string) :
  out_header defs (outCols ++ [col])
  = <[length outCols := defs !! col]> (out_header defs outCols).
Proof.
  unfold out_header. rewrite imap_app, foldl_app. simpl.
  now rewrite Nat.add_0_r.
Qed.

Lemma out_header_lookup (defs : ValueDefs) (outCols : list string) (i : nat) :
  out_header defs outCols !! i
  = (fun col => defs !! col) <$> (outCols !! i).
Proof.
  induction outCols as [|col outCols IH] using rev_ind.
  - unfold out_header. simpl. now rewrite lookup_empty.
  - rewrite out_header_snoc.
    destruct (decide (i = length outCols)) as [->|Hne].
    + rewrite lookup_insert_eq, lookup_app_r by lia.
      now rewrite Nat.sub_diag.
    + rewrite lookup_insert_ne by auto. rewrite IH.
      destruct (Nat.lt_ge_cases i (length outCols)).
      * now rewrite lookup_app_l by assumption.
      * rewrite !lookup_ge_None_2; [reflexivity| |assumption].
        rewrite length_app. simpl. lia.
Qed.


Lemma NewRow_snoc (header : Header) (rec : list string) (x : string) :
  NewRow header (rec ++ [x])
  = row ← NewRow header rec;
    match header !! length rec with
    | None => Ok row
    | Some None => Panic "invalid memory address or nil pointer dereference"
    | Some (Some h) => val ← NewValue h x; Ok (<[cd_Name h := val]> row)
    end.
Proof.
  unfold NewRow. rewrite imap_app, foldl_app. simpl.
  now rewrite Nat.add_0_r.
Qed.


Lemma out_defs_Ok (header : Header) :
  (∀ i h, header !! i = Some h → is_Some h) → ∃ outDefs, out_defs header = Ok outDefs.
Proof.
  intros Hh. unfold out_defs.
  assert (Hall : Forall (fun p : nat * option ColDef => is_Some p.2)
                   (range_order (map_to_list header))).
  { rewrite <- (range_order_perm _ (map_to_list header)).
    apply Forall_forall. intros [i h] Hin.
    apply elem_of_map_to_list in Hin. simpl. eauto. }
  revert Hall. generalize (range_order (map_to_list header)). intros l.
  induction l as [|[i h] l IH] using rev_ind; intros Hall.
  - eexists. reflexivity.
  - apply Forall_app in Hall as [Hl Hx].
    inversion Hx as [|? ? [d Hd] _]; subst. simpl in Hd. subst h.
    destruct (IH Hl) as [o Ho]. rewrite foldl_app. simpl. rewrite Ho. simpl.
    eexists. reflexivity.
Qed.

Lemma out_header_entries (defs : ValueDefs) (outCols : list string) :
  (∀ col, col ∈ outCols → is_Some (defs !! col)) →
  ∀ i h, out_header defs outCols !! i = Some h → is_Some h.
Proof.
  intros Hc i h. rewrite out_header_lookup.
  destruct (outCols !! i) as [col|] eqn:Hi; simpl; [|discriminate].
  intros H; inversion H; subst. apply Hc.
  apply list_elem_of_lookup. eauto.
Qed.

End OutputFacts.

(** ** The store *)

Lemma read_fresh (l rows : list Row) :
  map (fun r : loc => default ∅ ((l ++ rows) !! r)) (seq (length l) (length rows))
  = rows.
Proof.
  revert l. induction rows as [|x rows IH]; intros l; [reflexivity|].
  simpl. f_equal.
  - rewrite lookup_app_r, Nat.sub_diag by lia. reflexivity.
  - specialize (IH (l ++ [x])).
    rewrite <- app_assoc, length_app in IH. simpl in IH.
    now rewrite Nat.add_1_r in IH.
Qed.

Lemma alloc_rows_read (σ : Store) (rows : list Row) :
  slice_rows (alloc_rows σ rows).2 (alloc_rows σ rows).1 = rows.
Proof.
  destruct rows as [|r0 rows0]; [reflexivity|].
  unfold alloc_rows, slice_rows, slice_locs, row_at. cbn [fst snd st_arrays st_rows].
  rewrite lookup_app_r, Nat.sub_diag by lia. cbn [lookup list_lookup default from_option].
  apply (read_fresh (st_rows σ) (r0 :: rows0)).
Qed.

(** ** [mergeDupes] *)


Section MergeFacts.
Context `{L : GoLib}.



End MergeFacts.






(** *** Sample data *)

Definition sval (col s : string) : Value :=
  MkValue None None None (str_col col) s.

Definition sample_store (rows : list Row) : Store :=
  MkStore rows [seq 0 (length rows)].

Definition sample_state (rows : list Row) : pstate :=
  MkPState (sample_store rows) [].

(** Membership in a literal list, case by case. *)
Ltac elem_cases H :=
  repeat (apply elem_of_cons in H as [H|H]; [try subst|]);
  try (apply elem_of_nil in H; contradiction).

Ltac solve_has_cols :=
  repeat constructor;
  let c := fresh "c" in let Hc := fresh "Hc" in
  intros c Hc; elem_cases Hc; eexists; reflexivity.

(** The group [{(x:""), (x:"v")}] of the key [a], and a second key. *)
Definition merge_sample : list Row :=
  [ {[ "k" := sval "k" "a"; "x" := sval "x" "" ]};
    {[ "k" := sval "k" "a"; "x" := sval "x" "v" ]} ].

Definition merge_defs : ValueDefs :=
  {[ "k" := str_col "k"; "x" := str_col "x" ]}.




(** ** [dupesCount] *)

Section DupesFacts.
Context `{L : GoLib}.




Lemma header_push_entries (defs : ValueDefs) (outCols : list string)
    (d : ColDef) :
  (∀ col, col ∈ outCols → is_Some (defs !! col)) →
  ∀ i h, header_push (out_header defs outCols) d !! i = Some h → is_Some h.
Proof.
  intros Hc i h. unfold header_push.
  destruct (decide (size (out_header defs outCols) = i)) as [<-|Hne].
  - rewrite lookup_insert_eq. intros H; inversion H; eauto.
  - rewrite lookup_insert_ne by exact Hne. now apply out_header_entries.
Qed.

End DupesFacts.


(** The rows [{(code:"AAA"), (code:"AAA"), (code:"BBB")}]. *)
Definition dupes_sample : list Row :=
  [ {[ "code" := sval "code" "AAA" ]};
    {[ "code" := sval "code" "AAA" ]};
    {[ "code" := sval "code" "BBB" ]} ].

Definition dupes_defs : ValueDefs := {[ "code" := str_col "code" ]}.




(** The example of the specification: one row, for [AAA], with count 2. *)
Example dupesCount_example :
  (r ← dupesCount_rows (L := ascii_lib) dupes_defs ["code"] ["code"]
         "dupes_count" 1 dupes_sample;
   Ok (map (fun row => (col_str "code" row, col_str "dupes_count" row)) r.1))
  = Ok [("AAA", "2")].
Proof. vm_compute. reflexivity. Qed.

(** The example of the specification for [mergeDupes]. *)
Example mergeDupes_example :
  (r ← mergeDupes_rows (L := ascii_lib) merge_defs ["k"] ["x"] true merge_sample;
   Ok (map (col_str "x") r.1)) = Ok ["v"] ∧
  (r ← mergeDupes_rows (L := ascii_lib) merge_defs ["k"] ["x"] false merge_sample;
   Ok (map (col_str "x") r.1)) = Ok [""].
Proof. split; vm_compute; reflexivity. Qed.

(** ** [filesMd5] *)

(** The hash of a file name as the specification words it: empty for a
    file that does not exist or cannot be read, else the hexadecimal form
    of the MD5 digest of its bytes. *)
Definition file_hash `{L : GoLib} (W : World) (filename : string) : string :=
  match os_Stat W filename with
  | StatNotExist => ""
  | _ =>
      match ReadFile W filename with
      | None => ""
      | Some cnt => EncodeToString (md5_Sum cnt)
      end
  end.

Definition lower_hex (c : ascii) : Prop :=
  In c (list_ascii_of_string "0123456789abcdef").

Lemma hex_digit_lower (n : N) : (n < 16)%N → lower_hex (hex_digit n).
Proof.
  intros Hn. unfold lower_hex.
  destruct n as [|p]; [simpl; tauto|].
  do 4 (destruct p as [p|p|]; try (simpl; tauto)); exfalso; lia.
Qed.

Lemma hex_byte_lower (b : ascii) : Forall lower_hex (hex_byte b).
Proof.
  pose proof (N_ascii_bounded b) as Hb. unfold hex_byte.
  constructor; [|constructor; [|constructor]]; apply hex_digit_lower.
  - apply N.Div0.div_lt_upper_bound. exact Hb.
  - apply N.mod_lt. discriminate.
Qed.

Lemma lower_hex_graphic (c : ascii) : lower_hex c → graphic c.
Proof.
  unfold lower_hex. simpl. intros H.
  repeat (destruct H as [<-|H]; [unfold graphic; simpl; lia|]).
  contradiction.
Qed.

Lemma EncodeToString_lower (bs : list ascii) :
  Forall lower_hex (list_ascii_of_string (EncodeToString bs)).
Proof.
  unfold EncodeToString. rewrite list_ascii_of_string_of_list_ascii.
  induction bs as [|b bs IH]; [constructor|].
  change (concat (map hex_byte (b :: bs)))
    with (hex_byte b ++ concat (map hex_byte bs)).
  apply Forall_app. split; [apply hex_byte_lower|exact IH].
Qed.

Lemma EncodeToString_length (bs : list ascii) :
  length (list_ascii_of_string (EncodeToString bs)) = (2 * length bs)%nat.
Proof.
  unfold EncodeToString. rewrite list_ascii_of_string_of_list_ascii.
  induction bs as [|b bs IH]; [reflexivity|].
  change (concat (map hex_byte (b :: bs)))
    with (hex_byte b ++ concat (map hex_byte bs)).
  rewrite length_app, IH. simpl. lia.
Qed.

Section Md5Facts.
Context `{L : GoLib}.

Lemma TrimSpace_file_hash (W : World) (f : string) :
  TrimSpace (file_hash W f) = file_hash W f.
Proof.
  unfold file_hash.
  destruct (os_Stat W f); try apply TrimSpace_empty;
    (destruct (ReadFile W f); [|apply TrimSpace_empty]);
    apply TrimSpace_graphic;
    (eapply Forall_impl; [apply EncodeToString_lower|apply lower_hex_graphic]).
Qed.

Definition hashed (W : World) (filenameCol md5Col : string) (row : Row) : Row :=
  <[md5Col := MkValue None None None (md5ColDef md5Col)
                (file_hash W (col_str filenameCol row))]> row.

Lemma md5_task_Ok (W : World) (filenameCol md5Col : string) (σ : Store)
    (r : loc) :
  has_cols [filenameCol] (row_at σ r) →
  md5_task W filenameCol md5Col σ r
  = Ok (set_row σ r (hashed W filenameCol md5Col (row_at σ r))).
Proof.
  intros Hc. destruct (Hc filenameCol) as [v Hv]; [left|].
  unfold md5_task, row_col. rewrite Hv. simpl.
  pose proof (NewValue_md5Col md5Col _ (TrimSpace_file_hash W (ValStr v))) as Hn.
  unfold file_hash in Hn. rewrite Hn.
  unfold hashed, file_hash, col_str. now rewrite Hv.
Qed.

Lemma row_at_set_row (σ : Store) (r r' : loc) (row : Row) :
  (r < length (st_rows σ))%nat →
  row_at (set_row σ r row) r' = if decide (r = r') then row else row_at σ r'.
Proof.
  intros Hr. unfold row_at, set_row. simpl.
  destruct (decide (r = r')) as [<-|Hne].
  - now rewrite list_lookup_insert_eq.
  - now rewrite list_lookup_insert_ne.
Qed.

Lemma has_cols_valid (σ : Store) (r : loc) (c : string) :
  has_cols [c] (row_at σ r) → (r < length (st_rows σ))%nat.
Proof.
  intros Hc. destruct (Hc c) as [v Hv]; [left|]. unfold row_at in Hv.
  destruct (st_rows σ !! r) as [row|] eqn:Hr.
  - by eapply lookup_lt_Some.
  - simpl in Hv. now rewrite lookup_empty in Hv.
Qed.

Lemma md5_fold (W : World) (filenameCol md5Col : string) (locs : list loc) :
  ∀ σ,
    NoDup locs →
    (∀ r, r ∈ locs → has_cols [filenameCol] (row_at σ r)) →
    ∃ σ',
      foldl (fun acc r => σ ← acc; md5_task W filenameCol md5Col σ r)
            (Ok σ) locs = Ok σ' ∧
      st_arrays σ' = st_arrays σ ∧
      (∀ r, r ∉ locs → row_at σ' r = row_at σ r) ∧
      (∀ r, r ∈ locs →
            row_at σ' r = hashed W filenameCol md5Col (row_at σ r)).
Proof.
  induction locs as [|r locs IH]; intros σ Hnd Hc.
  - exists σ. repeat split; auto. intros r Hr. inversion Hr.
  - apply NoDup_cons in Hnd as [Hr Hnd].
    assert (Hrc : has_cols [filenameCol] (row_at σ r)) by (apply Hc; left).
    pose proof (has_cols_valid σ r filenameCol Hrc) as Hlt.
    simpl. rewrite (md5_task_Ok W filenameCol md5Col σ r Hrc).
    set (σ1 := set_row σ r (hashed W filenameCol md5Col (row_at σ r))).
    assert (Hother : ∀ r', r' ≠ r → row_at σ1 r' = row_at σ r').
    { intros r' Hne. unfold σ1. rewrite row_at_set_row by exact Hlt.
      destruct (decide (r = r')); [congruence|reflexivity]. }
    destruct (IH σ1 Hnd) as (σ' & Hf & Harr & Hout & Hin).
    { intros r' Hr'. rewrite Hother; [apply Hc; now right|].
      intros ->. contradiction. }
    exists σ'. split; [exact Hf|]. split; [now rewrite Harr|]. split.
    + intros r' Hr'. apply not_elem_of_cons in Hr' as [Hne Hr'].
      rewrite Hout by exact Hr'. now apply Hother.
    + intros r' Hr'. apply elem_of_cons in Hr' as [->|Hr'].
      * rewrite Hout by exact Hr. unfold σ1.
        rewrite row_at_set_row by exact Hlt.
        destruct (decide (r = r)); [reflexivity|contradiction].
      * rewrite Hin by exact Hr'. rewrite Hother; [reflexivity|].
        intros ->. contradiction.
Qed.

End Md5Facts.

(** C4. [filesMd5] returns no error and the slice it was given; in every
    row the hash column then holds the empty string when the file named
    by the file-name column does not exist or cannot be read, and
    otherwise the lower-case hexadecimal form (32 characters) of the MD5
    digest of the bytes of the file; the other columns of the row are as
    before. *)
Theorem opMd5File_hashes `{L : GoLib} (E : Env) (st : pstate) (rows : slice)
    (defs : ValueDefs) (args : FuncArgs) (filenameCol md5Col : string)
    (outCols : list string) (threads : Z) :
  argString args "filenameCol" = Ok filenameCol →
  argString args "md5Col" = Ok md5Col →
  argSliceString args "outCols" = Ok outCols →
  argInt args "threads" = Ok threads →
  0 < threads →
  (∀ col, col ∈ outCols → is_Some (defs !! col)) →
  NoDup (slice_locs (ps_store st) rows) →
  Forall (has_cols [filenameCol]) (slice_rows (ps_store st) rows) →
  ∃ outDefs st',
    opMd5File E st rows defs args = Ok (rows, outDefs, st') ∧
    slice_locs (ps_store st') rows = slice_locs (ps_store st) rows ∧
    ∀ r, r ∈ slice_locs (ps_store st) rows →
      let W := env_fs E (ps_out st) in
      let before := row_at (ps_store st) r in
      let after := row_at (ps_store st') r in
      let filename := col_str filenameCol before in
      (∀ c, c ≠ md5Col → after !! c = before !! c) ∧
      ∃ v, after !! md5Col = Some v ∧
           (os_Stat W filename = StatNotExist → ValStr v = "") ∧
           (ReadFile W filename = None → ValStr v = "") ∧
           (∀ cnt, os_Stat W filename ≠ StatNotExist →
                   ReadFile W filename = Some cnt →
                   ValStr v = EncodeToString (md5_Sum cnt) ∧
                   Forall lower_hex (list_ascii_of_string (ValStr v)) ∧
                   length (list_ascii_of_string (ValStr v)) = 32%nat).
Proof.
  intros Hfc Hmc Hoc Hth Hpos Hdefs Hnd Hcols.
  set (σ := ps_store st) in *.
  set (W := env_fs E (ps_out st)).
  destruct (md5_fold W filenameCol md5Col (slice_locs σ rows) σ Hnd)
    as (σ' & Hfold & Harr & Hout & Hin).
  { intros r Hr. apply (proj1 (Forall_forall _ _) Hcols).
    unfold slice_rows. apply list_elem_of_fmap. eauto. }
  destruct (out_defs_Ok (header_push (out_header defs outCols) (md5ColDef md5Col)))
    as [outDefs HoutDefs].
  { now apply header_push_entries. }
  exists outDefs, (MkPState σ' (ps_out st)). split; [|split].
  - unfold opMd5File. rewrite Hfc, Hmc, Hoc, Hth. simpl. fold σ.
    set (tot := Z.of_nat (length (slice_locs σ rows))).
    assert (Htot : 0 <= tot) by (unfold tot; lia).
    destruct (Z.ltb_spec tot threads).
    + destruct (Z.ltb_spec tot 0); [lia|].
      destruct (Z.eqb_spec tot 0) as [Hz|Hz]; simpl.
      * destruct (Z.ltb_spec 0 tot); [lia|]. fold W. rewrite Hfold. simpl.
        now rewrite HoutDefs.
      * fold W. rewrite Hfold. simpl. now rewrite HoutDefs.
    + destruct (Z.ltb_spec threads 0); [lia|].
      destruct (Z.eqb_spec threads 0); [lia|]. simpl.
      fold W. rewrite Hfold. simpl. now rewrite HoutDefs.
  - simpl. unfold slice_locs. now rewrite Harr.
  - intros r Hr. simpl. rewrite (Hin r Hr). unfold hashed. split.
    + intros c Hc. now rewrite lookup_insert_ne by congruence.
    + eexists. rewrite lookup_insert_eq. split; [reflexivity|].
      fold σ. simpl. unfold file_hash. fold W.
      split; [|split].
      * intros ->. reflexivity.
      * intros ->. now destruct (os_Stat W _).
      * intros cnt Hs Hr'. rewrite Hr'.
        assert (He : match os_Stat W (col_str filenameCol (row_at σ r)) with
                     | StatNotExist => ""
                     | _ => EncodeToString (md5_Sum cnt)
                     end = EncodeToString (md5_Sum cnt))
          by (destruct (os_Stat W _); [reflexivity|contradiction|reflexivity]).
        rewrite He. split; [reflexivity|]. split.
        -- apply EncodeToString_lower.
        -- now rewrite EncodeToString_length, md5_Sum_length.
Qed.

(** A file system with the single readable file [a.txt]. *)
Definition one_file_world : World :=
  MkWorld (fun name => if (name =? "a.txt")%string then StatOk else StatNotExist)
          (fun name => if (name =? "a.txt")%string
                       then Some (list_ascii_of_string "hello")
                       else None).

Definition one_file_env : Env :=
  MkEnv (fun _ => one_file_world) (fun _ _ => true)
        (fun _ => Err "no such file").

Definition md5_sample : list Row :=
  [ {[ "file" := sval "file" "a.txt" ]};
    {[ "file" := sval "file" "missing.txt" ]} ].

Definition md5_args : FuncArgs :=
  {[ "filenameCol" := AStr "file"; "md5Col" := AStr "md5";
     "outCols" := AStrs ["file"]; "threads" := AStr "4" ]}.

Lemma opMd5File_hashes_witness :
  ∃ outDefs st',
    opMd5File (L := ascii_lib) one_file_env (sample_state md5_sample)
      (Some 0%nat) {[ "file" := str_col "file" ]} md5_args
    = Ok (Some 0%nat, outDefs, st') ∧
    slice_locs (ps_store st') (Some 0%nat)
    = slice_locs (ps_store (sample_state md5_sample)) (Some 0%nat) ∧
    ∀ r, r ∈ slice_locs (ps_store (sample_state md5_sample)) (Some 0%nat) →
      let W := env_fs one_file_env (ps_out (sample_state md5_sample)) in
      let before := row_at (ps_store (sample_state md5_sample)) r in
      let after := row_at (ps_store st') r in
      let filename := col_str "file" before in
      (∀ c, c ≠ "md5" → after !! c = before !! c) ∧
      ∃ v, after !! "md5" = Some v ∧
           (os_Stat W filename = StatNotExist → ValStr v = "") ∧
           (ReadFile W filename = None → ValStr v = "") ∧
           (∀ cnt, os_Stat W filename ≠ StatNotExist →
                   ReadFile W filename = Some cnt →
                   ValStr v = EncodeToString (md5_Sum (GoLib := ascii_lib) cnt) ∧
                   Forall lower_hex (list_ascii_of_string (ValStr v)) ∧
                   length (list_ascii_of_string (ValStr v)) = 32%nat).
Proof.
  apply (opMd5File_hashes (L := ascii_lib) one_file_env
           (sample_state md5_sample) (Some 0%nat)
           {[ "file" := str_col "file" ]} md5_args "file" "md5" ["file"] 4).
  - reflexivity.
  - reflexivity.
  - reflexivity.
  - reflexivity.
  - lia.
  - intros col Hcol. elem_cases Hcol. eexists. reflexivity.
  - apply NoDup_seq.
  - solve_has_cols.
Defined.

(** The two rows after the operation: a hash for the file that is there,
    the empty string for the one that is not. *)
Example opMd5File_example :
  (r ← opMd5File (L := ascii_lib) one_file_env (sample_state md5_sample)
         (Some 0%nat) {[ "file" := str_col "file" ]} md5_args;
   Ok (map (fun row => String.length (col_str "md5" row))
         (slice_rows (ps_store r.2) r.1.1)))
  = Ok [32%nat; 0%nat].
Proof. vm_compute. reflexivity. Qed.

(** ** [sort] *)

Definition sort_args (cols order : list string) : FuncArgs :=
  {[ "cols" := AStrs cols; "order" := AStrs order ]}.

(** The column [a] of the rows a slice holds after a run. *)
Definition column_after (col : string)
    (r : res (slice * ValueDefs * pstate)) (rows : slice) : res (list string) :=
  x ← r; Ok (map (col_str col) (slice_rows (ps_store x.2) rows)).

Definition ab_row (a b : string) : Row :=
  {[ "a" := sval "a" a; "b" := sval "b" b ]}.

Definition ab_defs : ValueDefs := {[ "a" := str_col "a"; "b" := str_col "b" ]}.

Section SortLess.
Context `{L : GoLib}.

(** The closure fails on every row position that is not a position of
    [order], whatever the column says. *)
Lemma sort_less_row_position (rowsσ : list Row) (defs : ValueDefs)
    (col : string) (cols order : list string) (d : ColDef)
    (arr : list loc) (i j : nat) :
  defs !! col = Some d → cd_Type d = TypStr →
  (0 < length order ≤ i)%nat →
  sort_less rowsσ defs (col :: cols) order arr i j
  = Panic "index out of range".
Proof.
  intros Hd Ht [Hpos Hi]. unfold sort_less. simpl.
  destruct order as [|o order']; [simpl in Hpos; lia|]. simpl.
  rewrite Hd, Ht. simpl. unfold index_str.
  destruct (negb (o =? "desc")%string && negb (o =? "asc")%string).
  - now rewrite (lookup_ge_None_2 ("asc" :: order') i) by exact Hi.
  - now rewrite (lookup_ge_None_2 (o :: order') i) by exact Hi.
Qed.

End SortLess.

(** C7 (the code departs from the claim). The closure of [opSort] reads
    the direction at [order[i]] with [i] the position of the row, not the
    position of the column. On the rows [(a:2, b:1), (a:1, b:1)] sorted on
    [a] ascending and [b] descending, the column [a] is compared under the
    direction of [b] and the rows stay in the order [2, 1]; sorted on [a]
    alone, the closure indexes [order] out of range and the call panics.
    With the directions placed where the closure reads them the same rows
    are put in ascending order. *)
Theorem opSort_direction_by_row_position :
  column_after "a"
    (opSort (GS := legacy_sort)
       (sample_state [ab_row "2" "1"; ab_row "1" "1"]) (Some 0%nat)
       ab_defs (sort_args ["a"; "b"] ["asc"; "desc"])) (Some 0%nat)
  = Ok ["2"; "1"] ∧
  opSort (GS := legacy_sort)
    (sample_state [ab_row "2" "1"; ab_row "1" "1"]) (Some 0%nat)
    ab_defs (sort_args ["a"] ["asc"])
  = Panic "index out of range" ∧
  column_after "a"
    (opSort (GS := legacy_sort)
       (sample_state [ab_row "2" "1"; ab_row "1" "1"]) (Some 0%nat)
       ab_defs (sort_args ["a"; "b"] ["desc"; "asc"])) (Some 0%nat)
  = Ok ["1"; "2"].
Proof. repeat split; vm_compute; reflexivity. Qed.

(** *** Relative order *)

(** [x] stands before [y] in [l]. *)
Definition precedes {A : Type} (l : list A) (x y : A) : Prop :=
  ∃ i j : nat, l !! i = Some x ∧ l !! j = Some y ∧ (i < j)%nat.

Lemma swap_lookup {A : Type} (l : list A) (i j k : nat) (x y : A) :
  l !! i = Some x → l !! j = Some y →
  swap l i j !! k
  = if decide (k = j) then Some x else if decide (k = i) then Some y else l !! k.
Proof.
  intros Hi Hj. unfold swap. rewrite Hi, Hj.
  pose proof (lookup_lt_Some _ _ _ Hi). pose proof (lookup_lt_Some _ _ _ Hj).
  destruct (decide (k = j)) as [->|Hkj].
  - rewrite list_lookup_insert_eq; [reflexivity|now rewrite length_insert].
  - rewrite list_lookup_insert_ne by congruence.
    destruct (decide (k = i)) as [->|Hki].
    + now rewrite list_lookup_insert_eq.
    + now rewrite list_lookup_insert_ne by congruence.
Qed.

(** Exchanging two neighbours keeps every other pair in order. *)
Lemma swap_adjacent_precedes {A : Type} (l : list A) (j : nat) (a b x y : A) :
  l !! j = Some a → l !! S j = Some b →
  precedes l x y → ¬ (x = a ∧ y = b) →
  precedes (swap l (S j) j) x y.
Proof.
  intros Ha Hb (ix & iy & Hx & Hy & Hlt) Hne.
  set (τ := fun k => if decide (k = j) then S j
                     else if decide (k = S j) then j else k).
  assert (Hτ : ∀ k, swap l (S j) j !! (τ k) = l !! k).
  { intros k. rewrite (swap_lookup l (S j) j (τ k) b a Hb Ha). unfold τ.
    repeat case_decide; subst; try lia; congruence. }
  exists (τ ix), (τ iy). rewrite !Hτ. split; [exact Hx|]. split; [exact Hy|].
  unfold τ. repeat case_decide; subst; try lia.
  exfalso. apply Hne. split; congruence.
Qed.

Section StableInsertion.
Context {A S : Type} (less : less_fn A S) (eqv : A → A → Prop).
Hypothesis eqv_sym : ∀ x y, eqv x y → eqv y x.
Hypothesis less_eqv :
  ∀ s l i j x y b s',
    l !! i = Some x → l !! j = Some y → eqv x y →
    less s l i j = Ok (b, s') → b = false.

Lemma insert_down_stable (j : nat) :
  ∀ l s l' s' x y,
    insert_down less j l s = Ok (l', s') →
    precedes l x y → eqv x y → precedes l' x y.
Proof.
  induction j as [|j IH]; intros l s l' s' x y Hrun Hp He.
  - simpl in Hrun. now inversion Hrun; subst.
  - simpl in Hrun.
    destruct (less s l (Datatypes.S j) j) as [[b s1]| |] eqn:Hl;
      simpl in Hrun; try discriminate.
    destruct b; [|now inversion Hrun; subst].
    destruct (l !! Datatypes.S j) as [vb|] eqn:Hb;
      [|unfold swap in Hrun; rewrite Hb in Hrun; eapply IH; eauto].
    destruct (l !! j) as [va|] eqn:Ha;
      [|apply lookup_lt_Some in Hb; apply lookup_ge_None in Ha; lia].
    eapply IH; [exact Hrun| |exact He].
    apply (swap_adjacent_precedes l j va vb x y Ha Hb Hp).
    intros [-> ->].
    pose proof (less_eqv s l (Datatypes.S j) j vb va true s1 Hb Ha
                  (eqv_sym _ _ He) Hl).
    discriminate.
Qed.

(** Insertion sort keeps equivalent elements in their order. *)
Lemma insertionSort_stable (l : list A) (s : S) (l' : list A) (s' : S)
    (x y : A) :
  insertionSort less s l = Ok (l', s') →
  precedes l x y → eqv x y → precedes l' x y.
Proof.
  unfold insertionSort. generalize (seq 1 (length l - 1)). intros ks.
  revert l' s'. induction ks as [|k ks IH] using rev_ind; intros l' s' Hrun Hp He.
  - simpl in Hrun. now inversion Hrun; subst.
  - rewrite foldl_app in Hrun. simpl in Hrun.
    destruct (foldl _ _ ks) as [[l1 s1]| |] eqn:Hf; simpl in Hrun;
      try discriminate.
    eapply insert_down_stable; [exact Hrun| |exact He].
    eapply IH; eauto.
Qed.

End StableInsertion.

(** Two rows agree on every sort column. *)
Definition same_keys (rowsσ : list Row) (cols : list string) (x y : loc) : Prop :=
  ∀ col, col ∈ cols →
    (default ∅ (rowsσ !! x) : Row) !! col = (default ∅ (rowsσ !! y) : Row) !! col.

Lemma float_ltb_irrefl (f : float64) : float_ltb f f = false.
Proof.
  unfold float_ltb, float_cmp. destruct f as [|[]|m e]; try reflexivity.
  now rewrite Z.compare_refl.
Qed.

Lemma float_gtb_irrefl (f : float64) : float_gtb f f = false.
Proof.
  unfold float_gtb, float_cmp. destruct f as [|[]|m e]; try reflexivity.
  now rewrite Z.compare_refl.
Qed.

Lemma string_compare_refl (s : string) : String.compare s s = Eq.
Proof.
  induction s as [|c r IH]; simpl; [reflexivity|].
  unfold Ascii.compare. now rewrite N.compare_refl.
Qed.

Lemma string_ltb_irrefl (s : string) : String.ltb s s = false.
Proof. unfold String.ltb. now rewrite string_compare_refl. Qed.

Lemma cmp_dir_false (o : string) : cmp_dir o false false = None.
Proof. unfold cmp_dir. now repeat case_match. Qed.

Section SortStable.
Context `{L : GoLib}.

(** On two rows that agree on every sort column the closure answers
    [false] when it answers. *)
Lemma sort_less_same_keys (rowsσ : list Row) (defs : ValueDefs)
    (arr : list loc) (i j : nat) (x y : loc) (cols : list string) :
  arr !! i = Some x → arr !! j = Some y →
  ∀ (colI : nat) (order : list string) (b : bool) (order' : list string),
    same_keys rowsσ cols x y →
    sort_less_loop rowsσ defs arr i j colI cols order = Ok (b, order') →
    b = false.
Proof.
  intros Hi Hj. induction cols as [|col cols IH];
    intros colI order b order' Hk Hrun.
  - simpl in Hrun. now inversion Hrun.
  - simpl in Hrun. rewrite Hi, Hj in Hrun. simpl in Hrun.
    assert (Hcol : (default ∅ (rowsσ !! x) : Row) !! col
                   = (default ∅ (rowsσ !! y) : Row) !! col)
      by (apply Hk; left).
    assert (Hk' : same_keys rowsσ cols x y)
      by (intros c Hc; apply Hk; now right).
    destruct (index_str order colI) as [o| |]; simpl in Hrun;
      try discriminate.
    destruct (defs !! col) as [colDef|]; [|discriminate].
    match type of Hrun with
    | (?r ≫= _) = _ =>
        assert (Hr : r = Ok None ∨ ¬ is_Ok r); [|destruct Hr as [Hr|Hr]]
    end.
    { unfold row_col, deref_ValFloat. rewrite Hcol.
      match goal with |- context [index_str ?o i] => generalize o end.
      intros ord.
      assert (Hstep : ∀ (body : string → res (option bool)),
                (∀ oi, body oi = Ok None ∨ ¬ is_Ok (body oi)) →
                (index_str ord i ≫= body) = Ok None
                ∨ ¬ is_Ok (index_str ord i ≫= body)).
      { intros body Hb. destruct (index_str ord i) as [oi| |]; simpl;
          [apply Hb| |]; right; intros [? ?]; discriminate. }
      destruct (cd_Type colDef =? TypStr)%string;
        [|destruct ((cd_Type colDef =? TypFloat)%string
                    || (cd_Type colDef =? TypInt)%string);
          [|left; reflexivity]];
        apply Hstep; intros oi;
        (destruct ((oi =? "asc")%string || (oi =? "desc")%string);
         [|left; reflexivity]);
        (destruct (default ∅ (rowsσ !! y) !! col) as [v|]; simpl;
         [|right; intros [? ?]; discriminate]).
      - rewrite string_ltb_irrefl, cmp_dir_false. now left.
      - destruct (ValFloat v) as [f|]; simpl;
          [|right; intros [? ?]; discriminate].
        rewrite float_ltb_irrefl, float_gtb_irrefl, cmp_dir_false.
        now left. }
    + rewrite Hr in Hrun. simpl in Hrun. eapply IH; eauto.
    + exfalso. apply Hr.
      match type of Hrun with
      | (?r ≫= _) = _ => destruct r; simpl in Hrun; try discriminate
      end.
      eexists; reflexivity.
Qed.

End SortStable.

Lemma slice_locs_set_array (σ : Store) (rows : slice) (arr : list loc) :
  Permutation (slice_locs σ rows) arr →
  slice_locs (set_array σ rows arr) rows = arr.
Proof.
  destruct rows as [a|]; simpl.
  - destruct (st_arrays σ !! a) as [l|] eqn:Ha; simpl; intros Hp.
    + rewrite list_lookup_insert_eq; [reflexivity|by eapply lookup_lt_Some].
    + apply Permutation_nil_l in Hp. subst.
      rewrite list_insert_ge by (now apply lookup_ge_None in Ha).
      now rewrite Ha.
  - intros Hp. now apply Permutation_nil_l in Hp.
Qed.

Lemma opSort_inv `{GS : GoSort} (st : pstate) (rows : slice)
    (defs : ValueDefs) (args : FuncArgs) (out : slice) (outDefs : ValueDefs)
    (st' : pstate) :
  opSort st rows defs args = Ok (out, outDefs, st') →
  ∃ cols order arr order',
    args !! "cols" = Some (AStrs cols) ∧
    sort_Slice (sort_less (st_rows (ps_store st)) defs cols) order
      (slice_locs (ps_store st) rows) = Ok (arr, order') ∧
    out = None ∧ outDefs = ∅ ∧
    st' = MkPState (set_array (ps_store st) rows arr) (ps_out st).
Proof.
  unfold opSort. intros H.
  destruct (args !! "cols") as [colsI|]; [|discriminate].
  destruct colsI as [|? |cols| | |]; simpl in H; try discriminate.
  destruct (args !! "order") as [orderI|]; [|discriminate].
  destruct orderI as [|? |order| | |]; simpl in H; try discriminate.
  destruct (negb _); [discriminate|].
  destruct (sort_Slice _ _ _) as [[arr order']| |] eqn:Hs; simpl in H;
    try discriminate.
  inversion H; subst. exists cols, order, arr, order'. auto.
Qed.

(** C2 (as amended). [sort] leaves in the slice a permutation of the rows
    it held and changes no row; when [sort.Slice] runs as the insertion
    sort (its path for a slice of at most 6 rows), two rows that agree on
    every sort column keep their relative order. *)
Theorem opSort_permutes_and_insertion_stable `{GS : GoSort}
    (st : pstate) (rows : slice) (defs : ValueDefs) (args : FuncArgs)
    (out : slice) (outDefs : ValueDefs) (st' : pstate) :
  opSort st rows defs args = Ok (out, outDefs, st') →
  Permutation (slice_locs (ps_store st) rows) (slice_locs (ps_store st') rows) ∧
  st_rows (ps_store st') = st_rows (ps_store st) ∧
  ((∀ (less : less_fn loc (list string)) s l,
       (length l ≤ 6)%nat → sort_Slice less s l = insertionSort less s l) →
   (length (slice_locs (ps_store st) rows) ≤ 6)%nat →
   ∀ cols x y,
     args !! "cols" = Some (AStrs cols) →
     precedes (slice_locs (ps_store st) rows) x y →
     same_keys (st_rows (ps_store st)) cols x y →
     precedes (slice_locs (ps_store st') rows) x y).
Proof.
  intros H.
  destruct (opSort_inv st rows defs args out outDefs st' H)
    as (cols & order & arr & order' & Hc & Hs & -> & -> & ->).
  pose proof (sort_Slice_perm _ _ _ _ _ _ _ Hs) as Hperm.
  simpl ps_store. rewrite (slice_locs_set_array _ _ _ Hperm).
  split; [exact Hperm|]. split; [now destruct rows|].
  intros Hins Hlen cols' x y Hc' Hp Hk.
  rewrite Hc in Hc'. inversion Hc'; subst cols'.
  rewrite Hins in Hs by exact Hlen.
  eapply (insertionSort_stable _ (same_keys (st_rows (ps_store st)) cols));
    [| |exact Hs|exact Hp|exact Hk].
  - intros a b Hab col Hcol. symmetry. now apply Hab.
  - intros s l i j a b bb s' Hi Hj Hab Hl.
    unfold sort_less in Hl.
    eapply sort_less_same_keys; [exact Hi|exact Hj|exact Hab|exact Hl].
Qed.

Lemma legacy_sort_small {A S : Type} (less : less_fn A S) (s : S) (l : list A) :
  (length l ≤ 6)%nat →
  sort_Slice (GoSort := legacy_sort) less s l = insertionSort less s l.
Proof.
  intros Hl. simpl. unfold quickSort_small, shell_pass.
  replace (length l - 6)%nat with 0%nat by lia. simpl.
  destruct (Nat.ltb_spec 1 (length l)); [reflexivity|].
  unfold insertionSort. destruct l as [|a [|b l']]; simpl in *; try reflexivity.
  lia.
Qed.

Lemma opSort_permutes_and_insertion_stable_witness :
  let st := sample_state [ab_row "1" "x"; ab_row "1" "y"] in
  let st' := MkPState (sample_store [ab_row "1" "x"; ab_row "1" "y"]) [] in
  Permutation (slice_locs (ps_store st) (Some 0%nat))
    (slice_locs (ps_store st') (Some 0%nat)) ∧
  st_rows (ps_store st') = st_rows (ps_store st) ∧
  ((∀ (less : less_fn loc (list string)) s l,
       (length l ≤ 6)%nat →
       sort_Slice (GoSort := legacy_sort) less s l = insertionSort less s l) →
   (length (slice_locs (ps_store st) (Some 0%nat)) ≤ 6)%nat →
   ∀ cols x y,
     sort_args ["a"; "a"] ["asc"; "asc"] !! "cols" = Some (AStrs cols) →
     precedes (slice_locs (ps_store st) (Some 0%nat)) x y →
     same_keys (st_rows (ps_store st)) cols x y →
     precedes (slice_locs (ps_store st') (Some 0%nat)) x y).
Proof.
  apply (opSort_permutes_and_insertion_stable (GS := legacy_sort)
           (sample_state [ab_row "1" "x"; ab_row "1" "y"]) (Some 0%nat)
           ab_defs (sort_args ["a"; "a"] ["asc"; "asc"]) None ∅).
  vm_compute. reflexivity.
Defined.

(** Seven rows; the first six have the key [2], the last has the key [1]. *)
Definition k_row (k id : string) : Row :=
  {[ "k" := sval "k" k; "id" := sval "id" id ]}.

Definition seven_rows : list Row :=
  [k_row "2" "r0"; k_row "2" "r1"; k_row "2" "r2"; k_row "2" "r3";
   k_row "2" "r4"; k_row "2" "r5"; k_row "1" "r6"].

Definition k_defs : ValueDefs := {[ "k" := str_col "k"; "id" := str_col "id" ]}.

Definition seven_args : FuncArgs :=
  sort_args (replicate 7 "k") (replicate 7 "asc").

(** On seven rows the pass that compares the rows six apart moves the
    last row to the front and the first row to the back, behind the rows
    of its own key. *)
Example opSort_seven_rows :
  column_after "id"
    (opSort (GS := legacy_sort) (sample_state seven_rows)
       (Some 0%nat) k_defs seven_args) (Some 0%nat)
  = Ok ["r6"; "r1"; "r2"; "r3"; "r4"; "r5"; "r0"].
Proof. vm_compute. reflexivity. Qed.

(** C2 as stated fails: the rows [r0] and [r1] agree on the sort column
    and change places. *)
Lemma opSort_not_stable_counterexample :
  ¬ (∀ (GS : GoSort) (st : pstate) (rows : slice)
       (defs : ValueDefs) (args : FuncArgs) (cols : list string)
       (out : slice) (outDefs : ValueDefs) (st' : pstate) (x y : loc),
       opSort st rows defs args = Ok (out, outDefs, st') →
       args !! "cols" = Some (AStrs cols) →
       precedes (slice_locs (ps_store st) rows) x y →
       same_keys (st_rows (ps_store st)) cols x y →
       precedes (slice_locs (ps_store st') rows) x y).
Proof.
  intros H.
  specialize (H legacy_sort (sample_state seven_rows) (Some 0%nat)
                k_defs seven_args (replicate 7 "k") None ∅
                (MkPState (MkStore seven_rows [[6; 1; 2; 3; 4; 5; 0]%nat]) [])
                0%nat 1%nat).
  assert (Hp : precedes [6; 1; 2; 3; 4; 5; 0]%nat 0%nat 1%nat).
  { apply H.
    - vm_compute. reflexivity.
    - reflexivity.
    - exists 0%nat, 1%nat. repeat split. lia.
    - intros col Hcol. unfold seven_args in Hcol. simpl in Hcol.
      elem_cases Hcol; reflexivity. }
  destruct Hp as (i & j & Hi & Hj & Hlt).
  do 8 (try (destruct i as [|i]; try discriminate Hi)).
  do 8 (try (destruct j as [|j]; try discriminate Hj)); lia.
Qed.

(** ** The pipeline *)

(** A row keeps its columns. *)
Definition row_incl (r r' : Row) : Prop :=
  ∀ c, is_Some (r !! c) → is_Some (r' !! c).

(** What an operation may do to the store: rows are added and rows get
    new or rewritten cells, never fewer columns; slices are added and the
    rows of a slice are reordered. *)
Definition store_le (σ σ' : Store) : Prop :=
  (∀ r, row_incl (row_at σ r) (row_at σ' r)) ∧
  (∀ a l, st_arrays σ !! a = Some l →
          ∃ l', st_arrays σ' !! a = Some l' ∧ Permutation l l').

Lemma store_le_refl (σ : Store) : store_le σ σ.
Proof. split; [intros r c H; exact H|]. intros a l H. eauto. Qed.

Lemma store_le_trans (σ1 σ2 σ3 : Store) :
  store_le σ1 σ2 → store_le σ2 σ3 → store_le σ1 σ3.
Proof.
  intros [R1 A1] [R2 A2]. split.
  - intros r c H. apply R2, R1, H.
  - intros a l H. destruct (A1 a l H) as (l' & H' & P1).
    destruct (A2 a l' H') as (l'' & H'' & P2).
    exists l''. split; [exact H''|]. etrans; eauto.
Qed.

Lemma row_at_app_l (rows extra : list Row) (arrs arrs' : list (list loc)) (r : loc) :
  row_incl (row_at (MkStore rows arrs) r) (row_at (MkStore (rows ++ extra) arrs') r).
Proof.
  unfold row_at. simpl. intros c H.
  destruct (rows !! r) as [row|] eqn:Hr.
  - now rewrite (lookup_app_l_Some _ _ _ _ Hr).
  - simpl in H. rewrite lookup_empty in H. now destruct H.
Qed.

Lemma alloc_rows_le (σ : Store) (rows : list Row) :
  store_le σ (alloc_rows σ rows).2.
Proof.
  destruct rows as [|r0 rows0]; [apply store_le_refl|].
  destruct σ as [rs arrs]. unfold alloc_rows. cbn [snd st_rows st_arrays].
  split.
  - intros r. apply row_at_app_l.
  - intros a l H. exists l. split; [|reflexivity].
    cbn [st_arrays] in *. now apply lookup_app_l_Some.
Qed.

Lemma set_array_le (σ : Store) (rows : slice) (arr : list loc) :
  Permutation (slice_locs σ rows) arr → store_le σ (set_array σ rows arr).
Proof.
  intros Hp. destruct rows as [a|]; [|apply store_le_refl].
  split; [intros r c H; exact H|].
  intros a' l H. simpl. destruct (decide (a = a')) as [<-|Hne].
  - exists arr. simpl in Hp. rewrite H in Hp. simpl in Hp. split; [|exact Hp].
    apply list_lookup_insert_eq. by eapply lookup_lt_Some.
  - exists l. split; [|reflexivity]. now rewrite list_lookup_insert_ne.
Qed.

Lemma set_row_le (σ : Store) (r : loc) (row : Row) :
  row_incl (row_at σ r) row → store_le σ (set_row σ r row).
Proof.
  intros Hi. split; [|intros a l H; exists l; split; [exact H|reflexivity]].
  intros r'. unfold row_at, set_row. simpl.
  destruct (decide (r = r')) as [<-|Hne].
  - destruct (st_rows σ !! r) as [row0|] eqn:Hr.
    + rewrite list_lookup_insert_eq by (by eapply lookup_lt_Some).
      unfold row_at in Hi. rewrite Hr in Hi. exact Hi.
    + intros c H. simpl in H. rewrite lookup_empty in H. now destruct H.
  - rewrite list_lookup_insert_ne by exact Hne. intros c H; exact H.
Qed.

(** One step through a successful run of binds and case distinctions. *)
Ltac res_steps H :=
  repeat (simpl in H;
          match type of H with
          | (?r ≫= _) = Ok _ =>
              let x := fresh "x" in
              destruct r as [x| |] eqn:?; simpl in H; [|discriminate H ..]
          | (match ?r with _ => _ end) = Ok _ =>
              destruct r eqn:?; try discriminate H
          end).

Section PipelineFacts.
Context `{L : GoLib} `{GS : GoSort} (E : Env).

Lemma md5_task_le (W : World) (filenameCol md5Col : string) (σ σ' : Store)
    (r : loc) :
  md5_task W filenameCol md5Col σ r = Ok σ' → store_le σ σ'.
Proof.
  unfold md5_task. destruct (row_col _ _) as [v| |]; simpl; try discriminate.
  destruct (NewValue _ _) as [val| |]; intros H; inversion H; subst;
    try apply store_le_refl.
  apply set_row_le. intros c Hc.
  destruct (decide (md5Col = c)) as [<-|Hne].
  - rewrite lookup_insert_eq. eauto.
  - now rewrite lookup_insert_ne.
Qed.

Lemma md5_fold_le (W : World) (filenameCol md5Col : string) (locs : list loc) :
  ∀ σ σ',
    foldl (fun acc r => σ ← acc; md5_task W filenameCol md5Col σ r)
          (Ok σ) locs = Ok σ' →
    store_le σ σ'.
Proof.
  induction locs as [|r locs IH] using rev_ind; intros σ σ' H.
  - simpl in H. inversion H. apply store_le_refl.
  - rewrite foldl_app in H. simpl in H.
    destruct (foldl _ _ locs) as [σ1| |] eqn:Hf; simpl in H; try discriminate.
    eapply store_le_trans; [eapply IH; exact Hf|eapply md5_task_le; exact H].
Qed.

(** Every built-in operation extends the store. *)
Lemma operations_le (name : string) (operation : Operation) (st : pstate)
    (rows : slice) (defs : ValueDefs) (args : FuncArgs) (out : slice)
    (outDefs : ValueDefs) (st' : pstate) :
  operations E !! name = Some operation →
  op_OpFunc operation st rows defs args = Ok (out, outDefs, st') →
  store_le (ps_store st) (ps_store st').
Proof.
  intros Hop Hrun. unfold operations in Hop.
  apply elem_of_list_to_map_2 in Hop. simpl in Hop.
  elem_cases Hop; inversion Hop; subst; simpl in Hrun.
  - (* print *)
    unfold opPrint in Hrun. res_steps Hrun.
    inversion Hrun; subst. apply store_le_refl.
  - (* toFile *)
    unfold opToFile in Hrun. res_steps Hrun.
    inversion Hrun; subst. apply store_le_refl.
  - (* sort *)
    destruct (opSort_inv st rows defs args out outDefs st' Hrun)
      as (cols & order & arr & order' & _ & Hs & _ & _ & ->).
    apply set_array_le. eapply sort_Slice_perm; exact Hs.
  - (* dupesCount *)
    unfold opDupesCount in Hrun. res_steps Hrun.
    inversion Hrun; subst.
    match goal with
    | H : alloc_rows ?σ ?rs = (_, ?σ') |- _ =>
        pose proof (alloc_rows_le σ rs) as Hle; rewrite H in Hle
    end.
    exact Hle.
  - (* findDuplicates *)
    unfold opFindDuplicates in Hrun. res_steps Hrun.
    inversion Hrun; subst.
    match goal with
    | H : alloc_rows ?σ ?rs = (_, ?σ') |- _ =>
        pose proof (alloc_rows_le σ rs) as Hle; rewrite H in Hle
    end.
    exact Hle.
  - (* mergeDupes *)
    unfold opMergeDupes in Hrun. res_steps Hrun.
    inversion Hrun; subst.
    match goal with
    | H : alloc_rows ?σ ?rs = (_, ?σ') |- _ =>
        pose proof (alloc_rows_le σ rs) as Hle; rewrite H in Hle
    end.
    exact Hle.
  - (* filesMd5 *)
    unfold opMd5File in Hrun. res_steps Hrun.
    inversion Hrun; subst. simpl.
    match goal with
    | H : foldl _ _ _ = Ok _ |- _ => eapply md5_fold_le; exact H
    end.
Qed.

End PipelineFacts.

Lemma store_le_slice (σ0 σ : Store) (sl : slice) :
  store_le σ0 σ →
  (∀ a, sl = Some a → is_Some (st_arrays σ0 !! a)) →
  ∃ rows', Permutation rows' (slice_rows σ sl) ∧
           Forall2 row_incl (slice_rows σ0 sl) rows'.
Proof.
  intros [HR HA] Hv. destruct sl as [a|].
  - destruct (Hv a eq_refl) as [l Hl].
    destruct (HA a l Hl) as (l' & Hl' & Hp).
    exists (map (row_at σ) l). unfold slice_rows, slice_locs.
    rewrite Hl, Hl'. simpl. split.
    + now apply Permutation_map.
    + apply Forall2_fmap, Forall_Forall2_diag, Forall_forall.
      intros r _. apply HR.
  - exists []. split; [reflexivity|constructor].
Qed.

Lemma base_state_slice (defs : ValueDefs) (rows : list Row) :
  slice_rows (ps_store (base_state defs rows).2) (os_Rows (base_state defs rows).1)
  = rows ∧
  os_Defs (base_state defs rows).1 = defs ∧
  ∀ a, os_Rows (base_state defs rows).1 = Some a →
       is_Some (st_arrays (ps_store (base_state defs rows).2) !! a).
Proof.
  unfold base_state.
  pose proof (alloc_rows_read empty_store rows) as Hr.
  destruct rows as [|r0 rows0]; simpl in *.
  - repeat split. intros a H. discriminate H.
  - split; [exact Hr|]. split; [reflexivity|].
    intros a H. inversion H; subst. simpl. eauto.
Qed.

Section RunOps.
Context `{L : GoLib} `{GS : GoSort} (E : Env).

Lemma select_state_default (originalState : OpState)
    (states : gmap string OpState) (op : OperationConf) :
  oc_FromState op = "" → select_state originalState states op = Ok originalState.
Proof. intros H. unfold select_state. now rewrite H. Qed.

Lemma select_state_inv (originalState state : OpState)
    (states : gmap string OpState) (op : OperationConf) :
  select_state originalState states op = Ok state →
  (oc_FromState op = "" ∧ state = originalState) ∨
  (oc_FromState op ≠ "" ∧ states !! oc_FromState op = Some state).
Proof.
  unfold select_state.
  destruct (String.eqb_spec (oc_FromState op) "") as [He|Hne]; simpl.
  - intros H; inversion H; auto.
  - destruct (states !! oc_FromState op); intros H; inversion H; auto.
Qed.

(** The calls of the loop, one per operation and in order; each sees
    its state through a store that extends the one the loop started
    with, and a call without [fromState] is given the base state. *)
Lemma run_ops_trace (originalState : OpState) (ops : list OperationConf) :
  ∀ (opi : nat) (states : gmap string OpState) (st : pstate)
    (trace : list invocation) (st' : pstate) (trace' : list invocation),
    run_ops E originalState opi ops states st trace = Ok (st', trace') →
    store_le (ps_store st) (ps_store st') ∧
    ∃ new,
      trace' = trace ++ new ∧ map inv_op new = ops ∧
      Forall (fun inv =>
                (oc_FromState (inv_op inv) = "" →
                 inv_state inv = originalState) ∧
                ∃ σ, store_le (ps_store st) σ ∧
                     inv_rows inv = slice_rows σ (os_Rows (inv_state inv)))
             new.
Proof.
  induction ops as [|op ops IH]; intros opi states st trace st' trace' Hrun.
  - simpl in Hrun. inversion Hrun; subst. split; [apply store_le_refl|].
    exists []. rewrite app_nil_r. repeat split. constructor.
  - simpl in Hrun.
    destruct (operations E !! oc_Operation op) as [operation|] eqn:Hop;
      [|discriminate].
    destruct (op_args operation op) as [opFuncArgs| |]; simpl in Hrun;
      try discriminate.
    destruct (select_state originalState _ op) as [state| |] eqn:Hsel;
      simpl in Hrun; try discriminate.
    destruct (op_OpFunc operation st (os_Rows state) (os_Defs state) opFuncArgs)
      as [[[outRows outDefs] st1]| |] eqn:Hexec; simpl in Hrun;
      try discriminate.
    pose proof (operations_le E _ _ _ _ _ _ _ _ _ Hop Hexec) as Hle1.
    destruct (IH _ _ _ _ _ _ Hrun) as (Hle2 & new & -> & Hops & Hall).
    split; [by eapply store_le_trans|].
    eexists (_ :: new). rewrite <- app_assoc. split; [reflexivity|].
    split; [simpl; now rewrite Hops|].
    constructor.
    + simpl. split.
      * intros Hfs. apply select_state_inv in Hsel as [[_ ->]|[Hne _]];
          [reflexivity|contradiction].
      * exists (ps_store st). split; [apply store_le_refl|reflexivity].
    + eapply Forall_impl; [exact Hall|]. intros inv [H1 (σ & Hσ & Hrows)].
      split; [exact H1|]. exists σ. split; [|exact Hrows].
      by eapply store_le_trans.
Qed.

Variable parsers : gmap string Parser.

Lemma ReadCsv_inv (filePath : string) (defs : ValueDefs)
    (ops : list OperationConf) (sl : slice) (st' : pstate)
    (trace : list invocation) :
  ReadCsv E parsers filePath defs ops = Ok (sl, st', trace) →
  ∃ records rows,
    env_open_csv E filePath = Ok (records, None) ∧
    build_rows parsers defs records = Ok rows ∧
    sl = os_Rows (base_state defs rows).1 ∧
    run_ops E (base_state defs rows).1 0 ops ∅ (base_state defs rows).2 []
    = Ok (st', trace).
Proof.
  unfold ReadCsv. intros H.
  destruct (env_open_csv E filePath) as [[records rerr]| |]; simpl in H;
    try discriminate.
  destruct (build_rows parsers defs records) as [rows| |] eqn:Hb;
    simpl in H; try discriminate.
  destruct rerr; [discriminate|].
  destruct (base_state defs rows) as [orig st0] eqn:Hbase.
  destruct (run_ops E orig 0 ops ∅ st0 []) as [[st1 tr]| |] eqn:Hrun;
    simpl in H; try discriminate.
  inversion H; subst. exists records, rows. rewrite Hbase. simpl.
  repeat split; auto.
Qed.

End RunOps.


(** The file [a\n2\n1] with the string column [a]. *)
Definition two_line_env : Env :=
  MkEnv (fun _ => one_file_world) (fun _ _ => true)
        (fun _ => Ok ([["a"]; ["2"]; ["1"]], None)).

Definition a_defs : ValueDefs := {[ "a" := str_col "a" ]}.

Definition sort_a_op : OperationConf :=
  MkOperationConf "by_a" "sort" false false ""
    {[ "cols" := MkOpArg "" ["a"; "a"]; "order" := MkOpArg "" ["asc"; "asc"] ]}.

Definition print_a_op : OperationConf :=
  MkOperationConf "show" "print" false false ""
    {[ "cols" := MkOpArg "" ["a"] ]}.

Definition sample_run : res (slice * pstate * list invocation) :=
  ReadCsv (L := ascii_lib) (GS := legacy_sort) two_line_env
    (builtin_parsers (L := ascii_lib) one_file_world) "in.csv" a_defs
    [sort_a_op; print_a_op].


(** The run sorts, then prints: the second call has no [fromState] and
    prints the rows in sorted order. *)
Example sample_run_prints_sorted :
  (r ← sample_run; Ok (ps_out r.1.2))
  = Ok [EvStdout ["a"]; EvStdout ["1"]; EvStdout ["2"]].
Proof. vm_compute. reflexivity. Qed.


(** C10. The slice [ReadCsv] returns is the slice of the base dataset: it
    is fixed by the input and the column definitions and is the same for
    every list of operations; when the run ends it holds the base rows up
    to order, each with at least the columns it was built with. *)
Theorem ReadCsv_returns_base_slice `{L : GoLib} `{GS : GoSort} (E : Env)
    (parsers : gmap string Parser) (filePath : string) (defs : ValueDefs)
    (ops : list OperationConf) (sl : slice) (st' : pstate)
    (trace : list invocation) :
  ReadCsv E parsers filePath defs ops = Ok (sl, st', trace) →
  ∃ records rows,
    env_open_csv E filePath = Ok (records, None) ∧
    build_rows parsers defs records = Ok rows ∧
    sl = os_Rows (base_state defs rows).1 ∧
    (∃ rows', Permutation rows' (slice_rows (ps_store st') sl) ∧
              Forall2 row_incl rows rows') ∧
    ∀ ops2 sl2 st2 trace2,
      ReadCsv E parsers filePath defs ops2 = Ok (sl2, st2, trace2) → sl2 = sl.
Proof.
  intros H.
  destruct (ReadCsv_inv E parsers _ _ _ _ _ _ H)
    as (records & rows & Hopen & Hbuild & -> & Hrun).
  exists records, rows. split; [exact Hopen|]. split; [exact Hbuild|].
  split; [reflexivity|]. split.
  - destruct (run_ops_trace E _ _ _ _ _ _ _ _ Hrun) as (Hle & _).
    destruct (base_state_slice defs rows) as (Hread & _ & Hvalid).
    destruct (store_le_slice _ _ _ Hle Hvalid) as (rows' & Hp & HF).
    exists rows'. split; [exact Hp|]. now rewrite Hread in HF.
  - intros ops2 sl2 st2 trace2 H2.
    destruct (ReadCsv_inv E parsers _ _ _ _ _ _ H2)
      as (records2 & rows2 & Hopen2 & Hbuild2 & -> & _).
    rewrite Hopen in Hopen2. inversion Hopen2; subst records2.
    rewrite Hbuild in Hbuild2. now inversion Hbuild2.
Qed.

Lemma ReadCsv_returns_base_slice_witness :
  ∃ sl st' trace,
    sample_run = Ok (sl, st', trace) ∧
    ∃ records rows,
      env_open_csv two_line_env "in.csv" = Ok (records, None) ∧
      build_rows (L := ascii_lib)
        (builtin_parsers (L := ascii_lib) one_file_world) a_defs records
      = Ok rows ∧
      sl = os_Rows (base_state a_defs rows).1 ∧
      (∃ rows', Permutation rows' (slice_rows (ps_store st') sl) ∧
                Forall2 row_incl rows rows') ∧
      ∀ ops2 sl2 st2 trace2,
        ReadCsv (L := ascii_lib) (GS := legacy_sort) two_line_env
          (builtin_parsers (L := ascii_lib) one_file_world) "in.csv" a_defs ops2
        = Ok (sl2, st2, trace2) → sl2 = sl.
Proof.
  destruct sample_run as [[[sl st'] trace]|m|m] eqn:H.
  - exists sl, st', trace. split; [reflexivity|].
    apply (ReadCsv_returns_base_slice (L := ascii_lib) (GS := legacy_sort)
             two_line_env (builtin_parsers (L := ascii_lib) one_file_world)
             "in.csv" a_defs [sort_a_op; print_a_op] sl st' trace H).
  - vm_compute in H. discriminate H.
  - vm_compute in H. discriminate H.
Defined.

(** * Further properties of the package *)

(** ** Values *)

(** X1. A value is rebuilt from its string form: for a column whose
    default has no white space at its ends, [NewValue] applied to the
    string form of a value it built gives that value again. *)
Theorem NewValue_rebuild `{L : GoLib} (d : ColDef) (s : string) (v : Value) :
  TrimSpace (cd_Default d) = cd_Default d →
  NewValue d s = Ok v →
  NewValue d (ValStr v) = Ok v.
Proof. intros Hd Hv. exact (NewValue_stable d s v Hd Hv). Qed.

Lemma NewValue_rebuild_witness :
  NewValue (L := ascii_lib) (int_col "n")
    (ValStr (MkValue (Some 42) (Some (FFin 42 0)) (Some false) (int_col "n") "42"))
  = Ok (MkValue (Some 42) (Some (FFin 42 0)) (Some false) (int_col "n") "42").
Proof.
  apply (NewValue_rebuild (L := ascii_lib) (int_col "n") "  42 "
           (MkValue (Some 42) (Some (FFin 42 0)) (Some false) (int_col "n") "42"));
    reflexivity.
Defined.

(** X2. The empty cell. With no default configured, a cell that is empty
    after trimming is an error for a string column that is required, the
    empty string for a string column that is not, and the number [0]
    (boolean projection [true]) for an [int] column, whether the column
    is required or not. *)
Theorem NewValue_empty_cell `{L : GoLib} (d : ColDef) (s : string) :
  TrimSpace s = "" → cd_Default d = "" →
  (cd_Type d = TypStr →
   NewValue d s
   = if cd_NotEmpty d
     then Err "required value is empty and no default configured"
     else Ok (MkValue None None None d "")) ∧
  (cd_Type d = TypInt →
   NewValue d s = Ok (MkValue (Some 0) (Some (FFin 0 0)) (Some true) d "0")).
Proof.
  intros Hs Hd. unfold NewValue, parseValStr.
  rewrite Hs, TrimSpace_empty, Hd. simpl. split; intros Ht; rewrite Ht; simpl.
  - now destruct (cd_NotEmpty d).
  - reflexivity.
Qed.

Lemma NewValue_empty_cell_witness :
  (cd_Type (MkColDef "n" TypInt "" true [] false) = TypStr →
   NewValue (L := ascii_lib) (MkColDef "n" TypInt "" true [] false) "   "
   = if cd_NotEmpty (MkColDef "n" TypInt "" true [] false)
     then Err "required value is empty and no default configured"
     else Ok (MkValue None None None (MkColDef "n" TypInt "" true [] false) "")) ∧
  (cd_Type (MkColDef "n" TypInt "" true [] false) = TypInt →
   NewValue (L := ascii_lib) (MkColDef "n" TypInt "" true [] false) "   "
   = Ok (MkValue (Some 0) (Some (FFin 0 0)) (Some true)
           (MkColDef "n" TypInt "" true [] false) "0")).
Proof.
  apply (NewValue_empty_cell (L := ascii_lib)
           (MkColDef "n" TypInt "" true [] false) "   "); reflexivity.
Defined.

Ltac none_iff :=
  split;
  [ let Hx := fresh "Hx" in intros [? Hx]; discriminate Hx
  | let Hx := fresh "Hx" in
    intros Hx; cbv [TypStr TypInt TypBool TypFloat] in Hx;
    repeat (destruct Hx as [Hx|Hx]; [discriminate Hx|]);
    discriminate Hx ].

Ltac some_iff := split; [intros _; auto 6|intros _; eauto].

(** X3. The projections of a value follow the declared type: a value
    [NewValue] built has an integer and a float projection exactly for
    the types [int] and [float], a boolean projection exactly for [int],
    [float] and [bool], and its declared type is one of the four. *)
Theorem NewValue_projections `{L : GoLib} (d : ColDef) (s : string) (v : Value) :
  NewValue d s = Ok v →
  def v = d ∧
  (cd_Type d = TypStr ∨ cd_Type d = TypInt ∨ cd_Type d = TypBool
   ∨ cd_Type d = TypFloat) ∧
  (is_Some (ValInt v) ↔ cd_Type d = TypInt ∨ cd_Type d = TypFloat) ∧
  (is_Some (ValFloat v) ↔ cd_Type d = TypInt ∨ cd_Type d = TypFloat) ∧
  (is_Some (ValBool v)
   ↔ cd_Type d = TypInt ∨ cd_Type d = TypFloat ∨ cd_Type d = TypBool).
Proof.
  unfold NewValue. destruct (parseValStr d s) as [s'| |]; simpl;
    try discriminate.
  destruct (String.eqb_spec (cd_Type d) TypStr) as [Ht|Hn1].
  { intros H; inversion H; subst v. unfold ValInt, ValFloat, ValBool. simpl.
    rewrite Ht. simpl.
    split; [reflexivity|]. split; [auto|].
    split; [none_iff|]. split; none_iff. }
  destruct (String.eqb_spec (cd_Type d) TypInt) as [Ht|Hn2].
  { destruct (Atoi s'); [|discriminate].
    intros H; inversion H; subst v. unfold ValInt, ValFloat, ValBool. simpl.
    rewrite Ht. simpl.
    split; [reflexivity|]. split; [auto|].
    split; [some_iff|]. split; some_iff. }
  destruct (String.eqb_spec (cd_Type d) TypBool) as [Ht|Hn3].
  { intros H; inversion H; subst v. unfold ValInt, ValFloat, ValBool. simpl.
    rewrite Ht. simpl.
    split; [reflexivity|]. split; [auto|].
    split; [none_iff|]. split; [none_iff|some_iff]. }
  destruct (String.eqb_spec (cd_Type d) TypFloat) as [Ht|Hn4]; [|discriminate].
  destruct (ParseFloat s'); [|discriminate].
  intros H; inversion H; subst v. unfold ValInt, ValFloat, ValBool. simpl.
  rewrite Ht. simpl.
  split; [reflexivity|]. split; [auto 6|].
  split; [some_iff|]. split; some_iff.
Qed.

Lemma NewValue_projections_witness :
  ∃ v, NewValue (L := ascii_lib) (float_col "x") "1.5" = Ok v ∧
    def v = float_col "x" ∧
    (cd_Type (float_col "x") = TypStr ∨ cd_Type (float_col "x") = TypInt
     ∨ cd_Type (float_col "x") = TypBool ∨ cd_Type (float_col "x") = TypFloat) ∧
    (is_Some (ValInt v)
     ↔ cd_Type (float_col "x") = TypInt ∨ cd_Type (float_col "x") = TypFloat) ∧
    (is_Some (ValFloat v)
     ↔ cd_Type (float_col "x") = TypInt ∨ cd_Type (float_col "x") = TypFloat) ∧
    (is_Some (ValBool v)
     ↔ cd_Type (float_col "x") = TypInt ∨ cd_Type (float_col "x") = TypFloat
       ∨ cd_Type (float_col "x") = TypBool).
Proof.
  eexists. split; [reflexivity|].
  apply (NewValue_projections (L := ascii_lib) (float_col "x") "1.5").
  reflexivity.
Defined.

(** X4. A [bool] column takes every cell: [NewValue] does not fail for
    it, whatever the cell, the default and the required flag are, and a
    token outside the table [strBool] reads as [true]. *)
Theorem NewValue_bool_total `{L : GoLib} (d : ColDef) (s : string) :
  cd_Type d = TypBool →
  ∃ v b, NewValue d s = Ok v ∧ ValBool v = Some b ∧
         ValInt v = None ∧ ValFloat v = None ∧
         (strBool !! TrimSpace (ToLower (ValStr v)) = None → b = true).
Proof.
  intros Ht. unfold NewValue.
  assert (Hp : ∃ s', parseValStr d s = Ok s').
  { unfold parseValStr. rewrite Ht. simpl. repeat case_match; eauto. }
  destruct Hp as [s' Hp]. rewrite Hp. simpl. rewrite Ht. simpl.
  eexists. eexists. split; [reflexivity|].
  unfold ValBool, ValInt, ValFloat. simpl. rewrite Ht. simpl.
  split; [reflexivity|]. split; [reflexivity|]. split; [reflexivity|].
  intros Hn. now rewrite Hn.
Qed.

Lemma NewValue_bool_total_witness :
  ∃ v b, NewValue (L := ascii_lib) (MkColDef "e" TypBool "" true [] false) "maybe"
         = Ok v ∧ ValBool v = Some b ∧
         ValInt v = None ∧ ValFloat v = None ∧
         (strBool !! TrimSpace (GoLib := ascii_lib)
                       (ToLower (GoLib := ascii_lib) (ValStr v)) = None →
          b = true).
Proof.
  apply (NewValue_bool_total (L := ascii_lib)
           (MkColDef "e" TypBool "" true [] false) "maybe").
  reflexivity.
Defined.

(** ** Argument resolution *)

(** The loop of [parseArgs] over the children of a list argument. *)
Definition parseArgs_loop (cell : Value) (row : Row) :=
  fix loop (ival : nat) (l : list ParserArg) (vals : list argval)
    : res (list argval) :=
    match l with
    | [] => Ok vals
    | val :: l' =>
        match parseArgs cell row val with
        | Ok v => loop (S ival) l' (vals ++ [v])
        | Err m =>
            Err ("argument at index " +:+ Itoa (Z.of_nat ival) +:+ ": " +:+ m)
        | Panic m => Panic m
        end
    end.

Lemma parseArgs_list_unfold (cell : Value) (row : Row) (a : ParserArg)
    (values : list ParserArg) (col : string) (cols : list string) :
  parseArgs cell row (MkParserArg "" (a :: values) col cols)
  = vals ← parseArgs_loop cell row 0 (a :: values) []; Ok (AList vals).
Proof. reflexivity. Qed.

Lemma parseArgs_loop_ok (cell : Value) (row : Row) (l : list ParserArg)
    (rs : list argval) :
  Forall2 (fun a r => parseArgs cell row a = Ok r) l rs →
  ∀ ival vals, parseArgs_loop cell row ival l vals = Ok (vals ++ rs).
Proof.
  induction 1 as [|a r l rs Ha _ IH]; intros ival vals; simpl.
  - now rewrite app_nil_r.
  - rewrite Ha, IH. now rewrite <- app_assoc.
Qed.

Lemma parseArgs_loop_err (cell : Value) (row : Row) (l : list ParserArg)
    (rs : list argval) (a : ParserArg) (rest : list ParserArg) (m : string) :
  Forall2 (fun a r => parseArgs cell row a = Ok r) l rs →
  parseArgs cell row a = Err m →
  ∀ ival vals,
    parseArgs_loop cell row ival (l ++ a :: rest) vals
    = Err ("argument at index " +:+ Itoa (Z.of_nat (ival + length l))
           +:+ ": " +:+ m).
Proof.
  intros Hl Ha. induction Hl as [|a0 r l rs Ha0 _ IH]; intros ival vals; simpl.
  - rewrite Ha. now rewrite Nat.add_0_r.
  - rewrite Ha0, IH. do 4 f_equal. lia.
Qed.

(** X5. A literal wins: an argument whose literal is set resolves to the
    literal, whatever its other fields, the row and the value in focus
    are. *)
Theorem parseArgs_literal (cell : Value) (row : Row) (arg : ParserArg) :
  pa_Value arg ≠ "" → parseArgs cell row arg = Ok (AStr (pa_Value arg)).
Proof.
  destruct arg as [value values col cols]. simpl. intros Hne.
  destruct (String.eqb_spec value ""); [contradiction|reflexivity].
Qed.

Lemma parseArgs_literal_witness :
  parseArgs (sval "code" "x") ∅ (MkParserArg "s3://bucket/" [] "missing" ["gone"])
  = Ok (AStr "s3://bucket/").
Proof.
  apply (parseArgs_literal (sval "code" "x") ∅
           (MkParserArg "s3://bucket/" [] "missing" ["gone"])).
  discriminate.
Defined.

(** X6. A list argument resolves its children from left to right: when
    every child resolves, the result is the list of their results in
    order; when the children before position [k] resolve and the child at
    [k] fails, the error of that child is reported with its index. *)
Theorem parseArgs_list (cell : Value) (row : Row) (children : list ParserArg)
    (col : string) (cols : list string) :
  children ≠ [] →
  (∀ rs, Forall2 (fun a r => parseArgs cell row a = Ok r) children rs →
         parseArgs cell row (MkParserArg "" children col cols) = Ok (AList rs)) ∧
  (∀ l a rest rs m,
     children = l ++ a :: rest →
     Forall2 (fun a r => parseArgs cell row a = Ok r) l rs →
     parseArgs cell row a = Err m →
     parseArgs cell row (MkParserArg "" children col cols)
     = Err ("argument at index " +:+ Itoa (Z.of_nat (length l)) +:+ ": " +:+ m)).
Proof.
  intros Hne. destruct children as [|a0 values]; [contradiction|].
  rewrite parseArgs_list_unfold. split.
  - intros rs Hrs. now rewrite (parseArgs_loop_ok cell row _ rs Hrs).
  - intros l a rest rs m Hc Hl Ha. rewrite Hc.
    now rewrite (parseArgs_loop_err cell row l rs a rest m Hl Ha).
Qed.

Lemma parseArgs_list_witness :
  (∀ rs, Forall2 (fun a r => parseArgs (sval "code" "x")
                               {[ "id" := sval "id" "7" ]} a = Ok r)
           [MkParserArg "pre-" [] "" []; MkParserArg "" [] "id" []] rs →
         parseArgs (sval "code" "x") {[ "id" := sval "id" "7" ]}
           (MkParserArg "" [MkParserArg "pre-" [] "" []; MkParserArg "" [] "id" []]
              "" [])
         = Ok (AList rs)) ∧
  (∀ l a rest rs m,
     [MkParserArg "pre-" [] "" []; MkParserArg "" [] "id" []] = l ++ a :: rest →
     Forall2 (fun a r => parseArgs (sval "code" "x")
                           {[ "id" := sval "id" "7" ]} a = Ok r) l rs →
     parseArgs (sval "code" "x") {[ "id" := sval "id" "7" ]} a = Err m →
     parseArgs (sval "code" "x") {[ "id" := sval "id" "7" ]}
       (MkParserArg "" [MkParserArg "pre-" [] "" []; MkParserArg "" [] "id" []]
          "" [])
     = Err ("argument at index " +:+ Itoa (Z.of_nat (length l)) +:+ ": " +:+ m)).
Proof.
  apply (parseArgs_list (sval "code" "x") {[ "id" := sval "id" "7" ]}
           [MkParserArg "pre-" [] "" []; MkParserArg "" [] "id" []] "" []).
  discriminate.
Defined.

Example parseArgs_list_example :
  parseArgs (sval "code" "x") {[ "id" := sval "id" "7" ]}
    (MkParserArg ""
       [MkParserArg "pre-" [] "" []; MkParserArg "" [] "id" [];
        MkParserArg "" [] "" []] "" [])
  = Ok (AList [AStr "pre-"; AStr "7"; AStr "x"]) ∧
  parseArgs (sval "code" "x") {[ "id" := sval "id" "7" ]}
    (MkParserArg ""
       [MkParserArg "pre-" [] "" []; MkParserArg "" [] "nope" []] "" [])
  = Err "argument at index 1: column '' not found".
Proof. split; reflexivity. Qed.

(** X7. A column reference. With no literal and no list, a reference
    [col] resolves to the string form of that column of the row; when the
    row has no such column the resolution fails, and the message names
    the (empty) literal, not the column. With only [cols] set, its first
    entry alone decides. *)
Theorem parseArgs_column (cell : Value) (row : Row) (col : string)
    (cols : list string) :
  (col ≠ "" →
   parseArgs cell row (MkParserArg "" [] col cols)
   = match row !! col with
     | Some v => Ok (AStr (ValStr v))
     | None => Err "column '' not found"
     end) ∧
  (∀ c rest, cols = c :: rest →
     parseArgs cell row (MkParserArg "" [] "" cols)
     = match row !! c with
       | Some v => Ok (AStr (ValStr v))
       | None => Err ("column '" +:+ c +:+ "' not found")
       end).
Proof.
  split.
  - intros Hne. simpl.
    destruct (String.eqb_spec col ""); [contradiction|reflexivity].
  - intros c rest ->. reflexivity.
Qed.

Lemma parseArgs_column_witness :
  ("id" ≠ "" →
   parseArgs (sval "code" "x") {[ "id" := sval "id" "7" ]}
     (MkParserArg "" [] "id" ["code"])
   = match ({[ "id" := sval "id" "7" ]} : Row) !! "id" with
     | Some v => Ok (AStr (ValStr v))
     | None => Err "column '' not found"
     end) ∧
  (∀ c rest, ["code"] = c :: rest →
     parseArgs (sval "code" "x") {[ "id" := sval "id" "7" ]}
       (MkParserArg "" [] "" ["code"])
     = match ({[ "id" := sval "id" "7" ]} : Row) !! c with
       | Some v => Ok (AStr (ValStr v))
       | None => Err ("column '" +:+ c +:+ "' not found")
       end).
Proof.
  exact (parseArgs_column (sval "code" "x") {[ "id" := sval "id" "7" ]}
           "id" ["code"]).
Defined.

(** ** The parser registry *)

Lemma validateParserArgType_Ok (t : gotype) (arg : ParserArg) :
  validateParserArgType t arg = Ok tt ↔ (pa_Values arg ≠ [] ↔ is_Slice t = true).
Proof.
  unfold validateParserArgType.
  destruct (pa_Values arg) as [|a l]; destruct (is_Slice t); simpl.
  - split; [discriminate|]. intros [_ H]. now specialize (H eq_refl).
  - split; [|reflexivity]. intros _. split; [contradiction|discriminate].
  - split; [|reflexivity]. intros _. split; [reflexivity|discriminate].
  - split; [discriminate|]. intros [H _].
    specialize (H ltac:(discriminate)). discriminate H.
Qed.

Lemma validate_foldr_Ok (name : string) (p : Parser)
    (l : list (string * ParserArg)) :
  foldr (fun '(arg, val) k =>
           match p_args p !! arg with
           | None =>
               Err ("parser '" +:+ name
                    +:+ "' does not take argument '" +:+ arg +:+ "'")
           | Some parserArg =>
               _ ← Wrapf ("invalid type for argument '" +:+ arg
                          +:+ "' in parser '" +:+ name +:+ "'")
                     (validateParserArgType parserArg val);
               k
           end) (Ok tt) l = Ok tt
  ↔ Forall (fun av => ∃ t, p_args p !! av.1 = Some t ∧
                           validateParserArgType t av.2 = Ok tt) l.
Proof.
  induction l as [|[arg val] l IH]; simpl.
  - split; [constructor|reflexivity].
  - split.
    + destruct (p_args p !! arg) as [t|] eqn:Ht; [|discriminate].
      destruct (validateParserArgType t val) as [[]| |] eqn:Hv; simpl;
        try discriminate.
      intros H. constructor; [eauto|]. now apply IH.
    + intros H. apply Forall_cons in H as [(t & Ht & Hv) Hl]. simpl in *.
      rewrite Ht, Hv. simpl. now apply IH.
Qed.

(** X8. [validateParser] accepts a parser invocation exactly when the
    parser is registered, every supplied argument is declared by it, and
    an argument is a list exactly when its declared type is a slice. The
    order in which the arguments are visited does not matter. *)
Theorem validateParser_accepts `{L : GoLib} (parsers : gmap string Parser)
    (cp : ColParser) :
  validateParser parsers cp = Ok tt ↔
  ∃ p, parsers !! cp_Name cp = Some p ∧
       ∀ arg val, cp_Args cp !! arg = Some val →
         ∃ t, p_args p !! arg = Some t ∧
              (pa_Values val ≠ [] ↔ is_Slice t = true).
Proof.
  unfold validateParser.
  destruct (parsers !! cp_Name cp) as [p|]; [|split; [discriminate|]].
  - rewrite validate_foldr_Ok.
    rewrite <- (range_order_perm _ (map_to_list (cp_Args cp))).
    rewrite Forall_forall. split.
    + intros H. exists p. split; [reflexivity|]. intros arg val Hl.
      destruct (H (arg, val)) as (t & Ht & Hv);
        [now apply elem_of_map_to_list|].
      exists t. split; [exact Ht|]. now apply validateParserArgType_Ok.
    + intros (p' & Hp & H) [arg val] Hin. inversion Hp; subst p'.
      apply elem_of_map_to_list in Hin.
      destruct (H arg val Hin) as (t & Ht & Hv).
      exists t. split; [exact Ht|]. now apply validateParserArgType_Ok.
  - intros (p & Hp & _). discriminate Hp.
Qed.

Ltac graphic_literal :=
  repeat constructor; unfold graphic; simpl; lia.

(** X9. The registration at start-up succeeds: [AddParsers] on the seven
    built-in parsers, from the empty registry, gives the registry
    [builtin_parsers] with one entry per parser name. *)
Theorem init_parsers_registers `{L : GoLib} (W : World) :
  AddParsers [concatParser; tolowercaseParser; toUppercaseParser;
              fileExtParser; fileExistsParser W; fileMd5Parser W;
              containsParser] ∅
  = Ok (builtin_parsers W) ∧
  ∀ name, is_Some (builtin_parsers W !! name) ↔
          name ∈ ["concat"; "lowercase"; "uppercase"; "ext"; "fileExists";
                  "fileMd5"; "contains"].
Proof.
  split.
  - unfold AddParsers. simpl p_name.
    rewrite !TrimSpace_graphic by graphic_literal. reflexivity.
  - intros name. unfold builtin_parsers.
    rewrite <- elem_of_dom, dom_list_to_map_L, elem_of_list_to_set.
    reflexivity.
Qed.

(** X10. [AddParsers] with names free of surrounding white space: the
    call succeeds exactly when no name is empty, no name occurs twice in
    the list, and no name is registered already; the registry then holds
    the old entries and the new parsers under their names. *)
Theorem AddParsers_accepts `{L : GoLib} (parsersList : list Parser) :
  (∀ p, p ∈ parsersList → TrimSpace (p_name p) = p_name p) →
  ∀ (reg reg' : gmap string Parser),
    AddParsers parsersList reg = Ok reg' ↔
    (∀ p, p ∈ parsersList → p_name p ≠ "") ∧
    NoDup (map p_name parsersList) ∧
    (∀ p, p ∈ parsersList → reg !! p_name p = None) ∧
    reg' = foldl (fun m p => <[p_name p := p]> m) reg parsersList.
Proof.
  induction parsersList as [|p ps IH]; intros Htrim reg reg'.
  - simpl. split.
    + intros H; inversion H; subst. repeat split; try constructor;
        intros p Hp; inversion Hp.
    + intros (_ & _ & _ & ->). reflexivity.
  - assert (Hps : ∀ q, q ∈ ps → TrimSpace (p_name q) = p_name q)
      by (intros q Hq; apply Htrim; now right).
    simpl. rewrite (Htrim p) by left.
    destruct (String.eqb_spec (p_name p) "") as [He|Hne].
    { split; [discriminate|]. intros (H & _). exfalso. now apply (H p); [left|]. }
    destruct (reg !! p_name p) as [q|] eqn:Hreg.
    { split; [discriminate|]. intros (_ & _ & H & _).
      rewrite (H p) in Hreg by left. discriminate Hreg. }
    rewrite (IH Hps). split.
    + intros (Hn & Hnd & Hfree & ->). split; [|split; [|split]].
      * intros q Hq. apply elem_of_cons in Hq as [->|Hq]; auto.
      * apply NoDup_cons. split; [|exact Hnd].
        intros Hin. apply list_elem_of_fmap in Hin as (q & Hq & Hin).
        specialize (Hfree q Hin). rewrite <- Hq, lookup_insert_eq in Hfree.
        discriminate Hfree.
      * intros q Hq. apply elem_of_cons in Hq as [->|Hq]; [exact Hreg|].
        specialize (Hfree q Hq).
        destruct (decide (p_name p = p_name q)) as [Heq|Hneq].
        -- rewrite Heq, lookup_insert_eq in Hfree. discriminate Hfree.
        -- now rewrite lookup_insert_ne in Hfree.
      * reflexivity.
    + intros (Hn & Hnd & Hfree & ->). apply NoDup_cons in Hnd as [Hnin Hnd].
      split; [|split; [|split]]; auto.
      * intros q Hq. apply Hn. now right.
      * intros q Hq. rewrite lookup_insert_ne; [apply Hfree; now right|].
        intros Heq. apply Hnin. apply list_elem_of_fmap. eauto.
Qed.

Definition two_parsers `{L : GoLib} : gmap string Parser :=
  <["ext" := fileExtParser]> (<["concat" := concatParser]> ∅).

Lemma AddParsers_accepts_witness :
  AddParsers (L := ascii_lib) [concatParser; fileExtParser] ∅
  = Ok (two_parsers (L := ascii_lib)) ↔
  (∀ p, p ∈ [concatParser (L := ascii_lib); fileExtParser] → p_name p ≠ "") ∧
  NoDup (map p_name [concatParser (L := ascii_lib); fileExtParser]) ∧
  (∀ p, p ∈ [concatParser (L := ascii_lib); fileExtParser] →
        (∅ : gmap string Parser) !! p_name p = None) ∧
  two_parsers (L := ascii_lib)
  = foldl (fun (m : gmap string Parser) p => <[p_name p := p]> m) ∅
      [concatParser (L := ascii_lib); fileExtParser].
Proof.
  apply (AddParsers_accepts (L := ascii_lib) [concatParser; fileExtParser]).
  intros p Hp. elem_cases Hp; reflexivity.
Defined.

(** Names are compared after trimming and stored as given: two parsers
    with the same name that carries white space are both accepted, and
    the second replaces the first. *)
Example AddParsers_untrimmed_name :
  (reg ← AddParsers (L := ascii_lib)
           [MkParser " x" (fun _ => Ok "1") ∅; MkParser " x" (fun _ => Ok "2") ∅] ∅;
   Ok (p ← reg !! " x"; Some (Parse p ∅), size reg))
  = Ok (Some (Ok "2"), 1%nat).
Proof. reflexivity. Qed.

(** ** The operation registry *)

(** X11. [AddOperations] succeeds exactly when no name occurs twice in
    the list and no name is registered already; the registry then holds
    the old entries and the new operations under their names. The
    registry [operations] is what it gives for the seven built-in
    operations from the empty registry. *)
Theorem AddOperations_accepts `{L : GoLib} `{GS : GoSort} (E : Env) :
  (∀ (newOps : list Operation) (reg reg' : gmap string Operation),
     AddOperations newOps reg = Ok reg' ↔
     NoDup (map op_Name newOps) ∧
     (∀ op, op ∈ newOps → reg !! op_Name op = None) ∧
     reg' = foldl (fun m op => <[op_Name op := op]> m) reg newOps) ∧
  AddOperations [printOperation; toFileOperation E; sortOperation;
                 dupesCountOp; findDupesOp; mergeDupesOp; md5FileOp E] ∅
  = Ok (operations E).
Proof.
  split; [|reflexivity].
  induction newOps as [|op ops IH]; intros reg reg'.
  - simpl. split.
    + intros H; inversion H; subst. repeat split; try constructor.
      intros op Hop; inversion Hop.
    + intros (_ & _ & ->). reflexivity.
  - simpl. destruct (reg !! op_Name op) as [q|] eqn:Hreg.
    { split; [discriminate|]. intros (_ & H & _).
      rewrite (H op) in Hreg by left. discriminate Hreg. }
    rewrite IH. split.
    + intros (Hnd & Hfree & ->). split; [|split].
      * apply NoDup_cons. split; [|exact Hnd].
        intros Hin. apply list_elem_of_fmap in Hin as (q & Hq & Hin).
        specialize (Hfree q Hin). rewrite <- Hq, lookup_insert_eq in Hfree.
        discriminate Hfree.
      * intros q Hq. apply elem_of_cons in Hq as [->|Hq]; [exact Hreg|].
        specialize (Hfree q Hq).
        destruct (decide (op_Name op = op_Name q)) as [Heq|Hneq].
        -- rewrite Heq, lookup_insert_eq in Hfree. discriminate Hfree.
        -- now rewrite lookup_insert_ne in Hfree.
      * reflexivity.
    + intros (Hnd & Hfree & ->). apply NoDup_cons in Hnd as [Hnin Hnd].
      split; [|split]; auto.
      intros q Hq. rewrite lookup_insert_ne; [apply Hfree; now right|].
      intros Heq. apply Hnin. apply list_elem_of_fmap. eauto.
Qed.

(** ** Typed access to resolved arguments *)

(** X12. [argBool] on a string: the argument is [true] exactly for the
    tokens [yes], [true] and [1] as written (no case folding, no
    trimming); every other string is [false], and none is an error. *)
Theorem argBool_tokens (args : FuncArgs) (argName s : string) :
  args !! argName = Some (AStr s) →
  ∃ b, argBool args argName = Ok b ∧
       (b = true ↔ s = "yes" ∨ s = "true" ∨ s = "1").
Proof.
  intros Ha. unfold argBool. rewrite Ha.
  destruct (strBool !! s) as [b|] eqn:Hs.
  - exists b. split; [reflexivity|].
    unfold strBool in Hs. apply elem_of_list_to_map_2 in Hs.
    elem_cases Hs; inversion Hs; subst; split; auto; try discriminate;
      intros H; repeat (destruct H as [H|H]; try discriminate H).
  - exists false. split; [reflexivity|]. split; [discriminate|].
    intros H. exfalso.
    repeat (destruct H as [H|H]; [subst s; vm_compute in Hs; discriminate Hs|]).
    subst s. vm_compute in Hs. discriminate Hs.
Qed.

Lemma argBool_tokens_witness :
  ∃ b, argBool {[ "mergeValues" := AStr "True" ]} "mergeValues" = Ok b ∧
       (b = true ↔ "True" = "yes" ∨ "True" = "true" ∨ "True" = "1").
Proof.
  apply (argBool_tokens {[ "mergeValues" := AStr "True" ]} "mergeValues" "True").
  reflexivity.
Defined.

(** ** Built-in parsers *)

Fixpoint has_dot (s : string) : bool :=
  match s with
  | EmptyString => false
  | String c r => Ascii.eqb c "." || has_dot r
  end.

Lemma Ext_empty_no_dot (s : string) :
  Ext s = "" → has_sep s = false → has_dot s = false.
Proof.
  induction s as [|c r IH]; simpl; [reflexivity|].
  destruct (Ext r) as [|c' e] eqn:He; [|discriminate].
  intros Hx Hs. apply orb_false_elim in Hs as [Hc Hr]. rewrite Hr in Hx.
  destruct (Ascii.eqb c "."); simpl in *; [discriminate|]. now apply IH.
Qed.

Lemma Ext_shape (s : string) :
  Ext s = "" ∨
  ∃ pre r, Ext s = String "." r ∧ s = pre +:+ String "." r ∧
           has_sep r = false ∧ has_dot r = false.
Proof.
  induction s as [|c r IH]; simpl; [now left|].
  destruct IH as [He|(pre & e & He & Hs & Hsep & Hdot)].
  - rewrite He. destruct (Ascii.eqb_spec c ".") as [->|Hc]; simpl; [|now left].
    destruct (has_sep r) eqn:Hsep; simpl; [now left|].
    right. exists "", r. repeat split; auto. now apply Ext_empty_no_dot.
  - rewrite He. right. exists (String c pre), e.
    repeat split; auto. rewrite append_cons. now f_equal.
Qed.

(** X13. The extension [extParser] returns for its argument [filename]
    is a suffix of the file name that holds neither a dot nor a path
    separator; the call does not fail. *)
Theorem extParser_suffix `{L : GoLib} (fileName : string) :
  ∃ e pre, extParser {[ "filename" := AStr fileName ]} = Ok e ∧
           fileName = pre +:+ e ∧ has_dot e = false ∧ has_sep e = false.
Proof.
  rewrite extParser_filename.
  destruct (Ext_shape fileName) as [He|(pre & r & He & Hs & Hsep & Hdot)].
  - rewrite He. exists "", fileName. rewrite append_nil_r. auto.
  - rewrite He. exists r, (pre +:+ "."). repeat split; auto.
    rewrite Hs at 1. now rewrite append_assoc.
Qed.

(** X14. The parser [fileExists] declares the argument [value] and reads
    the argument [filename]: every argument map whose names are among
    the declared ones makes it fail, and [validateParser] refuses the
    name it reads. With the argument [filename] it answers [false]
    exactly for a file that does not exist. *)
Theorem fileExists_declared_contract `{L : GoLib} (W : World) :
  (∀ args : FuncArgs,
     (∀ k, is_Some (args !! k) → is_Some (p_args (fileExistsParser W) !! k)) →
     fileExists W args = Err "filename argument not provided") ∧
  (∀ arg : ParserArg,
     validateParser (builtin_parsers W)
       (MkColParser "fileExists" {[ "filename" := arg ]})
     = Err "parser 'fileExists' does not take argument 'filename'") ∧
  (∀ name : string,
     ∃ r, fileExists W {[ "filename" := AStr name ]} = Ok r ∧
          (r = "false" ↔ os_Stat W name = StatNotExist)).
Proof.
  split; [|split].
  - intros args Hk. unfold fileExists.
    destruct (args !! "filename") as [v|] eqn:Hf; [|reflexivity].
    destruct (Hk "filename") as [t Ht]; [by eexists|].
    simpl in Ht. rewrite lookup_singleton_ne in Ht by discriminate.
    discriminate Ht.
  - intros arg. unfold validateParser. simpl cp_Name.
    replace (builtin_parsers W !! "fileExists") with (Some (fileExistsParser W))
      by reflexivity.
    simpl cp_Args. rewrite map_to_list_singleton, range_order_singleton.
    reflexivity.
  - intros name. unfold fileExists. rewrite lookup_singleton_eq.
    destruct (os_Stat W name); eexists; (split; [reflexivity|]);
      split; auto; discriminate.
Qed.

(** X15. The parser [fileMd5] agrees with the hash of the operation
    [filesMd5] whenever it answers, and differs from it on a file that is
    there and cannot be read: the parser fails, the operation stores the
    empty string. *)
Theorem fileMd5_parser_and_operation `{L : GoLib} (W : World) (name : string) :
  (∀ h, fileMd5 W {[ "filename" := AStr name ]} = Ok h → h = file_hash W name) ∧
  (os_Stat W name ≠ StatNotExist → ReadFile W name = None →
   ¬ is_Ok (fileMd5 W {[ "filename" := AStr name ]}) ∧ file_hash W name = "").
Proof.
  unfold fileMd5, file_hash. rewrite lookup_singleton_eq. split.
  - intros h. destruct (os_Stat W name); destruct (ReadFile W name);
      intros H; inversion H; reflexivity.
  - intros Hs Hr. rewrite Hr.
    destruct (os_Stat W name); try contradiction;
      (split; [intros [? H]; discriminate H|reflexivity]).
Qed.

Definition locked_file_world : World :=
  MkWorld (fun _ => StatOk) (fun _ => None).

Lemma fileMd5_parser_and_operation_witness :
  (∀ h, fileMd5 (L := ascii_lib) locked_file_world
          {[ "filename" := AStr "secret" ]} = Ok h →
        h = file_hash (L := ascii_lib) locked_file_world "secret") ∧
  (os_Stat locked_file_world "secret" ≠ StatNotExist →
   ReadFile locked_file_world "secret" = None →
   ¬ is_Ok (fileMd5 (L := ascii_lib) locked_file_world
              {[ "filename" := AStr "secret" ]}) ∧
   file_hash (L := ascii_lib) locked_file_world "secret" = "").
Proof.
  exact (fileMd5_parser_and_operation (L := ascii_lib) locked_file_world "secret").
Defined.

Lemma Join_empty_sep (ss : list string) :
  Join ss "" = fold_right String.append "" ss.
Proof.
  induction ss as [|s ss IH]; [reflexivity|].
  destruct ss as [|s' ss']; simpl in *.
  - now rewrite append_nil_r.
  - now rewrite IH.
Qed.

(** X16. [concat] on a list of strings gives the strings one after the
    other, in the order of the list. *)
Theorem concat_strings `{L : GoLib} (ss : list string) :
  concat_fn {[ "values" := AList (map AStr ss) ]}
  = Ok (fold_right String.append "" ss).
Proof.
  unfold concat_fn. rewrite lookup_singleton_eq. f_equal.
  rewrite <- Join_empty_sep. f_equal.
  assert (G : ∀ acc, fold_left (fun acc val =>
                         match val with
                         | AStr s => acc ++ [s]
                         | AFloat f => acc ++ [Sprintf_f f]
                         | AInt n => acc ++ [Itoa n]
                         | _ => acc
                         end) (map AStr ss) acc = acc ++ ss).
  { induction ss as [|s ss IH]; intros acc; simpl.
    - now rewrite app_nil_r.
    - rewrite IH. now rewrite <- app_assoc. }
  apply (G []).
Qed.

(** X17. [contains] needs its four arguments, each a string: it answers
    exactly then, with the token for [true] when the value holds the term
    and the token for [false] when not. *)
Theorem contains_answers (args : FuncArgs) (r : string) :
  contains args = Ok r ↔
  ∃ val term trueVal falseVal,
    args !! "value" = Some (AStr val) ∧ args !! "term" = Some (AStr term) ∧
    args !! "trueValue" = Some (AStr trueVal) ∧
    args !! "falseValue" = Some (AStr falseVal) ∧
    r = if Contains val term then trueVal else falseVal.
Proof.
  unfold contains, argString. split.
  - intros H.
    destruct (args !! "value") as [[val| | | | |]|]; simpl in H;
      try discriminate.
    destruct (args !! "term") as [[term| | | | |]|]; simpl in H;
      try discriminate.
    destruct (args !! "trueValue") as [[tv| | | | |]|]; simpl in H;
      try discriminate.
    destruct (args !! "falseValue") as [[fv| | | | |]|]; simpl in H;
      try discriminate.
    exists val, term, tv, fv. repeat split.
    destruct (Contains val term); now inversion H.
  - intros (val & term & tv & fv & -> & -> & -> & -> & ->). simpl.
    now destruct (Contains val term).
Qed.

(** ** Headers and rows *)

Section RowFacts.
Context `{L : GoLib}.

Lemma NewHeader_snoc (parsers : gmap string Parser) (defs : ValueDefs)
    (header : list string) (h : string) :
  NewHeader parsers defs (header ++ [h])
  = headerDefs ← NewHeader parsers defs header;
    match defs !! TrimSpace h with
    | None => Ok headerDefs
    | Some d =>
        _ ← validateParsers parsers d;
        Ok (<[length header := Some d]> headerDefs)
    end.
Proof.
  unfold NewHeader. rewrite imap_app, foldl_app. simpl.
  now rewrite Nat.add_0_r.
Qed.

(** A cell of a row was built by [NewValue] for the definition it points
    to, and that definition is the one registered under the name of the
    column. *)
Definition built_for (defs : ValueDefs) (row : Row) : Prop :=
  ∀ col v, row !! col = Some v →
    defs !! col = Some (def v) ∧ ∃ s, NewValue (def v) s = Ok v.

Lemma built_for_insert (defs : ValueDefs) (row : Row) (col : string)
    (d : ColDef) (s : string) (v : Value) :
  built_for defs row → defs !! col = Some d → NewValue d s = Ok v →
  built_for defs (<[col := v]> row).
Proof.
  intros Hrow Hd Hv c w Hw.
  destruct (decide (col = c)) as [<-|Hne].
  - rewrite lookup_insert_eq in Hw. inversion Hw; subst w.
    destruct (NewValue_valStr d s v Hv) as [_ Hdef]. rewrite Hdef.
    split; [exact Hd|]. eauto.
  - rewrite lookup_insert_ne in Hw by exact Hne. now apply Hrow.
Qed.

End RowFacts.

(** The positions of a header and the chains of its definitions. *)
Lemma NewHeader_lookup `{L : GoLib} (parsers : gmap string Parser)
    (defs : ValueDefs) (header : list string) (headerDefs : Header) :
  NewHeader parsers defs header = Ok headerDefs →
  (∀ i, headerDefs !! i
        = match header !! i with
          | Some h => match defs !! TrimSpace h with
                      | Some d => Some (Some d)
                      | None => None
                      end
          | None => None
          end) ∧
  (∀ i d, headerDefs !! i = Some (Some d) → validateParsers parsers d = Ok tt).
Proof.
  revert headerDefs.
  induction header as [|h header IH] using rev_ind; intros headerDefs H.
  - unfold NewHeader in H. simpl in H. inversion H; subst. split.
    + intros i. now rewrite lookup_empty.
    + intros i d Hi. now rewrite lookup_empty in Hi.
  - rewrite NewHeader_snoc in H.
    destruct (NewHeader parsers defs header) as [hd0| |] eqn:H0; simpl in H;
      try discriminate.
    destruct (IH hd0 eq_refl) as [Hpos Hval].
    assert (Hlast : ∀ i, (header ++ [h]) !! i
                         = if decide (i = length header) then Some h
                           else header !! i).
    { intros i. destruct (decide (i = length header)) as [->|Hne].
      - now rewrite lookup_app_r, Nat.sub_diag by lia.
      - destruct (Nat.lt_ge_cases i (length header)).
        + now rewrite lookup_app_l.
        + rewrite !lookup_ge_None_2; [reflexivity|lia|].
          rewrite length_app. simpl. lia. }
    assert (Hnone : hd0 !! length header = None).
    { rewrite Hpos. now rewrite lookup_ge_None_2 by lia. }
    destruct (defs !! TrimSpace h) as [d|] eqn:Hd.
    + destruct (validateParsers parsers d) as [[]| |] eqn:Hv; simpl in H;
        try discriminate.
      inversion H; subst headerDefs. split.
      * intros i. rewrite Hlast. destruct (decide (i = length header)) as [->|Hne].
        -- now rewrite lookup_insert_eq, Hd.
        -- rewrite lookup_insert_ne by auto. apply Hpos.
      * intros i d' Hi. destruct (decide (length header = i)) as [<-|Hne].
        -- rewrite lookup_insert_eq in Hi. now inversion Hi; subst.
        -- rewrite lookup_insert_ne in Hi by exact Hne. eapply Hval; eauto.
    + inversion H; subst headerDefs. split; [|exact Hval].
      intros i. rewrite Hlast. destruct (decide (i = length header)) as [->|Hne].
      * now rewrite Hnone, Hd.
      * apply Hpos.
Qed.

(** X18. [NewHeader] maps the position of every header cell whose
    trimmed text names a column definition to that definition and leaves
    the other positions out; the parser chain of every definition it
    keeps has passed [validateParsers]. *)
Theorem NewHeader_positions `{L : GoLib} (parsers : gmap string Parser)
    (defs : ValueDefs) (header : list string) (headerDefs : Header) :
  NewHeader parsers defs header = Ok headerDefs →
  (∀ i, headerDefs !! i
        = match header !! i with
          | Some h => match defs !! TrimSpace h with
                      | Some d => Some (Some d)
                      | None => None
                      end
          | None => None
          end) ∧
  (∀ i d, headerDefs !! i = Some (Some d) → validateParsers parsers d = Ok tt).
Proof. apply NewHeader_lookup. Qed.

Lemma NewHeader_positions_witness :
  ∃ headerDefs,
    NewHeader (L := ascii_lib) (builtin_parsers (L := ascii_lib) one_file_world)
      ab_defs [" a "; "zz"; "b"] = Ok headerDefs ∧
    (∀ i, headerDefs !! i
          = match [" a "; "zz"; "b"] !! i with
            | Some h => match ab_defs !! TrimSpace (GoLib := ascii_lib) h with
                        | Some d => Some (Some d)
                        | None => None
                        end
            | None => None
            end) ∧
    (∀ i d, headerDefs !! i = Some (Some d) →
            validateParsers (L := ascii_lib)
              (builtin_parsers (L := ascii_lib) one_file_world) d = Ok tt).
Proof.
  eexists. split; [reflexivity|].
  apply (NewHeader_positions (L := ascii_lib)
           (builtin_parsers (L := ascii_lib) one_file_world) ab_defs
           [" a "; "zz"; "b"]).
  reflexivity.
Defined.

(** The columns and the cells of a row. *)
Lemma NewRow_cells `{L : GoLib} (header : Header) (rowStr : list string)
    (row : Row) :
  NewRow header rowStr = Ok row →
  (∀ col, is_Some (row !! col) ↔
          ∃ i h cell, header !! i = Some (Some h) ∧ rowStr !! i = Some cell ∧
                      cd_Name h = col) ∧
  (∀ col v, row !! col = Some v →
     ∃ i cell, header !! i = Some (Some (def v)) ∧ rowStr !! i = Some cell ∧
               cd_Name (def v) = col ∧ NewValue (def v) cell = Ok v).
Proof.
  revert row.
  induction rowStr as [|x rec IH] using rev_ind; intros row H.
  - unfold NewRow in H. simpl in H. inversion H; subst. split.
    + intros col. rewrite lookup_empty. split.
      * intros [? Hx]. discriminate Hx.
      * intros (i & h & cell & _ & Hc & _). discriminate Hc.
    + intros col v Hv. now rewrite lookup_empty in Hv.
  - rewrite NewRow_snoc in H.
    destruct (NewRow header rec) as [row0| |] eqn:H0; simpl in H;
      try discriminate.
    destruct (IH row0 eq_refl) as [Hdom Hval].
    assert (Hlast : ∀ i cell, (rec ++ [x]) !! i = Some cell ↔
                      rec !! i = Some cell ∨ (i = length rec ∧ cell = x)).
    { intros i cell. destruct (Nat.lt_ge_cases i (length rec)).
      - rewrite lookup_app_l by assumption. split; [auto|].
        intros [?|[? _]]; [assumption|lia].
      - rewrite lookup_app_r by assumption. split.
        + intros Hx. destruct (i - length rec)%nat eqn:E; simpl in Hx;
            [|discriminate]. inversion Hx. right. split; [lia|reflexivity].
        + intros [Hx|[-> ->]].
          * apply lookup_lt_Some in Hx. lia.
          * now rewrite Nat.sub_diag. }
    destruct (header !! length rec) as [[h|]|] eqn:Hh; try discriminate.
    + destruct (NewValue h x) as [val| |] eqn:Hv; simpl in H; try discriminate.
      inversion H; subst row.
      destruct (NewValue_valStr h x val Hv) as [_ Hdef]. split.
      * intros col. destruct (decide (cd_Name h = col)) as [<-|Hne].
        -- rewrite lookup_insert_eq. split; [|eauto].
           intros _. exists (length rec), h, x. rewrite Hlast. auto.
        -- rewrite lookup_insert_ne by exact Hne. rewrite Hdom. split.
           ++ intros (i & h' & cell & Hi & Hc & Hn).
              exists i, h', cell. rewrite Hlast. auto.
           ++ intros (i & h' & cell & Hi & Hc & Hn).
              apply Hlast in Hc as [Hc|[-> ->]]; [eauto 6|].
              rewrite Hh in Hi. inversion Hi; subst. contradiction.
      * intros col v Hl. destruct (decide (cd_Name h = col)) as [<-|Hne].
        -- rewrite lookup_insert_eq in Hl. inversion Hl; subst v.
           exists (length rec), x. rewrite Hdef, Hlast. auto.
        -- rewrite lookup_insert_ne in Hl by exact Hne.
           destruct (Hval col v Hl) as (i & cell & Hi & Hc & Hn & Hb).
           exists i, cell. rewrite Hlast. auto.
    + inversion H; subst row. split.
      * intros col. rewrite Hdom. split.
        -- intros (i & h' & cell & Hi & Hc & Hn).
           exists i, h', cell. rewrite Hlast. auto.
        -- intros (i & h' & cell & Hi & Hc & Hn).
           apply Hlast in Hc as [Hc|[-> ->]]; [eauto 6|].
           rewrite Hh in Hi. discriminate Hi.
      * intros col v Hl.
        destruct (Hval col v Hl) as (i & cell & Hi & Hc & Hn & Hb).
        exists i, cell. rewrite Hlast. auto.
Qed.

(** X19. The columns of a row [NewRow] builds are the names of the
    header definitions at the positions of the record, no others; each
    cell was built by [NewValue] from a cell of the record at a position
    whose definition it points to. *)
Theorem NewRow_columns `{L : GoLib} (header : Header) (rowStr : list string)
    (row : Row) :
  NewRow header rowStr = Ok row →
  (∀ col, is_Some (row !! col) ↔
          ∃ i h cell, header !! i = Some (Some h) ∧ rowStr !! i = Some cell ∧
                      cd_Name h = col) ∧
  (∀ col v, row !! col = Some v →
     ∃ i cell, header !! i = Some (Some (def v)) ∧ rowStr !! i = Some cell ∧
               cd_Name (def v) = col ∧ NewValue (def v) cell = Ok v).
Proof. apply NewRow_cells. Qed.

Lemma NewRow_columns_witness :
  ∃ row,
    NewRow (L := ascii_lib) {[ 0%nat := Some (str_col "a"); 2%nat := Some (int_col "n") ]}
      ["x"; "dropped"; " 7 "] = Ok row ∧
    (∀ col, is_Some (row !! col) ↔
            ∃ i h cell,
              ({[ 0%nat := Some (str_col "a"); 2%nat := Some (int_col "n") ]} : Header)
                !! i = Some (Some h) ∧
              ["x"; "dropped"; " 7 "] !! i = Some cell ∧ cd_Name h = col) ∧
    (∀ col v, row !! col = Some v →
       ∃ i cell,
         ({[ 0%nat := Some (str_col "a"); 2%nat := Some (int_col "n") ]} : Header)
           !! i = Some (Some (def v)) ∧
         ["x"; "dropped"; " 7 "] !! i = Some cell ∧
         cd_Name (def v) = col ∧
         NewValue (L := ascii_lib) (def v) cell = Ok v).
Proof.
  eexists. split; [reflexivity|].
  apply (NewRow_columns (L := ascii_lib)
           {[ 0%nat := Some (str_col "a"); 2%nat := Some (int_col "n") ]}
           ["x"; "dropped"; " 7 "]).
  reflexivity.
Defined.

(** ** The row-build pass *)

Lemma mapM_Forall {A B : Type} (f : A → res B) (P : B → Prop) (l : list A) :
  (∀ x y, f x = Ok y → P y) →
  ∀ ys, mapM f l = Ok ys → Forall P ys.
Proof.
  intros Hf. induction l as [|x l IH]; intros ys H; simpl in H.
  - inversion H. constructor.
  - destruct (f x) as [y| |] eqn:Hx; simpl in H; try discriminate.
    destruct (mapM f l) as [ys'| |]; simpl in H; try discriminate.
    inversion H; subst. constructor; eauto.
Qed.

Lemma foldl_step_inv {A B : Type} (P : A → Prop) (g : res A → B → res A)
    (l : list B) :
  (∀ r b a', g r b = Ok a' → ∃ a, r = Ok a ∧ (P a → P a')) →
  ∀ a a', P a → foldl g (Ok a) l = Ok a' → P a'.
Proof.
  intros Hg. induction l as [|b l IH] using rev_ind; intros a a' Ha H.
  - simpl in H. now inversion H; subst.
  - rewrite foldl_app in H. simpl in H.
    destruct (Hg _ _ _ H) as (a1 & Hl & Hp). apply Hp. eapply IH; eauto.
Qed.

Section BuildFacts.
Context `{L : GoLib}.
Variable parsers : gmap string Parser.

Lemma run_chain_built_for (defs : ValueDefs) (colName : string)
    (rowIndex : nat) (chain : list ColParser) (cell : Value) (row row' : Row) :
  built_for defs row →
  run_chain parsers defs colName rowIndex chain cell row = Ok row' →
  built_for defs row'.
Proof.
  unfold run_chain. intros Hrow H.
  destruct (foldl _ _ chain) as [[c r]| |] eqn:Hf; simpl in H; try discriminate.
  inversion H; subst row'. clear H.
  change (built_for defs (c, r).2). revert Hf.
  apply (foldl_step_inv (fun cr : Value * Row => built_for defs cr.2));
    [|exact Hrow].
  intros [[c0 r0]| |] parser [c1 r1] Hstep; simpl in Hstep; try discriminate.
  exists (c0, r0). split; [reflexivity|]. simpl. intros Hinv.
  res_steps Hstep. inversion Hstep; subst.
  match goal with
  | H : Wrapf _ (NewValue ?d ?s) = Ok ?v |- _ =>
      assert (Hv : NewValue d s = Ok v)
        by (destruct (NewValue d s); simpl in H; try discriminate; exact H)
  end.
  eapply built_for_insert; eauto.
Qed.

Lemma build_row_built_for (defs : ValueDefs) (header : Header)
    (rowIndex : nat) (rec : list string) (row : Row) :
  (∀ k d, defs !! k = Some d → cd_Name d = k) →
  (∀ i d, header !! i = Some (Some d) → ∃ k, defs !! k = Some d) →
  build_row parsers defs header rowIndex rec = Ok row →
  built_for defs row.
Proof.
  intros Hnamed Hheader H. unfold build_row in H.
  destruct (NewRow header rec) as [row0| |] eqn:H0; simpl in H;
    try discriminate.
  assert (Hb0 : built_for defs row0).
  { intros col v Hv.
    destruct (NewRow_cells header rec row0 H0) as [_ Hval].
    destruct (Hval col v Hv) as (i & cell & Hi & Hc & Hn & Hb).
    destruct (Hheader i _ Hi) as [k Hk].
    rewrite <- Hn, (Hnamed k _ Hk). split; [exact Hk|eauto]. }
  match type of H with
  | (?r ≫= _) = _ => destruct r as [row1| |] eqn:H1; simpl in H;
                      try discriminate
  end.
  assert (Hb1 : built_for defs row1).
  { revert H1. apply (foldl_step_inv (built_for defs)); [|exact Hb0].
    intros [a| |] [i cell] a' Hstep; simpl in Hstep; try discriminate.
    exists a. split; [reflexivity|]. intros Ha.
    destruct (defs !! i); [|discriminate].
    eapply run_chain_built_for; eauto. }
  revert H. apply (foldl_step_inv (built_for defs)); [|exact Hb1].
  intros [a| |] [colName d] a' Hstep; simpl in Hstep; try discriminate.
  exists a. split; [reflexivity|]. intros Ha.
  destruct (negb (cd_Dynamic d)); [now inversion Hstep; subst|].
  destruct (NewValue d ""); try discriminate.
  eapply run_chain_built_for; eauto.
Qed.

End BuildFacts.

(** X20. The rows of the row-build pass are well built. When every
    column definition is registered under its own name, each cell of each
    row [build_rows] gives was built by [NewValue] for the definition
    registered under the name of its column, whatever parsers ran and in
    whatever order the columns were visited. *)
Theorem build_rows_built_for `{L : GoLib} (parsers : gmap string Parser)
    (defs : ValueDefs) (records : list (list string)) (rows : list Row) :
  (∀ k d, defs !! k = Some d → cd_Name d = k) →
  build_rows parsers defs records = Ok rows →
  Forall (built_for defs) rows.
Proof.
  intros Hnamed H. unfold build_rows in H.
  destruct records as [|rec0 recs]; [inversion H; constructor|].
  destruct (NewHeader parsers defs rec0) as [header| |] eqn:Hh; simpl in H;
    try discriminate.
  destruct (NewHeader_lookup parsers defs rec0 header Hh) as [Hpos _].
  eapply mapM_Forall; [|exact H].
  intros [k rec] row Hrow. simpl in Hrow.
  eapply build_row_built_for; [exact Hnamed| |exact Hrow].
  intros i d Hi. rewrite Hpos in Hi.
  destruct (rec0 !! i) as [h|]; [|discriminate].
  destruct (defs !! TrimSpace h) as [d'|] eqn:Hd; [|discriminate].
  inversion Hi; subst. eauto.
Qed.

(** The column [code] with a default and the parser [uppercase], as in
    the README, and the dynamic column [tag] built by [concat]. *)
Definition readme_defs : ValueDefs :=
  {[ "code" := MkColDef "code" TypStr "aaaa-1/b" true
                 [MkColParser "uppercase" {[ "value" := MkParserArg "" [] "" [] ]}]
                 false;
     "id" := int_col "id";
     "tag" := MkColDef "tag" TypStr "" false
                [MkColParser "concat"
                   {[ "values" := MkParserArg ""
                        [MkParserArg "id-" [] "" []; MkParserArg "" [] "id" []]
                        "" [] ]}]
                true ]}.

Definition readme_records : list (list string) :=
  [["id"; "code"; "other"]; ["1"; "ab"; "x"]; [" 2 "; ""; "y"]].

Lemma build_rows_built_for_witness :
  ∃ rows,
    build_rows (L := ascii_lib) (builtin_parsers (L := ascii_lib) one_file_world)
      readme_defs readme_records = Ok rows ∧
    Forall (built_for (L := ascii_lib) readme_defs) rows.
Proof.
  destruct (build_rows (L := ascii_lib)
              (builtin_parsers (L := ascii_lib) one_file_world)
              readme_defs readme_records) as [rows|m|m] eqn:H.
  - exists rows. split; [reflexivity|].
    apply (build_rows_built_for (L := ascii_lib)
             (builtin_parsers (L := ascii_lib) one_file_world)
             readme_defs readme_records rows); [|exact H].
    intros k d Hk. unfold readme_defs in Hk.
    apply elem_of_map_to_list in Hk. vm_compute in Hk.
    elem_cases Hk; inversion Hk; reflexivity.
  - vm_compute in H. discriminate H.
  - vm_compute in H. discriminate H.
Defined.

(** The rows of that input: the parser output re-enters [NewValue]. *)
Example build_rows_example :
  (rows ← build_rows (L := ascii_lib)
            (builtin_parsers (L := ascii_lib) one_file_world)
            readme_defs readme_records;
   Ok (map (fun r => (col_str "id" r, col_str "code" r, col_str "tag" r)) rows))
  = Ok [("1", "AB", "id-1"); ("2", "AAAA-1/B", "id-2")].
Proof. vm_compute. reflexivity. Qed.

(** ** The sinks *)

Lemma sink_records_rows (rows : list Row) (cols : list string) :
  Forall (has_cols cols) rows →
  sink_records rows cols
  = Ok (cols :: map (fun r => map (fun c => col_str c r) cols) rows).
Proof.
  intros Hall. unfold sink_records.
  rewrite (mapM_map _ (fun r => map (fun c => col_str c r) cols)); [reflexivity|].
  eapply Forall_impl; [exact Hall|]. intros r Hr.
  apply mapM_map. apply Forall_forall. intros c Hc.
  destruct (Hr c Hc) as [v Hv]. unfold row_col, col_str. now rewrite Hv.
Qed.

(** X21. [print] writes the header made of the requested columns and then
    one record per row, in slice order, each made of the string forms of
    the requested columns; it returns no rows and leaves the store as it
    is. [toFile] writes the same records to the file it names when the
    file can be opened, and fails without writing when it cannot. *)
Theorem sinks_write (E : Env) (st : pstate) (rows : slice) (defs : ValueDefs)
    (args : FuncArgs) (cols : list string) :
  args !! "cols" = Some (AStrs cols) →
  Forall (has_cols cols) (slice_rows (ps_store st) rows) →
  let records :=
    cols :: map (fun r => map (fun c => col_str c r) cols)
              (slice_rows (ps_store st) rows) in
  opPrint st rows defs args
  = Ok (None, ∅, MkPState (ps_store st) (ps_out st ++ map EvStdout records)) ∧
  ∀ fileName, args !! "filename" = Some (AStr fileName) →
    opToFile E st rows defs args
    = if env_OpenFile E (ps_out st) fileName
      then Ok (None, ∅,
               MkPState (ps_store st)
                 (ps_out st ++ map (EvFile fileName) records))
      else Err ("open " +:+ fileName).
Proof.
  intros Hc Hall records. split.
  - unfold opPrint. rewrite Hc. simpl.
    now rewrite (sink_records_rows _ _ Hall).
  - intros fileName Hf. unfold opToFile. rewrite Hc, Hf. simpl.
    destruct (env_OpenFile E (ps_out st) fileName); [|reflexivity].
    now rewrite (sink_records_rows _ _ Hall).
Qed.

Lemma sinks_write_witness :
  let st := sample_state dupes_sample in
  let args : FuncArgs :=
    {[ "cols" := AStrs ["code"]; "filename" := AStr "out.csv" ]} in
  let records :=
    ["code"] :: map (fun r => map (fun c => col_str c r) ["code"])
                  (slice_rows (ps_store st) (Some 0%nat)) in
  opPrint st (Some 0%nat) dupes_defs args
  = Ok (None, ∅, MkPState (ps_store st) (ps_out st ++ map EvStdout records)) ∧
  ∀ fileName, args !! "filename" = Some (AStr fileName) →
    opToFile one_file_env st (Some 0%nat) dupes_defs args
    = if env_OpenFile one_file_env (ps_out st) fileName
      then Ok (None, ∅,
               MkPState (ps_store st)
                 (ps_out st ++ map (EvFile fileName) records))
      else Err ("open " +:+ fileName).
Proof.
  apply (sinks_write one_file_env (sample_state dupes_sample) (Some 0%nat)
           dupes_defs
           {[ "cols" := AStrs ["code"]; "filename" := AStr "out.csv" ]} ["code"]).
  - reflexivity.
  - solve_has_cols.
Defined.

(** ** [findDuplicates] *)

Section FindDupesFacts.
Context `{L : GoLib}.



End FindDupesFacts.


(** Rows with an identifier: three share the code [AAA]. *)
Definition id_row (id code : string) : Row :=
  {[ "id" := sval "id" id; "code" := sval "code" code ]}.

Definition ids_sample : list Row :=
  [id_row "1" "AAA"; id_row "2" "BBB"; id_row "3" "AAA"; id_row "4" "AAA"].

Definition ids_defs : ValueDefs :=
  {[ "id" := str_col "id"; "code" := str_col "code" ]}.




(** The example of the README: the first member with the others listed. *)
Example findDuplicates_example :
  (r ← findDuplicates_rows (L := ascii_lib) ids_defs ["code"] ["id"; "code"]
         "id" "similar" ";" ids_sample;
   Ok (map (fun row => (col_str "id" row, col_str "code" row,
                        col_str "similar" row)) r.1))
  = Ok [("1", "AAA", "3;4")].
Proof. vm_compute. reflexivity. Qed.

(** ** The pipeline without kept states *)

Section UnkeptFacts.
Context `{L : GoLib} `{GS : GoSort} (E : Env).

Lemma run_ops_unkept (originalState : OpState) (Q : string → Prop)
    (ops : list OperationConf) :
  ∀ (opi : nat) (states : gmap string OpState) (st : pstate)
    (trace : list invocation) (st' : pstate) (trace' : list invocation),
    (∀ k s, states !! k = Some s → s = originalState ∧ Q k) →
    (opi = 0%nat → ∀ op rest, ops = op :: rest → Q (oc_Name op)) →
    Forall (fun op => oc_KeepState op = false) ops →
    run_ops E originalState opi ops states st trace = Ok (st', trace') →
    ∃ new,
      trace' = (trace ++ new)%list ∧
      Forall (fun inv =>
                inv_state inv = originalState ∧
                (oc_FromState (inv_op inv) = "" ∨
                 Q (oc_FromState (inv_op inv))))
             new.
Proof.
  induction ops as [|op ops IH];
    intros opi states st trace st' trace' Hst Hfirst Hkeep Hrun.
  - simpl in Hrun. inversion Hrun; subst.
    exists []. rewrite app_nil_r. split; [reflexivity|constructor].
  - simpl in Hrun.
    apply Forall_cons in Hkeep as [Hk Hkeep].
    destruct (operations E !! oc_Operation op) as [operation|] eqn:Hop;
      [|discriminate].
    destruct (op_args operation op) as [opFuncArgs| |]; simpl in Hrun;
      try discriminate.
    destruct (select_state originalState _ op) as [state| |] eqn:Hsel;
      simpl in Hrun; try discriminate.
    destruct (op_OpFunc operation st (os_Rows state) (os_Defs state) opFuncArgs)
      as [[[outRows outDefs] st1]| |] eqn:Hexec; simpl in Hrun;
      try discriminate.
    rewrite Hk in Hrun.
    assert (Hst' : ∀ k s,
               (if (opi =? 0)%nat then <[oc_Name op := originalState]> states
                else states) !! k = Some s →
               s = originalState ∧ Q k).
    { intros k s. destruct (Nat.eqb_spec opi 0) as [H0|_]; [|apply Hst].
      destruct (decide (k = oc_Name op)) as [->|Hne].
      - rewrite lookup_insert_eq. intros H; inversion H; subst.
        split; [reflexivity|]. by eapply Hfirst.
      - rewrite lookup_insert_ne by congruence. apply Hst. }
    destruct (IH (S opi) _ _ _ _ _ Hst' ltac:(intros HS; discriminate HS)
                Hkeep Hrun)
      as (new & -> & Hall).
    eexists (_ :: new). rewrite <- app_assoc. split; [reflexivity|].
    constructor; [|exact Hall]. simpl.
    apply select_state_inv in Hsel as [[He ->]|[Hne Hs]]; [auto|].
    destruct (Hst' _ _ Hs) as [-> Hq]. auto.
Qed.

End UnkeptFacts.

(** X23. Without [keepState] there is one state. When no operation of
    the recipe keeps its output, every call of a successful run is given
    the base state, and an operation can name as [fromState] only the
    first operation of the recipe, the one name the loop registers by
    itself; a recipe that names any other state does not run to the
    end. *)
Theorem ReadCsv_without_kept_states `{L : GoLib} `{GS : GoSort} (E : Env)
    (parsers : gmap string Parser) (filePath : string) (defs : ValueDefs)
    (ops : list OperationConf) (sl : slice) (st' : pstate)
    (trace : list invocation) :
  Forall (fun op => oc_KeepState op = false) ops →
  ReadCsv E parsers filePath defs ops = Ok (sl, st', trace) →
  map inv_op trace = ops ∧
  (∀ inv, inv ∈ trace → inv_state inv = MkOpState sl defs) ∧
  ∀ op, op ∈ ops →
    oc_FromState op = "" ∨
    ∃ first rest, ops = first :: rest ∧ oc_FromState op = oc_Name first.
Proof.
  intros Hkeep Hrun.
  destruct (ReadCsv_inv E parsers _ _ _ _ _ _ Hrun)
    as (records & rows & Hopen & Hrows & Hsl & Hops).
  destruct (run_ops_trace E _ _ _ _ _ _ _ _ Hops) as (_ & new0 & Ht0 & Hmap & _).
  destruct (run_ops_unkept E (base_state defs rows).1
              (fun k => ∃ first rest, ops = first :: rest ∧ k = oc_Name first)
              ops 0%nat ∅ (base_state defs rows).2 [] st' trace)
    as (new & Ht & Hall); auto.
  - intros k s H. rewrite lookup_empty in H. discriminate H.
  - intros _ op rest ->. eauto.
  - simpl in Ht, Ht0. subst new0 new.
    assert (Hbase : (base_state defs rows).1 = MkOpState sl defs).
    { destruct (base_state_slice defs rows) as (_ & Hd & _).
      destruct (base_state defs rows).1 as [r d]. simpl in *. now subst. }
    split; [exact Hmap|]. split.
    + intros inv Hinv. rewrite <- Hbase.
      apply (proj1 (Forall_forall _ _) Hall inv Hinv).
    + intros op Hop. rewrite <- Hmap in Hop.
      apply list_elem_of_fmap in Hop as (inv & -> & Hinv).
      apply (proj1 (Forall_forall _ _) Hall inv Hinv).
Qed.

(** A recipe with no kept state whose second operation names the first. *)
Definition print_first_op : OperationConf :=
  MkOperationConf "show" "print" false false "by_a"
    {[ "cols" := MkOpArg "" ["a"] ]}.

Definition print_unknown_op : OperationConf :=
  MkOperationConf "show" "print" false false "sorted"
    {[ "cols" := MkOpArg "" ["a"] ]}.

Definition unkept_run (ops : list OperationConf)
  : res (slice * pstate * list invocation) :=
  ReadCsv (L := ascii_lib) (GS := legacy_sort) two_line_env
    (builtin_parsers (L := ascii_lib) one_file_world) "in.csv" a_defs ops.

Lemma ReadCsv_without_kept_states_witness :
  ∃ sl st' trace,
    unkept_run [sort_a_op; print_first_op] = Ok (sl, st', trace) ∧
    map inv_op trace = [sort_a_op; print_first_op] ∧
    (∀ inv, inv ∈ trace → inv_state inv = MkOpState sl a_defs) ∧
    ∀ op, op ∈ [sort_a_op; print_first_op] →
      oc_FromState op = "" ∨
      ∃ first rest, [sort_a_op; print_first_op] = first :: rest ∧
                    oc_FromState op = oc_Name first.
Proof.
  destruct (unkept_run [sort_a_op; print_first_op])
    as [[[sl st'] trace]|m|m] eqn:H.
  - exists sl, st', trace. split; [reflexivity|].
    apply (ReadCsv_without_kept_states (L := ascii_lib) (GS := legacy_sort)
             two_line_env (builtin_parsers (L := ascii_lib) one_file_world)
             "in.csv" a_defs [sort_a_op; print_first_op] sl st' trace).
    + repeat constructor.
    + exact H.
  - vm_compute in H. discriminate H.
  - vm_compute in H. discriminate H.
Defined.

(** Naming a state no operation kept stops the run after the sort. *)
Example unknown_state_stops :
  unkept_run [sort_a_op; print_unknown_op]
  = Err "state 'sorted' does not exist or was never kept".
Proof. vm_compute. reflexivity. Qed.

(** ** The groups *)

Lemma range_groups_perm `{L : GoLib} (m : gmap string (list Row)) :
  Permutation (concat (range_groups m)) (concat (map snd (map_to_list m))).
Proof.
  unfold range_groups.
  assert (H : Permutation (map snd (range_order (map_to_list m)))
                          (map snd (map_to_list m)))
    by (apply Permutation_map; symmetry; apply range_order_perm).
  now rewrite H.
Qed.

(** X24. The groups are a partition of the rows: the groups
    [build_groups] makes, one after the other, hold every row exactly as
    often as the input does, no group is empty, and inside its group the
    rows keep their input order. *)
Theorem build_groups_partition `{L : GoLib} (cols : list string)
    (rows : list Row) (m : gmap string (list Row)) :
  build_groups cols rows = Ok m →
  Permutation (concat (range_groups m)) rows ∧
  ∀ k g, m !! k = Some g → g ≠ [] ∧ sublist g rows.
Proof.
  revert m. induction rows as [|r rows IH] using rev_ind; intros m.
  - intros H. inversion H; subst. split.
    + rewrite range_groups_perm, map_to_list_empty. reflexivity.
    + intros k g Hk. rewrite lookup_empty in Hk. discriminate Hk.
  - unfold build_groups. rewrite foldl_app. simpl.
    fold (build_groups cols rows).
    destruct (build_groups cols rows) as [m0| |]; simpl; try discriminate.
    destruct (group_index cols r) as [k| |]; simpl; try discriminate.
    intros H. inversion H; subst. clear H.
    destruct (IH m0 eq_refl) as [Hp Hg]. split.
    + rewrite range_groups_perm. rewrite range_groups_perm in Hp.
      destruct (m0 !! k) as [g|] eqn:Hk; simpl.
      * rewrite <- (insert_delete_eq m0 k (g ++ [r])).
        rewrite map_to_list_insert by apply lookup_delete_eq.
        rewrite <- Hp.
        rewrite <- (insert_delete_id m0 k g Hk) at 2.
        rewrite (map_to_list_insert (delete k m0) k g)
          by apply lookup_delete_eq.
        simpl. rewrite <- !app_assoc.
        apply Permutation_app_head, Permutation_app_comm.
      * rewrite map_to_list_insert by exact Hk. simpl.
        rewrite <- Hp. apply Permutation_cons_append.
    + intros k' g' Hk'.
      destruct (decide (k' = k)) as [->|Hne].
      * rewrite lookup_insert_eq in Hk'. inversion Hk'; subst. split.
        -- intros Hnil. now apply app_eq_nil in Hnil as [_ Hnil].
        -- apply sublist_app; [|reflexivity].
           destruct (m0 !! k) as [g|] eqn:Hk; simpl.
           ++ now apply (Hg k g).
           ++ apply sublist_nil_l.
      * rewrite lookup_insert_ne in Hk' by congruence.
        destruct (Hg k' g' Hk') as [Hne' Hsub]. split; [exact Hne'|].
        now apply sublist_inserts_r.
Qed.

Lemma build_groups_partition_witness :
  ∃ m, build_groups ["code"] ids_sample = Ok m ∧
       Permutation (concat (range_groups (L := ascii_lib) m)) ids_sample ∧
       ∀ k g, m !! k = Some g → g ≠ [] ∧ sublist g ids_sample.
Proof.
  destruct (build_groups ["code"] ids_sample) as [m|e|e] eqn:H.
  - exists m. split; [reflexivity|].
    apply (build_groups_partition (L := ascii_lib) ["code"] ids_sample m H).
  - vm_compute in H. discriminate H.
  - vm_compute in H. discriminate H.
Defined.

(** ** The arguments of an operation *)

Section OpArgsFacts.
Context `{L : GoLib}.
Variables (operation : Operation) (op : OperationConf).

(** The value an argument of declared type [t] resolves to. *)
Definition op_arg_value (t : gotype) (a : OpArg) : argval :=
  if is_Slice t then AStrs (oa_Values a) else AStr (oa_Value a).

Lemma op_args_fold_Ok (l : list (string * OpArg)) (args : FuncArgs) :
  NoDup l.*1 →
  foldl (fun (acc : res FuncArgs) '(argName, arg) =>
           opFuncArgs ← acc;
           match op_ArgDef operation !! argName with
           | None =>
               Err ("unexpected argument '" +:+ argName
                    +:+ "' in operation '" +:+ oc_Operation op
                    +:+ "' named '" +:+ oc_Name op +:+ "'")
           | Some argDef =>
               argVal ← Wrapf ("error parsing argument '" +:+ argName
                               +:+ "' in operation '" +:+ oc_Operation op
                               +:+ "' named '" +:+ oc_Name op +:+ "'")
                          (parseOpArgs argDef arg);
               Ok (<[argName := argVal]> opFuncArgs)
           end)
        (Ok ∅) l = Ok args →
  (∀ k a, (k, a) ∈ l →
     ∃ t, op_ArgDef operation !! k = Some t ∧
          args !! k = Some (op_arg_value t a)) ∧
  (∀ k, is_Some (args !! k) → k ∈ l.*1).
Proof.
  revert args. induction l as [|[k0 a0] l IH] using rev_ind; intros args Hnd.
  - intros H. inversion H; subst. split.
    + intros k a Hin. inversion Hin.
    + intros k [v Hv]. rewrite lookup_empty in Hv. discriminate Hv.
  - rewrite foldl_app. simpl.
    destruct (foldl _ _ l) as [args0| |]; simpl; try discriminate.
    destruct (op_ArgDef operation !! k0) as [t|] eqn:Ht; try discriminate.
    assert (Hp : parseOpArgs t a0 = Ok (op_arg_value t a0))
      by (unfold parseOpArgs, op_arg_value; now destruct (is_Slice t)).
    rewrite Hp. simpl. intros H. inversion H; subst. clear H.
    rewrite fmap_app in Hnd. apply NoDup_app in Hnd as (Hnd & Hfresh & _).
    destruct (IH args0 Hnd eq_refl) as [Hin Hdom]. split.
    + intros k a Hka. apply elem_of_app in Hka as [Hka|Hka].
      * assert (k ≠ k0).
        { intros ->. apply (Hfresh k0).
          - apply list_elem_of_fmap. now exists (k0, a).
          - simpl. left. }
        rewrite lookup_insert_ne by congruence. now apply Hin.
      * apply list_elem_of_singleton in Hka. inversion Hka; subst.
        exists t. rewrite lookup_insert_eq. auto.
    + intros k Hk. rewrite fmap_app. apply elem_of_app.
      destruct (decide (k = k0)) as [->|Hne]; [right; simpl; left|left].
      rewrite lookup_insert_ne in Hk by congruence. now apply Hdom.
Qed.

Lemma op_args_fold_total (l : list (string * OpArg)) :
  (∀ k a, (k, a) ∈ l → is_Some (op_ArgDef operation !! k)) →
  ∃ args,
    foldl (fun (acc : res FuncArgs) '(argName, arg) =>
             opFuncArgs ← acc;
             match op_ArgDef operation !! argName with
             | None =>
                 Err ("unexpected argument '" +:+ argName
                      +:+ "' in operation '" +:+ oc_Operation op
                      +:+ "' named '" +:+ oc_Name op +:+ "'")
             | Some argDef =>
                 argVal ← Wrapf ("error parsing argument '" +:+ argName
                                 +:+ "' in operation '" +:+ oc_Operation op
                                 +:+ "' named '" +:+ oc_Name op +:+ "'")
                            (parseOpArgs argDef arg);
                 Ok (<[argName := argVal]> opFuncArgs)
             end)
          (Ok ∅) l = Ok args.
Proof.
  induction l as [|[k0 a0] l IH] using rev_ind; intros Hall.
  - eexists. reflexivity.
  - destruct IH as [args0 H0].
    { intros k a Hka. apply (Hall k a), elem_of_app. now left. }
    destruct (Hall k0 a0) as [t Ht]; [apply elem_of_app; right; left|].
    rewrite foldl_app, H0. simpl. rewrite Ht.
    unfold parseOpArgs. destruct (is_Slice t); simpl; eauto.
Qed.

Lemma range_args_elem (k : string) (a : OpArg) :
  (k, a) ∈ range_order (map_to_list (oc_Args op)) ↔ oc_Args op !! k = Some a.
Proof.
  rewrite <- (range_order_perm _ (map_to_list (oc_Args op))).
  apply elem_of_map_to_list.
Qed.

Lemma range_args_NoDup :
  NoDup (range_order (map_to_list (oc_Args op))).*1.
Proof.
  rewrite <- (range_order_perm _ (map_to_list (oc_Args op))).
  apply NoDup_fst_map_to_list.
Qed.

End OpArgsFacts.

(** X25. The arguments handed to an operation. [ReadCsv] resolves the
    arguments of an invocation exactly when the operation declares every
    one of them; each then holds the list [values] when the declared type
    is a slice and the single [value] otherwise, whatever the recipe
    wrote in the other field, and nothing is said about declared
    arguments the recipe leaves out: they are absent. *)
Theorem op_args_resolves `{L : GoLib} (operation : Operation)
    (op : OperationConf) (args : FuncArgs) :
  op_args operation op = Ok args ↔
  (∀ k, is_Some (oc_Args op !! k) → is_Some (op_ArgDef operation !! k)) ∧
  ∀ k, args !! k
       = match oc_Args op !! k, op_ArgDef operation !! k with
         | Some a, Some t =>
             Some (if is_Slice t then AStrs (oa_Values a)
                   else AStr (oa_Value a))
         | _, _ => None
         end.
Proof.
  assert (Hfwd : ∀ args0, op_args operation op = Ok args0 →
            (∀ k, is_Some (oc_Args op !! k) →
                  is_Some (op_ArgDef operation !! k)) ∧
            ∀ k, args0 !! k
                 = match oc_Args op !! k, op_ArgDef operation !! k with
                   | Some a, Some t => Some (op_arg_value t a)
                   | _, _ => None
                   end).
  { intros args0 H.
    destruct (op_args_fold_Ok operation op _ args0 (range_args_NoDup op) H)
      as [Hin Hdom].
    split.
    - intros k [a Ha]. apply range_args_elem in Ha.
      destruct (Hin k a Ha) as (t & Ht & _). eauto.
    - intros k. destruct (oc_Args op !! k) as [a|] eqn:Ha.
      + apply range_args_elem in Ha.
        destruct (Hin k a Ha) as (t & Ht & Hk). now rewrite Ht.
      + destruct (args0 !! k) as [v|] eqn:Hv; [|reflexivity].
        pose proof (Hdom k (mk_is_Some _ _ Hv)) as Hk.
        apply list_elem_of_fmap in Hk as ([k' a] & -> & Hka).
        apply range_args_elem in Hka. simpl in Ha. congruence. }
  split; [apply Hfwd|].
  intros [Hdecl Hargs].
  destruct (op_args_fold_total operation op
              (range_order (map_to_list (oc_Args op)))) as [args0 H0].
  { intros k a Hka. apply range_args_elem in Hka. apply Hdecl. eauto. }
  unfold op_args. rewrite H0. f_equal.
  apply map_eq. intros k.
  destruct (Hfwd args0 H0) as [_ H1]. now rewrite H1, Hargs.
Qed.

(** A recipe that sets both fields of [cols] and an argument [print]
    does not declare. *)
Example op_args_example :
  op_args (L := ascii_lib)
    (MkOperation "print" opPrint {[ "cols" := TSliceString ]})
    (MkOperationConf "show" "print" false false ""
       {[ "cols" := MkOpArg "a" ["b"; "c"] ]})
  = Ok {[ "cols" := AStrs ["b"; "c"] ]} ∧
  op_args (L := ascii_lib)
    (MkOperation "print" opPrint {[ "cols" := TSliceString ]})
    (MkOperationConf "show" "print" false false ""
       {[ "sep" := MkOpArg "," [] ]})
  = Err "unexpected argument 'sep' in operation 'print' named 'show'".
Proof. split; vm_compute; reflexivity. Qed.

(** ** [filesMd5] without threads *)

(** X26. [filesMd5] with a thread count of zero or less. On an empty
    slice and a count of zero it returns the slice and leaves the store
    alone; with a negative count, or with a count of zero and at least
    one row, it returns nothing: the channel cannot be made, or no task
    is ever admitted. *)
Theorem opMd5File_without_threads `{L : GoLib} (E : Env) (st : pstate)
    (rows : slice) (defs : ValueDefs) (args : FuncArgs)
    (filenameCol md5Col : string) (outCols : list string) (threads : Z) :
  argString args "filenameCol" = Ok filenameCol →
  argString args "md5Col" = Ok md5Col →
  argSliceString args "outCols" = Ok outCols →
  argInt args "threads" = Ok threads →
  threads <= 0 →
  (∀ col, col ∈ outCols → is_Some (defs !! col)) →
  (threads = 0 ∧ slice_locs (ps_store st) rows = [] →
   ∃ outDefs, opMd5File E st rows defs args = Ok (rows, outDefs, st)) ∧
  (threads < 0 ∨ slice_locs (ps_store st) rows ≠ [] →
   ∃ msg, opMd5File E st rows defs args = Panic msg).
Proof.
  intros Hfc Hmc Hoc Hth Hle Hdefs.
  destruct (out_defs_Ok (header_push (out_header defs outCols) (md5ColDef md5Col)))
    as [outDefs HoutDefs].
  { now apply header_push_entries. }
  unfold opMd5File. rewrite Hfc, Hmc, Hoc, Hth. simpl.
  set (locs := slice_locs (ps_store st) rows).
  set (tot := Z.of_nat (length locs)).
  assert (Htot : 0 <= tot) by (unfold tot; lia).
  split.
  - intros [-> Hnil]. unfold tot. rewrite Hnil. simpl.
    rewrite HoutDefs. simpl. exists outDefs. now destruct st.
  - intros Hbad.
    assert (Hcap : (if tot <? threads then tot else threads) = threads)
      by (destruct (Z.ltb_spec tot threads); lia).
    rewrite Hcap.
    destruct (Z.ltb_spec threads 0); [eauto|].
    assert (threads = 0) as -> by lia. simpl.
    destruct Hbad as [Hneg|Hrows]; [lia|].
    assert (0 < tot).
    { unfold tot. destruct locs; [contradiction|]. simpl. lia. }
    destruct (Z.ltb_spec 0 tot); [eauto|lia].
Qed.

Definition no_thread_args : FuncArgs :=
  {[ "filenameCol" := AStr "file"; "md5Col" := AStr "md5";
     "outCols" := AStrs ["file"]; "threads" := AStr "0" ]}.

Lemma opMd5File_without_threads_witness :
  ∃ msg,
    opMd5File (L := ascii_lib) one_file_env (sample_state md5_sample)
      (Some 0%nat) {[ "file" := str_col "file" ]} no_thread_args
    = Panic msg.
Proof.
  apply (opMd5File_without_threads (L := ascii_lib) one_file_env
           (sample_state md5_sample) (Some 0%nat)
           {[ "file" := str_col "file" ]} no_thread_args
           "file" "md5" ["file"] 0).
  - reflexivity.
  - reflexivity.
  - reflexivity.
  - reflexivity.
  - lia.
  - intros col Hcol. elem_cases Hcol. vm_compute. eauto.
  - right. vm_compute. discriminate.
Defined.

(** ** The columns of a built row *)

Lemma foldl_not_Ok {A B : Type} (g : res A → B → res A) (l : list B) (b0 : B) :
  (∀ r b a', g r b = Ok a' → ∃ a, r = Ok a) →
  (∀ r a', g r b0 ≠ Ok a') →
  b0 ∈ l → ∀ r a', foldl g r l ≠ Ok a'.
Proof.
  intros Hg Hb0 Hin r a' H.
  apply list_elem_of_split in Hin as (l1 & l2 & ->).
  rewrite foldl_app in H. simpl in H.
  revert a' H. generalize (foldl g r l1). intros r1.
  induction l2 as [|b l2 IH] using rev_ind; simpl; intros a'.
  - apply Hb0.
  - rewrite foldl_app. simpl. intros H.
    destruct (Hg _ _ _ H) as [a Ha]. exact (IH a Ha).
Qed.

Section ColumnFacts.
Context `{L : GoLib}.
Variable parsers : gmap string Parser.

Lemma run_chain_columns (defs : ValueDefs) (colName : string)
    (rowIndex : nat) (chain : list ColParser) (cell : Value) (row row' : Row) :
  run_chain parsers defs colName rowIndex chain cell row = Ok row' →
  ∀ col, is_Some (row' !! col) ↔
         is_Some (row !! col) ∨ (col = colName ∧ chain ≠ []).
Proof.
  unfold run_chain. intros H.
  destruct (foldl _ _ chain) as [[c r]| |] eqn:Hf; simpl in H; try discriminate.
  inversion H; subst row'. clear H. simpl. revert c r Hf.
  induction chain as [|p chain IH] using rev_ind; intros c r Hf.
  - simpl in Hf. inversion Hf; subst. intros col. split; [auto|].
    intros [?|[_ ?]]; [assumption|contradiction].
  - rewrite foldl_app in Hf. simpl in Hf.
    destruct (foldl _ _ chain) as [[c0 r0]| |] eqn:Hf0; simpl in Hf;
      try discriminate.
    specialize (IH c0 r0 eq_refl).
    res_steps Hf. inversion Hf; subst. intros col.
    destruct (decide (col = colName)) as [->|Hne].
    + rewrite lookup_insert_eq. split; [|eauto].
      intros _. right. split; [reflexivity|].
      intros Hn. apply app_eq_nil in Hn as [_ Hn]. discriminate Hn.
    + rewrite lookup_insert_ne by congruence. rewrite IH.
      split; (intros [?|[? _]]; [auto|contradiction]).
Qed.

Lemma static_fold_columns (defs : ValueDefs) (rowIndex : nat)
    (l : list (string * Value)) :
  ∀ row0 row,
    (∀ i cell, (i, cell) ∈ l → is_Some (row0 !! i)) →
    foldl (fun (acc : res Row) '(i, cell) =>
             row ← acc;
             match defs !! i with
             | None =>
                 Panic "invalid memory address or nil pointer dereference"
             | Some d =>
                 run_chain parsers defs i rowIndex (cd_Parsers d) cell row
             end)
          (Ok row0) l = Ok row →
    ∀ col, is_Some (row !! col) ↔ is_Some (row0 !! col).
Proof.
  induction l as [|[i cell] l IH] using rev_ind; intros row0 row Hin H.
  - simpl in H. now inversion H; subst.
  - rewrite foldl_app in H. simpl in H.
    destruct (foldl _ _ l) as [row1| |] eqn:H1; simpl in H; try discriminate.
    destruct (defs !! i) as [d|]; [|discriminate].
    intros col. rewrite (run_chain_columns _ _ _ _ _ _ _ H col).
    assert (Hl : ∀ i' c', (i', c') ∈ l → is_Some (row0 !! i')).
    { intros i' c' Hi'. apply (Hin i' c'), elem_of_app. now left. }
    rewrite (IH row0 row1 Hl H1 col).
    split; [|auto]. intros [?|[-> _]]; [assumption|].
    apply (Hin i cell), elem_of_app. right. left.
Qed.

Lemma dynamic_fold_columns (defs : ValueDefs) (rowIndex : nat)
    (l : list (string * ColDef)) :
  ∀ row1 row,
    foldl (fun (acc : res Row) '(colName, d) =>
             row ← acc;
             if negb (cd_Dynamic d) then Ok row
             else
               match NewValue d "" with
               | Ok cell =>
                   run_chain parsers defs colName rowIndex (cd_Parsers d)
                     cell row
               | Err _ => Err "error creating empty value"
               | Panic m => Panic m
               end)
          (Ok row1) l = Ok row →
    ∀ col, is_Some (row !! col) ↔
           is_Some (row1 !! col) ∨
           ∃ d, (col, d) ∈ l ∧ cd_Dynamic d = true ∧ cd_Parsers d ≠ [].
Proof.
  induction l as [|[colName d] l IH] using rev_ind; intros row1 row H.
  - simpl in H. inversion H; subst. intros col. split; [auto|].
    intros [?|(d & Hd & _)]; [assumption|inversion Hd].
  - rewrite foldl_app in H. simpl in H.
    destruct (foldl _ _ l) as [row2| |] eqn:H2; simpl in H; try discriminate.
    specialize (IH row1 row2 H2). intros col.
    destruct (cd_Dynamic d) eqn:Hdyn; simpl in H.
    + destruct (NewValue d "") as [cell| |]; try discriminate.
      rewrite (run_chain_columns _ _ _ _ _ _ _ H col), IH. split.
      * intros [[?|(d' & Hd' & ?)]|[-> Hne]]; auto.
        -- right. exists d'. rewrite elem_of_app. auto.
        -- right. exists d. rewrite elem_of_app, list_elem_of_singleton. auto.
      * intros [?|(d' & Hd' & Hdy & Hp)]; [auto|].
        apply elem_of_app in Hd' as [Hd'|Hd']; [eauto 6|].
        apply list_elem_of_singleton in Hd'. inversion Hd'; subst. auto.
    + inversion H; subst. rewrite IH. split.
      * intros [?|(d' & Hd' & ?)]; [auto|].
        right. exists d'. rewrite elem_of_app. auto.
      * intros [?|(d' & Hd' & Hdy & Hp)]; [auto|].
        apply elem_of_app in Hd' as [Hd'|Hd']; [eauto 6|].
        apply list_elem_of_singleton in Hd'. inversion Hd'; subst. congruence.
Qed.

End ColumnFacts.

(** X27. The columns of a built row. A row the row-build pass makes has
    the columns of the header cells that name a definition, at the
    positions the record reaches, and the dynamic columns that have at
    least one parser; a dynamic column without parsers is not created. *)
Theorem build_row_columns `{L : GoLib} (parsers : gmap string Parser)
    (defs : ValueDefs) (header : Header) (rowIndex : nat)
    (rec : list string) (row : Row) :
  build_row parsers defs header rowIndex rec = Ok row →
  ∀ col, is_Some (row !! col) ↔
         (∃ i h cell, header !! i = Some (Some h) ∧ rec !! i = Some cell ∧
                      cd_Name h = col) ∨
         (∃ d, defs !! col = Some d ∧ cd_Dynamic d = true ∧
               cd_Parsers d ≠ []).
Proof.
  intros H col. unfold build_row in H.
  destruct (NewRow header rec) as [row0| |] eqn:H0; simpl in H;
    try discriminate.
  match type of H with
  | (?r ≫= _) = _ => destruct r as [row1| |] eqn:H1; simpl in H;
                      try discriminate
  end.
  rewrite (dynamic_fold_columns parsers _ _ _ _ _ H col).
  assert (Hin : ∀ i cell, (i, cell) ∈ range_order (map_to_list row0) →
                          is_Some (row0 !! i)).
  { intros i cell Hin.
    rewrite <- (range_order_perm _ (map_to_list row0)) in Hin.
    apply elem_of_map_to_list in Hin. eauto. }
  rewrite (static_fold_columns parsers _ _ _ _ _ Hin H1 col).
  destruct (NewRow_cells header rec row0 H0) as [Hdom _]. rewrite Hdom.
  split; (intros [?|(d & Hd & ?)]; [auto|right; exists d; split; [|auto]]).
  - rewrite <- (range_order_perm _ (map_to_list defs)) in Hd.
    now apply elem_of_map_to_list in Hd.
  - rewrite <- (range_order_perm _ (map_to_list defs)).
    now apply elem_of_map_to_list.
Qed.

(** A dynamic column with no parser, beside one with a parser. *)
Definition dyn_defs : ValueDefs :=
  {[ "id" := MkColDef "id" TypStr "" false [] false;
     "note" := MkColDef "note" TypStr "" false [] true;
     "big" := MkColDef "big" TypStr "" false
                [MkColParser "uppercase"
                   {[ "value" := MkParserArg "x" [] "" [] ]}] true ]}.

Definition dyn_header : Header :=
  {[ 0%nat := Some (MkColDef "id" TypStr "" false [] false) ]}.

Lemma build_row_columns_witness :
  ∃ row,
    build_row (L := ascii_lib) (builtin_parsers (L := ascii_lib) one_file_world)
      dyn_defs dyn_header 1 ["7"] = Ok row ∧
    ∀ col, is_Some (row !! col) ↔
           (∃ i h cell, dyn_header !! i = Some (Some h) ∧
                        ["7"] !! i = Some cell ∧ cd_Name h = col) ∨
           (∃ d, dyn_defs !! col = Some d ∧ cd_Dynamic d = true ∧
                 cd_Parsers d ≠ []).
Proof.
  eexists. split; [vm_compute; reflexivity|].
  apply (build_row_columns (L := ascii_lib)
           (builtin_parsers (L := ascii_lib) one_file_world)
           dyn_defs dyn_header 1 ["7"]).
  vm_compute. reflexivity.
Defined.

Example build_row_dynamic_example :
  (row ← build_row (L := ascii_lib)
           (builtin_parsers (L := ascii_lib) one_file_world)
           dyn_defs dyn_header 1 ["7"];
   Ok (ValStr <$> row !! "id", ValStr <$> row !! "note",
       ValStr <$> row !! "big"))
  = Ok (Some "7", None, Some "X").
Proof. vm_compute. reflexivity. Qed.

(** X28. A dynamic column must take the empty cell. The cell of a
    dynamic column starts from [NewValue] on the empty string; when the
    definition refuses it (a column that may not be empty and has no
    default), no data row can be built, whatever its parsers would
    compute: a file with at least one data record is not read. *)
Theorem build_rows_dynamic_empty_value `{L : GoLib}
    (parsers : gmap string Parser) (defs : ValueDefs) (col : string)
    (d : ColDef) (rec0 rec1 : list string) (recs : list (list string)) :
  defs !! col = Some d →
  cd_Dynamic d = true →
  (∀ v, NewValue d "" ≠ Ok v) →
  ∀ rows, build_rows parsers defs (rec0 :: rec1 :: recs) ≠ Ok rows.
Proof.
  intros Hd Hdyn Hnv rows H. unfold build_rows in H.
  destruct (NewHeader parsers defs rec0) as [header| |]; simpl in H;
    try discriminate.
  destruct (build_row parsers defs header 1 rec1) as [row| |] eqn:Hrow;
    simpl in H; try discriminate.
  clear H. unfold build_row in Hrow.
  destruct (NewRow header rec1) as [row0| |]; simpl in Hrow; try discriminate.
  match type of Hrow with
  | (?r ≫= _) = _ => destruct r as [row1| |]; simpl in Hrow; try discriminate
  end.
  revert Hrow. apply foldl_not_Ok with (b0 := (col, d)).
  - intros [a| |] [c d'] a' Hstep; simpl in Hstep; try discriminate. eauto.
  - intros [a| |] a' Hstep; simpl in Hstep; try discriminate.
    rewrite Hdyn in Hstep. simpl in Hstep.
    destruct (NewValue d "") as [v| |] eqn:Hv; try discriminate.
    exact (Hnv v eq_refl).
  - rewrite <- (range_order_perm _ (map_to_list defs)).
    now apply elem_of_map_to_list.
Qed.

Definition strict_dyn_defs : ValueDefs :=
  {[ "id" := MkColDef "id" TypStr "" false [] false;
     "big" := MkColDef "big" TypStr "" true
                [MkColParser "uppercase"
                   {[ "value" := MkParserArg "x" [] "" [] ]}] true ]}.

Lemma build_rows_dynamic_empty_value_witness :
  ¬ ∃ rows,
      build_rows (L := ascii_lib)
        (builtin_parsers (L := ascii_lib) one_file_world)
        strict_dyn_defs [["id"]; ["7"]] = Ok rows.
Proof.
  intros [rows H]. revert H.
  apply (build_rows_dynamic_empty_value (L := ascii_lib)
           (builtin_parsers (L := ascii_lib) one_file_world)
           strict_dyn_defs "big"
           (MkColDef "big" TypStr "" true
              [MkColParser "uppercase"
                 {[ "value" := MkParserArg "x" [] "" [] ]}] true)
           ["id"] ["7"] []).
  - reflexivity.
  - reflexivity.
  - intros v Hv. vm_compute in Hv. discriminate Hv.
Defined.

Example build_rows_dynamic_empty_example :
  build_rows (L := ascii_lib)
    (builtin_parsers (L := ascii_lib) one_file_world)
    strict_dyn_defs [["id"]; ["7"]]
  = Err "error creating empty value".
Proof. vm_compute. reflexivity. Qed.
